(** * cyphi: nodes, subsystems, repertoires, partition search and the Mice cache

    A shallow embedding of [cyphi/node.py], [cyphi/subsystem.py] and
    [cyphi/compute.py].

    Conventions of the embedding.
    - Python [int] is [Z]; Python [float] is modelled by exact rationals [Q]
      (rounding is not modelled), compared with [==].
    - A Python exception is a value [Raise e] of the error monad [result].
    - A numpy array over the state space of a network of binary nodes is a
      [Tensor]: which axes have size 2 (the others are singletons) and the
      entry at every index.  Reading a singleton axis ignores the index given
      for it, which is numpy broadcasting.
    - [None] is [option]'s [None].
*)

From Stdlib Require Import ZArith QArith Qminmax Qabs Lia Lqa List Bool Sorted.
From stdpp Require Import strings gmap.

Local Open Scope Z_scope.

(** ** Exceptions and the error monad *)

Inductive exn : Type :=
| AttributeError
| IndexError
| TypeError
| ValueError.

Inductive result (A : Type) : Type :=
| Ok (a : A)
| Raise (e : exn).
Arguments Ok {A} a.
Arguments Raise {A} e.

#[global] Instance result_ret : MRet result := fun A a => Ok a.
#[global] Instance result_bind : MBind result := fun A B f m =>
  match m with
  | Ok a => f a
  | Raise e => Raise e
  end.
#[global] Instance result_fmap : FMap result := fun A B f m =>
  match m with
  | Ok a => Ok (f a)
  | Raise e => Raise e
  end.

Definition raises {A} (m : result A) : Prop := exists e, m = Raise e.

Definition returns {A} (m : result A) : bool :=
  match m with
  | Ok _ => true
  | Raise _ => false
  end.

(** The computation returns a value other than [None]. *)
Definition returns_some {A} (m : result (option A)) : bool :=
  match m with
  | Ok (Some _) => true
  | _ => false
  end.

(** The computation returns a value that passes the test [P]. *)
Definition returns_with {A} (P : A -> bool) (m : result A) : bool :=
  match m with
  | Ok a => P a
  | Raise _ => false
  end.

(** Python sequence indexing [l[i]]: negative indices count from the end,
    anything else out of range raises [IndexError]. *)
Definition py_index {A} (l : list A) (i : Z) : result A :=
  let n := Z.of_nat (length l) in
  let j := if i <? 0 then i + n else i in
  if (0 <=? j) && (j <? n)
  then match l !! Z.to_nat j with
       | Some x => Ok x
       | None => Raise IndexError
       end
  else Raise IndexError.

(** [range(n)] as Python ints. *)
Definition range (n : nat) : list Z := map Z.of_nat (seq 0 n).

(** Python [x in l] for ints. *)
Definition Zmem (x : Z) (l : list Z) : bool := existsb (Z.eqb x) l.

(** ** Tensors over binary state spaces *)

Abbreviation State := (list bool).

Record Tensor : Type := mkTensor {
  tshape : list bool;      (* [true]: axis of size 2, [false]: singleton axis *)
  tat : State -> Q         (* entry at an index; singleton axes read index 0 *)
}.

(** Clamp an index to the shape: on a singleton axis only index 0 exists. *)
Fixpoint mask (shape : list bool) (s : State) : State :=
  match s with
  | [] => []
  | x :: s' =>
      match shape with
      | [] => false :: mask [] s'
      | b :: sh => (b && x) :: mask sh s'
      end
  end.

(** Broadcast read. *)
Definition tget (t : Tensor) (s : State) : Q := tat t (mask (tshape t) s).

(** All indices of an array of the given shape, in C order. *)
Fixpoint states (shape : list bool) : list State :=
  match shape with
  | [] => [[]]
  | b :: sh =>
      if b
      then map (cons false) (states sh) ++ map (cons true) (states sh)
      else map (cons false) (states sh)
  end.

Definition Qsum (l : list Q) : Q := fold_right Qplus 0%Q l.

(** [np.sum(t)] *)
Definition tsum (t : Tensor) : Q := Qsum (map (tget t) (states (tshape t))).

Fixpoint or_shape (a b : list bool) : list bool :=
  match a, b with
  | [], _ => b
  | _, [] => a
  | x :: a', y :: b' => (x || y) :: or_shape a' b'
  end.

(** [np.ones(shape)] *)
Definition tones (shape : list bool) : Tensor := mkTensor shape (fun _ => 1%Q).

(** [np.array([1])] *)
Definition tscalar_one : Tensor := tones [].

(** [t1 * t2] with broadcasting of singleton axes. *)
Definition tmul (t1 t2 : Tensor) : Tensor :=
  mkTensor (or_shape (tshape t1) (tshape t2))
           (fun s => (tget t1 s * tget t2 s)%Q).

(** [t / c] *)
Definition tdiv (t : Tensor) (c : Q) : Tensor :=
  mkTensor (tshape t) (fun s => (tget t s / c)%Q).

(** [1 - t] *)
Definition tcompl (t : Tensor) : Tensor :=
  mkTensor (tshape t) (fun s => (1 - tget t s)%Q).

Definition set_axis (i : nat) (v : bool) (s : State) : State := <[i := v]> s.

Definition axis_size (shape : list bool) (i : nat) : Q :=
  if nth i shape false then 2%Q else 1%Q.

(** [t.sum(i, keepdims=True)] *)
Definition tsum_axis (t : Tensor) (i : nat) : Tensor :=
  mkTensor (<[i := false]> (tshape t))
           (fun s => if nth i (tshape t) false
                     then (tget t (set_axis i false s) + tget t (set_axis i true s))%Q
                     else tget t s).

(** [t[..., [v], ...]]: select entry [v] of axis [i], kept as a singleton. *)
Definition tselect (t : Tensor) (i : nat) (v : bool) : Tensor :=
  mkTensor (<[i := false]> (tshape t)) (fun s => tget t (set_axis i v s)).

(** ** Data model *)

Abbreviation Matrix := (list (list Z)).

Inductive Direction : Type := Past | Future.

Module Network.
(** The network container.  [tpm] is the joint transition tensor of shape
    [2,...,2,size], kept state by state: row [r] holds, for the state whose
    C-order number is [r], the probability of each node being on. *)
Record t : Type := mk {
  size : nat;
  tpm : list (list Q);
  connectivity_matrix : option Matrix
}.
End Network.

Module Cut.
Record t : Type := mk {
  severed : list Z;
  intact : list Z
}.
End Cut.

Module Node.
Record t : Type := mk {
  network : Network.t;
  index : Z;
  label : option string;
  connectivity_matrix : option Matrix;
  _input_indices : list Z;
  _output_indices : option (list Z);   (* never assigned without a matrix *)
  _dimension_labels : list (option nat);
  tpm : Tensor * Tensor;               (* (off, on) *)
  _hash : Z
}.
End Node.

Module Part.
Record t : Type := mk {
  mechanism : list Node.t;
  purview : list Node.t
}.
End Part.

Module Mip.
Record t : Type := mk {
  direction : Direction;
  mechanism : list Node.t;
  purview : list Node.t;
  partition : option (Part.t * Part.t);
  unpartitioned_repertoire : option Tensor;
  partitioned_repertoire : option Tensor;
  phi : Q
}.
End Mip.

Module Mice.
Record t : Type := mk {
  direction : Direction;
  mechanism : list Z;
  purview : list Z;
  repertoire : option Tensor;
  mip : Mip.t;
  phi : Q
}.
End Mice.

Module Concept.
Record t : Type := mk {
  mechanism : list Z;
  location : Tensor * Tensor;          (* (cause, effect) *)
  phi : Q;
  cause : option Mice.t;
  effect : option Mice.t
}.
End Concept.

Module Subsystem.
Record t : Type := mk {
  node_indices : list Z;
  null_cut : Cut.t;
  nodes : list Node.t;
  connectivity_matrix : option Matrix;
  cut : Cut.t;
  current_state : list Z;
  past_state : list Z;
  network : Network.t;
  _hash : Z
}.
End Subsystem.

Module BigMip.
Record t : Type := mk {
  subsystem : Subsystem.t;
  phi : Q;
  cut : Cut.t;
  unpartitioned_constellation : option (list Concept.t);
  partitioned_constellation : option (list Concept.t)
}.
End BigMip.

(** ** External collaborators

    What the three modules import from the rest of the package and from
    scipy: hashing, the value objects' comparisons, the combinatorics and
    distance utilities, and the options.  They are an interface here. *)
Class Collaborators : Type := {
  (* hash((network, index)) and hash((node_indices, current, past, network)) *)
  hash_node : Network.t * Z -> Z;
  hash_subsystem : list Z * list Z * list Z * Network.t -> Z;
  (* options.EPSILON, options.SINGLE_NODES_WITH_SELFLOOPS_HAVE_PHI *)
  EPSILON : Q;
  SINGLE_NODES_WITH_SELFLOOPS_HAVE_PHI : bool;
  (* utils.bipartition, utils.powerset *)
  bipartition : forall A : Type, list A -> list (list A * list A);
  powerset : forall A : Type, list A -> list (list A);
  (* utils.hamming_emd, utils.emd *)
  hamming_emd : Tensor -> Tensor -> Q;
  emd : list Q -> list Q -> list (list Q) -> Q;
  (* models: Concept.__eq__, max over Mips, min over BigMips *)
  Concept_eqb : Concept.t -> Concept.t -> bool;
  Mip_max : list (option Mip.t) -> result (option Mip.t);
  BigMip_min : list BigMip.t -> result BigMip.t
}.
Arguments bipartition {_ A} _.
Arguments powerset {_ A} _.

#[global] Instance Q_eq_dec : EqDecision Q.
Proof. solve_decision. Defined.
#[global] Instance Network_eq_dec : EqDecision Network.t.
Proof. solve_decision. Defined.
#[global] Instance Direction_eq_dec : EqDecision Direction.
Proof. solve_decision. Defined.
#[global] Instance Direction_countable : Countable Direction.
Proof.
  refine (inj_countable' (fun d => match d with Past => false | Future => true end)
                         (fun b => if b then Future else Past) _).
  intros []; reflexivity.
Defined.

(** ** node.py *)

Section Program.
Context `{Collaborators}.

(** Truth value of a matrix entry. *)
Definition truthy (z : Z) : bool := negb (z =? 0).

(** A list comprehension [[x for x in l if f(x)]] whose test may raise. *)
Fixpoint filterM {A} (f : A -> result bool) (l : list A) : result (list A) :=
  match l with
  | [] => Ok []
  | x :: l' =>
      b ← f x;
      r ← filterM f l';
      Ok (if b : bool then x :: r else r)
  end.

(** Normalisation of a Python index against a length. *)
Definition norm_index (n : nat) (i : Z) : result nat :=
  let j := if i <? 0 then i + Z.of_nat n else i in
  if (0 <=? j) && (j <? Z.of_nat n) then Ok (Z.to_nat j) else Raise IndexError.

(** C-order number of a network state. *)
Definition state_number (s : State) : nat :=
  fold_left (fun acc (b : bool) => (2 * acc + (if b then 1 else 0))%nat) s 0%nat.

Definition tpm_entry (network : Network.t) (s : State) (j : nat) : Q :=
  nth j (nth (state_number s) (Network.tpm network) []) 0%Q.

(** [network.tpm[..., index]] *)
Definition tpm_column (network : Network.t) (index : Z) : result Tensor :=
  j ← norm_index (Network.size network) index;
  Ok (mkTensor (replicate (Network.size network) true)
               (fun s => tpm_entry network s j)).

(** [network.connectivity_matrix[...]]: subscripting [None] raises. *)
Definition network_cm (network : Network.t) : result Matrix :=
  match Network.connectivity_matrix network with
  | Some m => Ok m
  | None => Raise TypeError
  end.

(** One round of the marginalisation loop of [Node.__init__]. *)
Definition marginalize_step (input_indices : list Z)
    (acc : Tensor * Tensor * list (option nat) * nat) (index : Z)
    : Tensor * Tensor * list (option nat) * nat :=
  let '(tpm_on, tpm_off, labels, current) := acc in
  if negb (Zmem index input_indices)
  then (tdiv (tsum_axis tpm_on (Z.to_nat index)) 2,
        tdiv (tsum_axis tpm_off (Z.to_nat index)) 2,
        labels ++ [None], current)
  else (tpm_on, tpm_off, labels ++ [Some current], S current).

(** [Node.__init__] *)
Definition Node_init (network : Network.t) (index : Z)
    (connectivity_matrix : option Matrix) (label : option string)
    : result Node.t :=
  let cm := match connectivity_matrix with
            | None => Network.connectivity_matrix network
            | Some m => Some m
            end in
  io ← match cm with
       | Some _ =>
           ins ← filterM (fun i => m ← network_cm network;
                                   row ← py_index m i;
                                   v ← py_index row index;
                                   Ok (truthy v))
                         (range (Network.size network));
           outs ← filterM (fun i => m ← network_cm network;
                                    row ← py_index m index;
                                    v ← py_index row i;
                                    Ok (truthy v))
                          (range (Network.size network));
           Ok (ins, Some outs)
       | None => Ok (range (Network.size network), None)
       end;
  tpm_on ← tpm_column network index;
  let tpm_off := tcompl tpm_on in
  let '(tpm_on, tpm_off, labels, _) :=
    fold_left (marginalize_step (fst io)) (range (Network.size network))
              (tpm_on, tpm_off, [], 0%nat) in
  Ok (Node.mk network index label cm (fst io) (snd io) labels
              (tpm_off, tpm_on) (hash_node (network, index))).

(** [Node.__eq__], [Node.__hash__], [Node.__lt__] *)
Definition Node_eq (self other : Node.t) : bool :=
  (Node.index self =? Node.index other)
  && bool_decide (Node.network self = Node.network other).

Definition Node_hash (self : Node.t) : Z := Node._hash self.

Definition Node_lt (self other : Node.t) : bool :=
  Node.index self <? Node.index other.

(** Python [node in nodes]. *)
Definition Node_in (n : Node.t) (l : list Node.t) : bool :=
  existsb (Node_eq n) l.

(** Modelled from the spec: [network.nodes], the lazily built list of the
    network's elements, one per index, built without a matrix of their own. *)
Definition Network_nodes (network : Network.t) : result (list Node.t) :=
  mapM (fun i => Node_init network i None None) (range (Network.size network)).

(** The [inputs] property. *)
Definition Node_inputs (self : Node.t) : result (list Node.t) :=
  all ← Network_nodes (Node.network self);
  Ok (List.filter (fun n => Zmem (Node.index n) (Node._input_indices self)) all).

(** The [outputs] property.  The generator reads [self._output_indices]
    once for every node of the network. *)
Definition Node_outputs (self : Node.t) : result (list Node.t) :=
  all ← Network_nodes (Node.network self);
  match all, Node._output_indices self with
  | [], _ => Ok []
  | _, None => Raise AttributeError
  | _, Some outs => Ok (List.filter (fun n => Zmem (Node.index n) outs) all)
  end.

(** ** subsystem.py: construction, equality, hash *)

(** Modelled from the spec: [utils.apply_cut], a new adjacency matrix with
    the edges from severed to intact elements zeroed. *)
Definition apply_cut (cut : Cut.t) (cm : option Matrix) : option Matrix :=
  (fun m : Matrix =>
     imap (fun i row =>
             imap (fun j v =>
                     if Zmem (Z.of_nat i) (Cut.severed cut)
                        && Zmem (Z.of_nat j) (Cut.intact cut)
                     then 0 else v) row) m) <$> cm.

Fixpoint insert_sorted (x : Z) (l : list Z) : list Z :=
  match l with
  | [] => [x]
  | y :: l' =>
      if x <? y then x :: l
      else if x =? y then l
      else y :: insert_sorted x l'
  end.

(** [tuple(sorted(list(set(l))))] *)
Definition sorted_set (l : list Z) : list Z := fold_right insert_sorted [] l.

(** [Subsystem.__init__] *)
Definition Subsystem_init (node_indices current_state past_state : list Z)
    (network : Network.t) (cut : option Cut.t) : result Subsystem.t :=
  let node_indices := sorted_set node_indices in
  let null_cut := Cut.mk [] node_indices in
  built ← match cut with
          | None =>
              nodes ← mapM (fun i => all ← Network_nodes network; py_index all i)
                           node_indices;
              Ok (nodes, Network.connectivity_matrix network, null_cut)
          | Some c =>
              let cut := Cut.mk (Cut.severed c) (Cut.intact c) in
              let cm := apply_cut cut (Network.connectivity_matrix network) in
              nodes ← mapM (fun i => Node_init network i cm None) node_indices;
              Ok (nodes, cm, cut)
          end;
  let '(nodes, cm, cut) := built in
  Ok (Subsystem.mk node_indices null_cut nodes cm cut current_state past_state
        network
        (hash_subsystem (node_indices, current_state, past_state, network))).

(** [set(a) == set(b)] for sets of nodes. *)
Definition Node_set_eq (a b : list Node.t) : bool :=
  forallb (fun n => Node_in n b) a && forallb (fun n => Node_in n a) b.

(** [Subsystem.__eq__], [Subsystem.__hash__], [Subsystem.__bool__] *)
Definition Subsystem_eq (self other : Subsystem.t) : bool :=
  Node_set_eq (Subsystem.nodes self) (Subsystem.nodes other)
  && bool_decide (Subsystem.current_state self = Subsystem.current_state other)
  && bool_decide (Subsystem.past_state self = Subsystem.past_state other)
  && bool_decide (Subsystem.network self = Subsystem.network other).

Definition Subsystem_hash (self : Subsystem.t) : Z := Subsystem._hash self.

Definition Subsystem_bool (self : Subsystem.t) : bool :=
  match Subsystem.nodes self with [] => false | _ => true end.

(** [Subsystem.__ne__] and the comparisons, by number of nodes. *)
Definition Subsystem_ne (self other : Subsystem.t) : bool :=
  negb (Subsystem_eq self other).

Definition Subsystem_ge (self other : Subsystem.t) : bool :=
  (length (Subsystem.nodes other) <=? length (Subsystem.nodes self))%nat.

Definition Subsystem_le (self other : Subsystem.t) : bool :=
  (length (Subsystem.nodes self) <=? length (Subsystem.nodes other))%nat.

Definition Subsystem_gt (self other : Subsystem.t) : bool :=
  (length (Subsystem.nodes other) <? length (Subsystem.nodes self))%nat.

Definition Subsystem_lt (self other : Subsystem.t) : bool :=
  (length (Subsystem.nodes self) <? length (Subsystem.nodes other))%nat.

End Program.

(** ** subsystem.py: repertoires *)

Section Repertoires.
Context `{Collaborators}.

Fixpoint insert_node (x : Node.t) (l : list Node.t) : list Node.t :=
  match l with
  | [] => [x]
  | y :: l' =>
      if Node_lt x y then x :: l
      else if Node_eq x y then l
      else y :: insert_node x l'
  end.

(** Modelled from the spec: [validate.nodelist], which removes duplicates
    and sorts a list of elements (a list of [Node.t] always type-checks). *)
Definition validate_nodelist (nodes : list Node.t) : list Node.t :=
  fold_right insert_node [] nodes.

(** [[2 if node in purview else 1 for node in network.nodes]] *)
Definition purview_shape (network : Network.t) (purview : list Node.t)
    : result (list bool) :=
  all ← Network_nodes network;
  Ok (map (fun node => Node_in node purview) all).

Definition count_true (shape : list bool) : nat :=
  length (List.filter (fun b : bool => b) shape).

(** Modelled from the spec: [utils.max_entropy_distribution], the uniform
    distribution over the states of the purview. *)
Definition max_entropy_distribution (purview : list Node.t)
    (network : Network.t) : result Tensor :=
  shape ← purview_shape network purview;
  Ok (tdiv (tones shape) (inject_Z (2 ^ Z.of_nat (count_true shape)))).

(** Indexing one axis of an array with a Python int: the int is checked
    against the length of the axis. *)
Definition tselect_py (t : Tensor) (i : nat) (v : Z) : result Tensor :=
  j ← norm_index (if nth i (tshape t) false then 2 else 1) v;
  Ok (tselect t i (Nat.eqb j 1)).

(** [t.sum(i, keepdims=True) / t.shape[i]] *)
Definition tmean_axis (t : Tensor) (i : nat) : Tensor :=
  tdiv (tsum_axis t i) (axis_size (tshape t) i).

(** [a *= b]: the product must fit the shape of [a]. *)
Definition tmul_inplace (a b : Tensor) : result Tensor :=
  if bool_decide (or_shape (tshape a) (tshape b) = tshape a)
  then Ok (tmul a b)
  else Raise ValueError.

(** A loop [for x in l: acc = f(acc, x)] whose body may raise. *)
Fixpoint foldM {A B} (f : A -> B -> result A) (l : list B) (acc : A) : result A :=
  match l with
  | [] => Ok acc
  | x :: l' => acc' ← f acc x; foldM f l' acc'
  end.

Definition axis_of (node : Node.t) : nat := Z.to_nat (Node.index node).

(** The body of the loop over the mechanism in [cause_repertoire]. *)
Definition cause_step (self : Subsystem.t) (purview : list Node.t)
    (cjd : Tensor) (mechanism_node : Node.t) : result Tensor :=
  inputs ← Node_inputs mechanism_node;
  node_state ← py_index (Subsystem.current_state self) (Node.index mechanism_node);
  conditioned_tpm ← py_index [fst (Node.tpm mechanism_node);
                              snd (Node.tpm mechanism_node)] node_state;
  all ← Network_nodes (Subsystem.network self);
  let non_purview_inputs :=
    List.filter (fun n => Node_in n all && negb (Node_in n purview)) inputs in
  let boundary_inputs :=
    List.filter (fun n => negb (Node_in n (Subsystem.nodes self)))
                non_purview_inputs in
  let marginal_inputs :=
    List.filter (fun n => negb (Node_in n boundary_inputs)) non_purview_inputs in
  conditioned_tpm ←
    foldM (fun t node =>
             v ← py_index (Subsystem.past_state self) (Node.index node);
             tselect_py t (axis_of node) v)
          boundary_inputs conditioned_tpm;
  let conditioned_tpm :=
    fold_left (fun t node => tmean_axis t (axis_of node))
              marginal_inputs conditioned_tpm in
  tmul_inplace cjd conditioned_tpm.

(** The conditional joint distribution before normalisation. *)
Definition cause_cjd (self : Subsystem.t) (mechanism purview : list Node.t)
    : result Tensor :=
  shape ← purview_shape (Subsystem.network self) purview;
  foldM (cause_step self purview) mechanism (tones shape).

(** [Subsystem.cause_repertoire] *)
Definition cause_repertoire (self : Subsystem.t) (mechanism purview : list Node.t)
    : result Tensor :=
  let mechanism := validate_nodelist mechanism in
  let purview := validate_nodelist purview in
  match mechanism with
  | [] => max_entropy_distribution purview (Subsystem.network self)
  | _ =>
      match purview with
      | [] => Ok tscalar_one
      | _ =>
          cjd ← cause_cjd self mechanism purview;
          let cjd_sum := tsum cjd in
          if negb (Qeq_bool cjd_sum 0) then Ok (tdiv cjd cjd_sum) else Ok cjd
      end
  end.

Definition one_hot (n j : nat) : list bool :=
  <[j := true]> (replicate n false).

(** The node's stacked tensor with its own axis moved behind the network
    axes: [tpm.transpose(...).reshape(first_half_shape + second_half_shape)]. *)
Definition effect_factor (self : Subsystem.t) (purview_node : Node.t)
    : result Tensor :=
  let n := Network.size (Subsystem.network self) in
  let tpm_off := fst (Node.tpm purview_node) in
  let tpm_on := snd (Node.tpm purview_node) in
  let k := length (tshape tpm_on) in
  j ← norm_index n (Node.index purview_node);
  Ok (mkTensor (tshape tpm_on ++ one_hot n j)
               (fun s => if nth (k + j) s false
                         then tget tpm_on (take k s)
                         else tget tpm_off (take k s))).

(** The body of the loop over the purview in [effect_repertoire]. *)
Definition effect_step (self : Subsystem.t) (mechanism : list Node.t)
    (accumulated_cjd : Tensor) (purview_node : Node.t) : result Tensor :=
  inputs ← Node_inputs purview_node;
  tpm ← effect_factor self purview_node;
  let marginal_inputs :=
    List.filter (fun n => Node_in n (Subsystem.nodes self)
                          && negb (Node_in n mechanism)) inputs in
  let tpm := fold_left (fun t node => tmean_axis t (axis_of node))
                       marginal_inputs tpm in
  Ok (tmul accumulated_cjd tpm).

(** The union of [set(node.inputs)] over the nodes of the purview. *)
Fixpoint inputs_union (purview : list Node.t) : result (list Node.t) :=
  match purview with
  | [] => Ok []
  | node :: rest =>
      inputs ← Node_inputs node;
      others ← inputs_union rest;
      Ok (inputs ++ List.filter (fun n => negb (Node_in n inputs)) others)
  end.

(** The accumulated joint distribution over the network axes and the
    purview's future axes, before conditioning. *)
Definition effect_accumulate (self : Subsystem.t) (mechanism purview : list Node.t)
    : result Tensor :=
  shape ← purview_shape (Subsystem.network self) purview;
  foldM (effect_step self mechanism) purview
        (tones (replicate (Network.size (Subsystem.network self)) false ++ shape)).

(** [Subsystem.effect_repertoire] *)
Definition effect_repertoire (self : Subsystem.t) (mechanism purview : list Node.t)
    : result Tensor :=
  let mechanism := validate_nodelist mechanism in
  let purview := validate_nodelist purview in
  let n := Network.size (Subsystem.network self) in
  match purview with
  | [] => Ok tscalar_one
  | _ =>
      accumulated_cjd ← effect_accumulate self mechanism purview;
      inputs_to_purview ← inputs_union purview;
      all ← Network_nodes (Subsystem.network self);
      let external_nodes :=
        List.filter (fun n => negb (Node_in n (Subsystem.nodes self))) all in
      let boundary_inputs :=
        List.filter (fun n => Node_in n mechanism || Node_in n external_nodes)
                    inputs_to_purview in
      accumulated_cjd ←
        foldM (fun t node =>
                 v ← py_index (Subsystem.current_state self) (Node.index node);
                 tselect_py t (axis_of node) v)
              boundary_inputs accumulated_cjd;
      if existsb (fun b : bool => b) (take n (tshape accumulated_cjd))
      then Raise ValueError
      else Ok (mkTensor (drop n (tshape accumulated_cjd))
                        (fun s => tget accumulated_cjd (replicate n false ++ s)))
  end.

(** [Subsystem._get_repertoire] *)
Definition _get_repertoire (self : Subsystem.t) (direction : Direction)
    : list Node.t -> list Node.t -> result Tensor :=
  match direction with
  | Past => cause_repertoire self
  | Future => effect_repertoire self
  end.

Definition _unconstrained_repertoire (self : Subsystem.t) (direction : Direction)
    (purview : list Node.t) : result Tensor :=
  _get_repertoire self direction [] purview.

End Repertoires.

(** ** subsystem.py: the search for the minimum information partition *)

Section MipSearch.
Context `{Collaborators}.

Definition Qlt_bool (a b : Q) : bool := negb (Qle_bool b a).

(** [Subsystem._mip_bipartition] *)
Definition _mip_bipartition (mechanism purview : list Node.t)
    : list (Part.t * Part.t) :=
  let purview_bipartitions := bipartition purview in
  flat_map
    (fun denominators : list Node.t * list Node.t =>
       flat_map
         (fun numerators : list Node.t * list Node.t =>
            let valid_partition :=
              (0 <? length (fst numerators) + length (fst denominators))%nat
              && (0 <? length (snd numerators) + length (snd denominators))%nat in
            if valid_partition
            then [(Part.mk (fst numerators) (fst denominators),
                   Part.mk (snd numerators) (snd denominators))]
            else [])
         (bipartition mechanism))
    (purview_bipartitions
       ++ map (fun x => (snd x, fst x)) purview_bipartitions).

(** [Subsystem._null_mip] *)
Definition _null_mip (direction : Direction) (mechanism purview : list Node.t)
    : Mip.t :=
  Mip.mk direction mechanism purview None None None 0.

(** The repertoire of a bipartition and its distance to the unpartitioned
    repertoire: the first lines of the loop body of [find_mip]. *)
Definition partition_phi (self : Subsystem.t) (direction : Direction)
    (unpartitioned_repertoire : Tensor) (parts : Part.t * Part.t)
    : result (Tensor * Q) :=
  let repertoire := _get_repertoire self direction in
  part1rep ← repertoire (Part.mechanism (fst parts)) (Part.purview (fst parts));
  part2rep ← repertoire (Part.mechanism (snd parts)) (Part.purview (snd parts));
  let partitioned_repertoire := tmul part1rep part2rep in
  Ok (partitioned_repertoire,
      hamming_emd unpartitioned_repertoire partitioned_repertoire).

(** The loop of [find_mip].  [phi_min] is [None] while it is [float('inf')].
    The result [None] is Python's [None], returned for a reducible
    mechanism. *)
Fixpoint find_mip_loop (self : Subsystem.t) (direction : Direction)
    (mechanism purview : list Node.t) (unpartitioned_repertoire : Tensor)
    (candidates : list (Part.t * Part.t)) (phi_min : option Q) (mip : Mip.t)
    : result (option Mip.t) :=
  match candidates with
  | [] => Ok (Some mip)
  | parts :: rest =>
      evaluated ← partition_phi self direction unpartitioned_repertoire parts;
      let '(partitioned_repertoire, phi) := evaluated in
      if Qlt_bool phi EPSILON then Ok None
      else
        let better := match phi_min with
                      | None => true
                      | Some m => Qlt_bool EPSILON (m - phi)
                      end in
        if better
        then find_mip_loop self direction mechanism purview
               unpartitioned_repertoire rest (Some phi)
               (Mip.mk direction mechanism purview (Some parts)
                       (Some unpartitioned_repertoire)
                       (Some partitioned_repertoire) phi)
        else find_mip_loop self direction mechanism purview
               unpartitioned_repertoire rest phi_min mip
  end.

(** [Subsystem.find_mip] *)
Definition find_mip (self : Subsystem.t) (direction : Direction)
    (mechanism purview : list Node.t) : result (option Mip.t) :=
  let mip := _null_mip direction mechanism purview in
  unpartitioned_repertoire ← _get_repertoire self direction mechanism purview;
  find_mip_loop self direction mechanism purview unpartitioned_repertoire
                (_mip_bipartition mechanism purview) None mip.

(** [mip_past], [mip_future] *)
Definition mip_past (self : Subsystem.t) (mechanism purview : list Node.t)
    : result (option Mip.t) :=
  find_mip self Past mechanism purview.

Definition mip_future (self : Subsystem.t) (mechanism purview : list Node.t)
    : result (option Mip.t) :=
  find_mip self Future mechanism purview.

Section PhiOfMip.

(** The truth value of a Mip comes with its class, from the models. *)
Variable Mip_bool : Mip.t -> bool.

(** [if mip: return mip.phi else: return 0] *)
Definition phi_of_mip (mip : option Mip.t) : Q :=
  match mip with
  | Some mip => if Mip_bool mip then Mip.phi mip else 0
  | None => 0
  end.

(** [phi_mip_past], [phi_mip_future], [phi] *)
Definition phi_mip_past (self : Subsystem.t) (mechanism purview : list Node.t)
    : result Q :=
  phi_of_mip <$> mip_past self mechanism purview.

Definition phi_mip_future (self : Subsystem.t) (mechanism purview : list Node.t)
    : result Q :=
  phi_of_mip <$> mip_future self mechanism purview.

Definition phi (self : Subsystem.t) (mechanism purview : list Node.t)
    : result Q :=
  past ← phi_mip_past self mechanism purview;
  future ← phi_mip_future self mechanism purview;
  Ok (Qmin past future).

End PhiOfMip.

End MipSearch.

(** ** subsystem.py: connectivity tests *)

(** What the callers hand to [_test_connections]: a node object or a bare
    Python int. *)
Inductive entry : Type :=
| EInt (i : Z)
| ENode (n : Node.t).

Section Connectivity.
Context `{Collaborators}.

(** [e.index]: an int has no such attribute. *)
Definition entry_index (e : entry) : result Z :=
  match e with
  | ENode n => Ok (Node.index n)
  | EInt _ => Raise AttributeError
  end.

(** [m[np.ix_(rows, cols)]] *)
Definition submatrix (m : Matrix) (rows cols : list Z) : result Matrix :=
  mapM (fun r => row ← py_index m r; mapM (py_index row) cols) rows.

Definition Zsum (l : list Z) : Z := fold_right Z.add 0 l.

(** [cm.sum(axis)] of a two-dimensional array with [ncols] columns. *)
Definition matrix_sum (cm : Matrix) (ncols : nat) (axis : Z) : result (list Z) :=
  if (axis =? 1) || (axis =? -1) then Ok (map Zsum cm)
  else if (axis =? 0) || (axis =? -2)
  then Ok (map (fun j => Zsum (map (fun row => nth j row 0) cm)) (seq 0 ncols))
  else Raise ValueError.

(** [Subsystem._test_connections] *)
Definition _test_connections (self : Subsystem.t) (axis : Z)
    (nodes1 nodes2 : list entry) : result bool :=
  match Network.connectivity_matrix (Subsystem.network self), nodes1, nodes2 with
  | None, _, _ => Ok true
  | _, [], _ => Ok true
  | _, _, [] => Ok true
  | Some m, _, _ =>
      rows ← mapM entry_index nodes1;
      cols ← mapM entry_index nodes2;
      cm ← submatrix m rows cols;
      sums ← matrix_sum cm (length cols) axis;
      Ok (forallb truthy sums)
  end.

Definition _any_connect_to_all (self : Subsystem.t) (nodes1 nodes2 : list entry)
    : result bool :=
  _test_connections self 0 nodes1 nodes2.

Definition _all_connect_to_any (self : Subsystem.t) (nodes1 nodes2 : list entry)
    : result bool :=
  _test_connections self 1 nodes1 nodes2.

End Connectivity.

(** ** compute.py: the Mice cache *)

(** The module-level dict [_mice_cache]. *)
Abbreviation MiceCache := (gmap (Z * Direction * list Z) Mice.t).

(** Computations that read and write [_mice_cache] and may raise; the cache
    survives an exception. *)
Definition Cached (A : Type) : Type := MiceCache -> result A * MiceCache.

#[global] Instance Cached_ret : MRet Cached := fun A a cache => (Ok a, cache).
#[global] Instance Cached_bind : MBind Cached := fun A B f m cache =>
  match m cache with
  | (Ok a, cache') => f a cache'
  | (Raise e, cache') => (Raise e, cache')
  end.

Definition lift {A} (r : result A) : Cached A := fun cache => (r, cache).

Section Compute.
Context `{Collaborators}.

(** [_get_mice_key] *)
Definition _get_mice_key (subsystem : Subsystem.t) (direction : Direction)
    (mechanism_indices : list Z) : Z * Direction * list Z :=
  (Subsystem_hash subsystem, direction, mechanism_indices).

(** [_cache_mice] *)
Definition _cache_mice (subsystem : Subsystem.t) (direction : Direction)
    (mechanism_indices : list Z) (mice : Mice.t) (cache : MiceCache)
    : MiceCache :=
  let key := _get_mice_key subsystem direction mechanism_indices in
  match cache !! key with
  | Some _ => cache
  | None => <[key := mice]> cache
  end.

(** The test of [_get_cached_mice] on a cached entry: the cut does not
    affect it. *)
Definition cut_leaves_valid (subsystem : Subsystem.t) (direction : Direction)
    (mechanism_indices : list Z) (cached : Mice.t) : bool :=
  let cut := Subsystem.cut subsystem in
  match direction with
  | Past =>
      forallb (fun i => Zmem i (Cut.severed cut)) mechanism_indices
      || forallb (fun i => Zmem i (Cut.intact cut)) (Mice.purview cached)
  | Future =>
      forallb (fun i => Zmem i (Cut.intact cut)) mechanism_indices
      || forallb (fun i => Zmem i (Cut.severed cut)) (Mice.purview cached)
  end.

(** [_get_cached_mice]; Python's [False] is [None] here. *)
Definition _get_cached_mice (subsystem : Subsystem.t) (direction : Direction)
    (mechanism_indices : list Z) (cache : MiceCache) : option Mice.t :=
  let key := _get_mice_key subsystem direction mechanism_indices in
  match cache !! key with
  | Some cached =>
      if cut_leaves_valid subsystem direction mechanism_indices cached
      then Some cached
      else None
  | None => None
  end.

(** Modelled from the spec: [utils.nodes2indices], the tuple of integer
    indices of a tuple of nodes. *)
Definition nodes2indices (nodes : list Node.t) : list Z := map Node.index nodes.

(** [not_trivially_reducible], the purview filter local to [find_mice]. *)
Definition not_trivially_reducible (subsystem : Subsystem.t)
    (direction : Direction) (mechanism_indices : list Z)
    (purview : list Node.t) : result bool :=
  let purview_indices := nodes2indices purview in
  match direction with
  | Past => _all_connect_to_any subsystem (map EInt purview_indices)
                                (map EInt mechanism_indices)
  | Future => _all_connect_to_any subsystem (map EInt mechanism_indices)
                                  (map EInt purview_indices)
  end.

(** [find_mice] after a cache miss, up to and including the construction of
    the Mice.  The filter is lazy: a purview is tested just before its MIP
    is searched. *)
Definition find_mice_search (subsystem : Subsystem.t) (direction : Direction)
    (mechanism_indices : list Z) : result Mice.t :=
  let mechanism :=
    List.filter (fun n => Zmem (Node.index n) mechanism_indices)
                (Subsystem.nodes subsystem) in
  let mechanism := validate_nodelist mechanism in
  let purviews := powerset (Subsystem.nodes subsystem) in
  mips ← mapM (fun purview =>
                 keep ← not_trivially_reducible subsystem direction
                                                mechanism_indices purview;
                 if keep : bool
                 then mip ← find_mip subsystem direction mechanism purview;
                      Ok [mip]
                 else Ok [])
              purviews;
  best ← Mip_max (concat mips);
  match best with
  | None => Raise AttributeError
  | Some mip =>
      Ok (Mice.mk (Mip.direction mip) mechanism_indices
                  (nodes2indices (Mip.purview mip))
                  (Mip.unpartitioned_repertoire mip) mip (Mip.phi mip))
  end.

(** [find_mice] *)
Definition find_mice (subsystem : Subsystem.t) (direction : Direction)
    (mechanism_indices : list Z) : Cached Mice.t :=
  fun cache =>
    match _get_cached_mice subsystem direction mechanism_indices cache with
    | Some cached_mice => (Ok cached_mice, cache)
    | None =>
        match find_mice_search subsystem direction mechanism_indices with
        | Ok mice =>
            (Ok mice,
             _cache_mice subsystem direction mechanism_indices mice cache)
        | Raise e => (Raise e, cache)
        end
    end.

Definition core_cause (subsystem : Subsystem.t) (mechanism_indices : list Z)
    : Cached Mice.t :=
  find_mice subsystem Past mechanism_indices.

Definition core_effect (subsystem : Subsystem.t) (mechanism_indices : list Z)
    : Cached Mice.t :=
  find_mice subsystem Future mechanism_indices.

(** [phi_max] *)
Definition phi_max (subsystem : Subsystem.t) (mechanism_indices : list Z)
    : Cached Q :=
  cause ← core_cause subsystem mechanism_indices;
  effect ← core_effect subsystem mechanism_indices;
  mret (Qmin (Mice.phi cause) (Mice.phi effect)).

(** ** compute.py: concepts and constellations *)

(** [frozenset(self.nodes) - frozenset(purview)]: an int is never equal to a
    node. *)
Definition nodes_minus (nodes : list Node.t) (purview : list entry)
    : list Node.t :=
  List.filter
    (fun n => negb (existsb (fun e => match e with
                                      | ENode p => Node_eq n p
                                      | EInt _ => false
                                      end) purview))
    nodes.

(** [Subsystem._expand_repertoire]; multiplying [None] raises. *)
Definition _expand_repertoire (self : Subsystem.t) (direction : Direction)
    (purview : list entry) (repertoire : option Tensor) : result Tensor :=
  let non_purview_nodes := nodes_minus (Subsystem.nodes self) purview in
  unconstrained ← _unconstrained_repertoire self direction non_purview_nodes;
  match repertoire with
  | Some r => Ok (tmul r unconstrained)
  | None => Raise TypeError
  end.

(** The connectivity pre-screen that opens [_concept]; [and] evaluates its
    second operand only when the first is true. *)
Definition concept_prescreen (subsystem : Subsystem.t)
    (mechanism_indices : list Z) : result bool :=
  a ← _all_connect_to_any subsystem (map EInt mechanism_indices)
                          (map EInt (Subsystem.node_indices subsystem));
  if a : bool
  then _any_connect_to_all subsystem
         (map EInt (Subsystem.node_indices subsystem))
         (map EInt mechanism_indices)
  else Ok false.

(** [_concept]; the result [None] is Python's [None]. *)
Definition _concept (subsystem : Subsystem.t) (mechanism_indices : list Z)
    : Cached (option Concept.t) :=
  connected ← lift (concept_prescreen subsystem mechanism_indices);
  if negb connected then mret None
  else
    past_mice ← core_cause subsystem mechanism_indices;
    future_mice ← core_effect subsystem mechanism_indices;
    let phi := Qmin (Mice.phi past_mice) (Mice.phi future_mice) in
    if Qlt_bool phi EPSILON then mret None
    else
      cause_location ←
        lift (_expand_repertoire subsystem Past
                (map EInt (Mice.purview past_mice)) (Mice.repertoire past_mice));
      effect_location ←
        lift (_expand_repertoire subsystem Future
                (map EInt (Mice.purview future_mice))
                (Mice.repertoire future_mice));
      mret (Some (Concept.mk mechanism_indices (cause_location, effect_location)
                             phi (Some past_mice) (Some future_mice))).

(** [concept]: the wrapper only adds the hash of the mechanism, which the
    body never reads. *)
Definition concept (subsystem : Subsystem.t) (mechanism_indices : list Z)
    : Cached (option Concept.t) :=
  _concept subsystem mechanism_indices.

(** [constellation] *)
Definition constellation (subsystem : Subsystem.t) : Cached (list Concept.t) :=
  concepts ← mapM (concept subsystem)
                  (powerset (Subsystem.node_indices subsystem));
  mret (omap (fun c => c) concepts).

End Compute.

(** ** compute.py: distances between constellations *)

Section Distances.
Context `{Collaborators}.

(** Python's [sum], adding from the left, starting at 0. *)
Definition py_sum (l : list Q) : Q := fold_left Qplus l 0%Q.

(** Python's [c in constellation]. *)
Definition Concept_in (c : Concept.t) (constellation : list Concept.t) : bool :=
  existsb (Concept_eqb c) constellation.

(** [concept_distance] *)
Definition concept_distance (c1 c2 : Concept.t) : Q :=
  py_sum [hamming_emd (fst (Concept.location c1)) (fst (Concept.location c2));
          hamming_emd (snd (Concept.location c1)) (snd (Concept.location c2))].

(** [_constellation_distance_simple] *)
Definition _constellation_distance_simple (C1 C2 : list Concept.t)
    (null_concept : Concept.t) : Q :=
  let '(C1, C2) := if (length C1 <? length C2)%nat then (C2, C1) else (C1, C2) in
  let destroyed := List.filter (fun c => negb (Concept_in c C2)) C1 in
  py_sum (map (fun c => Concept.phi c * concept_distance c null_concept)%Q
              destroyed).

(** [d[-1] = x] on a nonempty list. *)
Definition set_last (d : list Q) (x : Q) : list Q :=
  <[pred (length d) := x]> d.

(** The concepts over which the masses are laid out. *)
Definition emd_universe (C1 C2 unique_C1 unique_C2 : list Concept.t)
    (null_concept : Concept.t) : list Concept.t :=
  let shared_concepts := List.filter (fun c => Concept_in c C2) C1 in
  shared_concepts ++ unique_C1 ++ unique_C2 ++ [null_concept].

(** [c.phi if c in constellation else 0] *)
Definition concept_mass (constellation : list Concept.t) (c : Concept.t) : Q :=
  if Concept_in c constellation then Concept.phi c else 0%Q.

(** The two phi distributions of [_constellation_distance_emd], after the
    residual has been assigned to the null concept. *)
Definition emd_masses (C1 C2 unique_C1 unique_C2 : list Concept.t)
    (null_concept : Concept.t) : list Q * list Q :=
  let all_concepts := emd_universe C1 C2 unique_C1 unique_C2 null_concept in
  let d1 := map (concept_mass C1) all_concepts in
  let d2 := map (concept_mass C2) all_concepts in
  let residual := (py_sum d1 - py_sum d2)%Q in
  let d2 := if Qlt_bool 0 residual then set_last d2 residual else d2 in
  let d1 := if Qlt_bool residual 0 then set_last d1 residual else d1 in
  (d1, d2).

(** [_constellation_distance_emd] *)
Definition _constellation_distance_emd (C1 C2 unique_C1 unique_C2 : list Concept.t)
    (null_concept : Concept.t) : Q :=
  let all_concepts := emd_universe C1 C2 unique_C1 unique_C2 null_concept in
  let '(d1, d2) := emd_masses C1 C2 unique_C1 unique_C2 null_concept in
  let distance_matrix :=
    map (fun j => map (fun i => concept_distance i j) all_concepts)
        all_concepts in
  emd d1 d2 distance_matrix.

(** [constellation_distance] *)
Definition constellation_distance (C1 C2 : list Concept.t)
    (null_concept : Concept.t) : Q :=
  let concepts_only_in_C1 := List.filter (fun c => negb (Concept_in c C2)) C1 in
  let concepts_only_in_C2 := List.filter (fun c => negb (Concept_in c C1)) C2 in
  match concepts_only_in_C1, concepts_only_in_C2 with
  | [], _ | _, [] => _constellation_distance_simple C1 C2 null_concept
  | _, _ => _constellation_distance_emd C1 C2 concepts_only_in_C1
                                        concepts_only_in_C2 null_concept
  end.

End Distances.

(** ** compute.py: the search over cuts *)

(** scipy's [connected_components] on a dense adjacency matrix.  With
    [strong = false] it counts the components of the graph with its edges
    taken in both directions, which is what scipy does for a directed graph
    unless it is called with [connection='strong']. *)
Section ConnectedComponents.

Variable cm : Matrix.
Variable strong : bool.

Definition edge (i j : nat) : bool :=
  truthy (nth j (nth i cm []) 0).

Definition linked (i j : nat) : bool :=
  if strong then edge i j else edge i j || edge j i.

Definition reach_step (n : nat) (seen : list nat) : list nat :=
  List.filter (fun j => existsb (Nat.eqb j) seen
                        || existsb (fun i => linked i j) seen) (seq 0 n).

(** The nodes reachable from [i]. *)
Definition reachable (n i : nat) : list nat :=
  Nat.iter n (reach_step n) [i].

Definition same_component (n i j : nat) : bool :=
  existsb (Nat.eqb j) (reachable n i) && existsb (Nat.eqb i) (reachable n j).

(** The number of components: the nodes that share a component with no
    earlier node. *)
Definition connected_components : nat :=
  let n := length cm in
  length (List.filter
            (fun i => negb (existsb (fun j => same_component n i j) (seq 0 i)))
            (seq 0 n)).

End ConnectedComponents.

Section BigMipSearch.
Context `{Collaborators}.

(** [Subsystem.null_concept] *)
Definition null_concept (self : Subsystem.t) : result Concept.t :=
  cause ← cause_repertoire self [] (Subsystem.nodes self);
  effect ← effect_repertoire self [] (Subsystem.nodes self);
  Ok (Concept.mk [] (cause, effect) 0 None None).

(** [compute._null_mip] *)
Definition _null_big_mip (subsystem : Subsystem.t) : BigMip.t :=
  BigMip.mk subsystem 0 (Subsystem.null_cut subsystem) (Some []) (Some []).

(** [_single_node_mip] *)
Definition _single_node_mip (subsystem : Subsystem.t) : BigMip.t :=
  if SINGLE_NODES_WITH_SELFLOOPS_HAVE_PHI
  then BigMip.mk subsystem (1 # 2)
         (Cut.mk (Subsystem.node_indices subsystem)
                 (Subsystem.node_indices subsystem))
         None None
  else _null_big_mip subsystem.

(** One direction of [_evaluate_cut]. *)
Definition evaluate_directed_cut (subsystem : Subsystem.t) (cut : Cut.t)
    (unpartitioned_constellation : list Concept.t) : Cached BigMip.t :=
  cut_subsystem ← lift (Subsystem_init (Subsystem.node_indices subsystem)
                          (Subsystem.current_state subsystem)
                          (Subsystem.past_state subsystem)
                          (Subsystem.network subsystem) (Some cut));
  cut_constellation ← constellation cut_subsystem;
  null ← lift (null_concept subsystem);
  mret (BigMip.mk subsystem
          (constellation_distance unpartitioned_constellation
                                  cut_constellation null)
          cut (Some unpartitioned_constellation) (Some cut_constellation)).

(** [_evaluate_cut] *)
Definition _evaluate_cut (subsystem : Subsystem.t)
    (partition : list Z * list Z)
    (unpartitioned_constellation : list Concept.t) : Cached BigMip.t :=
  forward_mip ← evaluate_directed_cut subsystem
                   (Cut.mk (fst partition) (snd partition))
                   unpartitioned_constellation;
  backward_mip ← evaluate_directed_cut subsystem
                    (Cut.mk (snd partition) (fst partition))
                    unpartitioned_constellation;
  lift (BigMip_min [forward_mip; backward_mip]).

(** The cut search that ends [_big_mip], with the cuts evaluated one after
    the other. *)
Definition cut_search (subsystem : Subsystem.t)
    (bipartitions : list (list Z * list Z)) : Cached BigMip.t :=
  unpartitioned_constellation ← constellation subsystem;
  mip_candidates ← mapM (fun partition =>
                           _evaluate_cut subsystem partition
                                         unpartitioned_constellation)
                        bipartitions;
  lift (BigMip_min mip_candidates).

(** The number of components that [_big_mip] computes for the subsystem. *)
Definition subsystem_components (subsystem : Subsystem.t) : result nat :=
  m ← network_cm (Subsystem.network subsystem);
  cm ← submatrix m (Subsystem.node_indices subsystem)
                 (Subsystem.node_indices subsystem);
  Ok (connected_components cm false).

(** [_big_mip] *)
Definition _big_mip (subsystem : Subsystem.t) : Cached BigMip.t :=
  if (length (Subsystem.node_indices subsystem) =? 1)%nat
  then mret (_single_node_mip subsystem)
  else
    match Subsystem.node_indices subsystem with
    | [] => mret (_null_big_mip subsystem)
    | _ =>
        disconnected ←
          lift (match Subsystem.connectivity_matrix subsystem with
                | Some _ =>
                    num_components ← subsystem_components subsystem;
                    Ok (1 <? num_components)%nat
                | None => Ok false
                end);
        if disconnected : bool then mret (_null_big_mip subsystem)
        else
          match tail (bipartition (Subsystem.node_indices subsystem)) with
          | [] => mret (_null_big_mip subsystem)
          | bipartitions => cut_search subsystem bipartitions
          end
    end.

(** [big_mip], [big_phi] *)
Definition big_mip (subsystem : Subsystem.t) : Cached BigMip.t :=
  _big_mip subsystem.

Definition big_phi (subsystem : Subsystem.t) : Cached Q :=
  mip ← big_mip subsystem; mret (BigMip.phi mip).

End BigMipSearch.

(** ** Histories of the Mice cache *)

Section CacheHistory.
Context `{Collaborators}.

(** A call [find_mice(subsystem, direction, mechanism_indices)]. *)
Record MiceCall : Type := mkMiceCall {
  call_subsystem : Subsystem.t;
  call_direction : Direction;
  call_mechanism : list Z
}.

Definition call_key (c : MiceCall) : Z * Direction * list Z :=
  _get_mice_key (call_subsystem c) (call_direction c) (call_mechanism c).

(** The cache after a sequence of calls, whether they return or raise. *)
Definition run_calls (calls : list MiceCall) (cache : MiceCache) : MiceCache :=
  fold_left (fun cache c =>
               snd (find_mice (call_subsystem c) (call_direction c)
                              (call_mechanism c) cache))
            calls cache.

(** The first call with the given key whose search returns. *)
Fixpoint storing_call (key : Z * Direction * list Z) (calls : list MiceCall)
    : option (MiceCall * Mice.t) :=
  match calls with
  | [] => None
  | c :: rest =>
      if bool_decide (call_key c = key)
      then match find_mice_search (call_subsystem c) (call_direction c)
                                  (call_mechanism c) with
           | Ok mice => Some (c, mice)
           | Raise _ => storing_call key rest
           end
      else storing_call key rest
  end.

(** The reuse condition in the words of the specification: in the cause
    direction every mechanism element is severed or every element of the
    cached purview is intact; in the effect direction every mechanism
    element is intact or every element of the cached purview is severed. *)
Definition reuse_allowed (subsystem : Subsystem.t) (direction : Direction)
    (mechanism_indices : list Z) (cached : Mice.t) : Prop :=
  let cut := Subsystem.cut subsystem in
  match direction with
  | Past =>
      (forall i, In i mechanism_indices -> In i (Cut.severed cut))
      \/ (forall i, In i (Mice.purview cached) -> In i (Cut.intact cut))
  | Future =>
      (forall i, In i mechanism_indices -> In i (Cut.intact cut))
      \/ (forall i, In i (Mice.purview cached) -> In i (Cut.severed cut))
  end.

(** The subsystem is under its null cut. *)
Definition uncut (subsystem : Subsystem.t) : Prop :=
  Subsystem.cut subsystem = Subsystem.null_cut subsystem.

End CacheHistory.

(** * Vocabulary of the properties

    The predicates in which the properties of the repertoires are stated. *)

Section Vocabulary.
Context `{Collaborators}.

(** Every entry is nonnegative. *)
Definition tnonneg (t : Tensor) : Prop := forall s, (0 <= tget t s)%Q.

(** An array whose axes all have size 1 and whose entry is 1. *)
Definition is_scalar_one (t : Tensor) : Prop :=
  (forall k, nth k (tshape t) false = false) /\ (forall s, tget t s == 1)%Q.

(** The stacked tensor is a conditional distribution of the node's state:
    both halves have the same shape over the network's axes, and at every
    index the off and on entries add up to 1.  Axes from [a] on are still of
    size 2. *)
Definition stacked_ok (n a : nat) (tpm_on tpm_off : Tensor) : Prop :=
  tshape tpm_off = tshape tpm_on
  /\ length (tshape tpm_on) = n
  /\ (forall k, (a <= k < n)%nat -> nth k (tshape tpm_on) false = true)
  /\ (forall s, tget tpm_off s + tget tpm_on s == 1)%Q.

Definition stacked_nonneg (tpm_on tpm_off : Tensor) : Prop :=
  forall s, (0 <= tget tpm_on s)%Q /\ (0 <= tget tpm_off s)%Q.

(** Every entry of the network's transition tensor is a probability. *)
Definition valid_tpm (network : Network.t) : Prop :=
  Forall (Forall (fun q => 0 <= q <= 1)%Q) (Network.tpm network).

(** A node of the subsystem's network: built by [Node.__init__] for that
    network at a position of its node list. *)
Definition node_of (S : Subsystem.t) (p : Node.t) : Prop :=
  0 <= Node.index p
  /\ exists cm label,
       Node_init (Subsystem.network S) (Node.index p) cm label = Ok p.

(** The number of inputs among the indices from [a] up to [a + i], and
    among the first [k] indices. *)
Definition inputs_between (input_indices : list Z) (a i : nat) : nat :=
  length (List.filter (fun j => Zmem (Z.of_nat j) input_indices) (seq a i)).

Definition inputs_below (input_indices : list Z) (k : nat) : nat :=
  inputs_between input_indices 0 k.

(** [m[i][j]] is read and is not zero. *)
Definition connects (m : Matrix) (i j : Z) : Prop :=
  exists row v, py_index m i = Ok row /\ py_index row j = Ok v /\ v <> 0.

(** [network.connectivity_matrix[i][j]] is read and is not zero. *)
Definition network_connects (network : Network.t) (i j : Z) : Prop :=
  exists m, Network.connectivity_matrix network = Some m /\ connects m i j.

(** The entry [m[i][j]], or 0 where it cannot be read. *)
Definition entry_at (m : Matrix) (i j : Z) : Z :=
  match py_index m i with
  | Ok row => match py_index row j with Ok v => v | Raise _ => 0 end
  | Raise _ => 0
  end.

(** The Mip records the bipartition [c] of the search: its distance to the
    unpartitioned repertoire [u], not below the tolerance, and the two
    repertoires. *)
Definition records_partition (S : Subsystem.t) (direction : Direction)
    (mechanism purview : list Node.t) (u : Tensor) (mip : Mip.t)
    (c : Part.t * Part.t) : Prop :=
  exists t,
    partition_phi S direction u c = Ok (t, Mip.phi mip)
    /\ ~ (Mip.phi mip < EPSILON)%Q
    /\ mip = Mip.mk direction mechanism purview (Some c) (Some u) (Some t)
                    (Mip.phi mip).

(** A computation that leaves every entry of the cache in place. *)
Definition keeps_entries {A} (m : Cached A) : Prop :=
  forall cache : MiceCache, cache ⊆ snd (m cache).

(** [sum(d1) - sum(d2)], the phi that disappeared. *)
Definition emd_residual (C1 C2 unique_C1 unique_C2 : list Concept.t)
    (null_concept : Concept.t) : Q :=
  let all_concepts := emd_universe C1 C2 unique_C1 unique_C2 null_concept in
  (py_sum (map (concept_mass C1) all_concepts)
   - py_sum (map (concept_mass C2) all_concepts))%Q.

(** A state with one entry, 0 or 1, for each of [n] nodes. *)
Definition valid_state (n : nat) (state : list Z) : Prop :=
  length state = n /\ Forall (fun v => v = 0 \/ v = 1) state.

(** The network axis [k] is an input of the purview node [p] that the loop
    of [effect_repertoire] does not average out. *)
Definition kept_input (S : Subsystem.t) (all mechanism : list Node.t)
    (p : Node.t) (k : nat) : Prop :=
  Zmem (Z.of_nat k) (Node._input_indices p) = true
  /\ exists x, all !! k = Some x
               /\ Node_in x (Subsystem.nodes S) && negb (Node_in x mechanism)
                  = false.

Section FutureAxes.
Variable n : nat.

(** The sum over the future axes listed in [D], around a given index. *)
Fixpoint sum_over (D : list nat) (G : State -> Q) (s : State) : Q :=
  match D with
  | [] => G s
  | j :: D' =>
      sum_over D' (fun s' => G (set_axis (n + j) false s')
                             + G (set_axis (n + j) true s'))%Q s
  end.

(** A tensor over the network axes and the future axes that is a
    conditional distribution of the future state of node [j]. *)
Definition factor_ok (j : nat) (F : Tensor) : Prop :=
  length (tshape F) = (2 * n)%nat
  /\ drop n (tshape F) = one_hot n j
  /\ (forall s, length s = (2 * n)%nat ->
                (tget F (set_axis (n + j) false s)
                 + tget F (set_axis (n + j) true s) == 1)%Q).

(** The accumulated product after the purview nodes on the axes [D]: it does
    not depend on the other future axes and sums to 1 over the axes in
    [D], at every state of the network axes. *)
Definition acc_ok (pshape : list bool) (D : list nat) (acc : Tensor) : Prop :=
  length (tshape acc) = (2 * n)%nat
  /\ drop n (tshape acc) = pshape
  /\ (forall j b s, ~ In j D ->
                    (tget acc (set_axis (n + j) b s) == tget acc s)%Q)
  /\ (forall s, length s = (2 * n)%nat -> (sum_over D (tget acc) s == 1)%Q).

(** A tensor that sums to 1 over the future axes at every state of the
    network axes. *)
Definition cond_ok (pshape : list bool) (T : Tensor) : Prop :=
  length (tshape T) = (2 * n)%nat
  /\ drop n (tshape T) = pshape
  /\ (forall x, length x = n ->
                (Qsum (map (fun y => tget T (x ++ y)) (states pshape)) == 1)%Q).

End FutureAxes.

End Vocabulary.

(** * Sample collaborators and networks

    A concrete instance of the interface and small networks, on which the
    properties below are exercised. *)

Module Sample.

(** [itertools.combinations] and the powerset recipe built on it. *)
Fixpoint combinations {A} (k : nat) (l : list A) : list (list A) :=
  match k, l with
  | O, _ => [[]]
  | S _, [] => []
  | S k', x :: l' => map (cons x) (combinations k' l') ++ combinations k l'
  end.

Definition powerset_recipe {A} (l : list A) : list (list A) :=
  flat_map (fun k => combinations k l) (seq 0 (S (length l))).

(** Every split of a sequence in two parts, each unordered pair once; the
    first is the split into nothing and everything. *)
Fixpoint bipartition_halves {A} (l : list A) : list (list A * list A) :=
  match l with
  | [] => [([], [])]
  | x :: l' =>
      match l' with
      | [] => [([], [x])]
      | _ => flat_map (fun ab => [(fst ab, x :: snd ab); (x :: fst ab, snd ab)])
                      (bipartition_halves l')
      end
  end.

(** Half the summed absolute difference: the earth mover's distance with
    Hamming ground cost when at most one axis has two entries. *)
Definition variation_distance (p q : Tensor) : Q :=
  (Qsum (map (fun s => Qabs (tget p s - tget q s))
             (states (or_shape (tshape p) (tshape q)))) / 2)%Q.

Definition Concept_eqb_fields (c1 c2 : Concept.t) : bool :=
  bool_decide (Concept.mechanism c1 = Concept.mechanism c2)
  && Qeq_bool (Concept.phi c1) (Concept.phi c2).

(** The first Mip of greatest phi; a reducible purview, for which the search
    returned [None], ranks below every Mip. *)
Fixpoint Mip_max_from (best : option Mip.t) (l : list (option Mip.t))
    : option Mip.t :=
  match l with
  | [] => best
  | None :: l' => Mip_max_from best l'
  | Some m :: l' =>
      match best with
      | None => Mip_max_from (Some m) l'
      | Some b =>
          Mip_max_from (if Qlt_bool (Mip.phi b) (Mip.phi m) then Some m else best) l'
      end
  end.

Definition Mip_max_first (l : list (option Mip.t)) : result (option Mip.t) :=
  match l with
  | [] => Raise ValueError
  | _ => Ok (Mip_max_from None l)
  end.

(** The first BigMip of least phi. *)
Definition BigMip_min_first (l : list BigMip.t) : result BigMip.t :=
  match l with
  | [] => Raise ValueError
  | m :: l' =>
      Ok (fold_left (fun best x =>
                       if Qlt_bool (BigMip.phi x) (BigMip.phi best)
                       then x else best) l' m)
  end.

(** The sample collaborators around a given solver for the generalized earth
    mover's distance. *)
Definition collaborators_with (solver : list Q -> list Q -> list (list Q) -> Q)
    : Collaborators := {|
  hash_node := fun k => snd k;
  hash_subsystem := fun k => Zsum (fst (fst (fst k)));
  EPSILON := 1 # 1000000;
  SINGLE_NODES_WITH_SELFLOOPS_HAVE_PHI := false;
  bipartition := @bipartition_halves;
  powerset := @powerset_recipe;
  hamming_emd := variation_distance;
  emd := solver;
  Concept_eqb := Concept_eqb_fields;
  Mip_max := Mip_max_first;
  BigMip_min := BigMip_min_first
|}.

#[local] Instance collaborators : Collaborators :=
  collaborators_with (fun _ _ _ => 0%Q).

(** Three concepts told apart by their mechanisms: two of phi 3 and 1 and a
    null concept of phi 0. *)
Definition concept_a : Concept.t :=
  Concept.mk [0] (tscalar_one, tscalar_one) 3 None None.

Definition concept_b : Concept.t :=
  Concept.mk [1] (tscalar_one, tscalar_one) 1 None None.

Definition concept_null : Concept.t :=
  Concept.mk [] (tscalar_one, tscalar_one) 0 None None.





(** Two nodes that copy each other: [0 -> 1] and [1 -> 0]. *)
Definition swap_network : Network.t :=
  Network.mk 2 [[0; 0]; [1; 0]; [0; 1]; [1; 1]]%Q (Some [[0; 1]; [1; 0]]).

(** Two nodes with the single connection [0 -> 1]; node 0 stays off. *)
Definition chain_network : Network.t :=
  Network.mk 2 [[0; 0]; [0; 0]; [0; 1]; [0; 1]]%Q (Some [[0; 1]; [0; 0]]).

(** Two nodes that copy each other, in a network without a connectivity
    matrix. *)
Definition unwired_network : Network.t :=
  Network.mk 2 [[0; 0]; [1; 0]; [0; 1]; [1; 1]]%Q None.

(** The cut that severs the connections from node 0 to node 1. *)
Definition cut_0_to_1 : Cut.t := Cut.mk [0] [1].

(** Nodes 0 and 1 feed node 2, which turns on with a probability graded by
    its inputs: 0, 1/2, 1/2 + 1/1000000 and 1 for the input states 00, 01,
    10 and 11. *)
Definition graded_network : Network.t :=
  Network.mk 3
    [[0; 0; 0]; [0; 0; 0]; [0; 0; 1 # 2]; [0; 0; 1 # 2];
     [0; 0; 500001 # 1000000]; [0; 0; 500001 # 1000000];
     [0; 0; 1]; [0; 0; 1]]%Q
    (Some [[0; 0; 1]; [0; 0; 1]; [0; 0; 0]]).

(** The value of a construction that is known to return. *)
Definition built (r : result Subsystem.t) : Subsystem.t :=
  match r with
  | Ok s => s
  | Raise _ =>
      Subsystem.mk [] (Cut.mk [] []) [] None (Cut.mk [] []) [] []
                   (Network.mk 0 [] None) 0
  end.

(** The value of a repertoire that is known to be computed. *)
Definition computed (r : result Tensor) : Tensor :=
  match r with
  | Ok t => t
  | Raise _ => tscalar_one
  end.

(** The subsystem [(0, 1)] of the swap network in state [(0, 0)], whole and
    cut from 0 to 1. *)
Definition swap_subsystem : Subsystem.t :=
  built (Subsystem_init [0; 1] [0; 0] [0; 0] swap_network None).

Definition swap_cut_subsystem : Subsystem.t :=
  built (Subsystem_init [0; 1] [0; 0] [0; 0] swap_network (Some cut_0_to_1)).

(** The subsystem of the swap network built from the index [-1], whole and
    cut from 0 to 1. *)
Definition swap_last_subsystem : Subsystem.t :=
  built (Subsystem_init [-1] [0; 0] [0; 0] swap_network None).

Definition swap_last_cut_subsystem : Subsystem.t :=
  built (Subsystem_init [-1] [0; 0] [0; 0] swap_network (Some cut_0_to_1)).

(** The subsystem [(0,)] of the swap network. *)
Definition swap_node_subsystem : Subsystem.t :=
  built (Subsystem_init [0] [0; 0] [0; 0] swap_network None).

(** The subsystem [(0, 1)] of the chain network. *)
Definition chain_subsystem : Subsystem.t :=
  built (Subsystem_init [0; 1] [0; 0] [0; 0] chain_network None).

(** The subsystem [(0, 1)] of the chain network with node 0 on, a state
    that no past state leads to. *)
Definition chain_on_subsystem : Subsystem.t :=
  built (Subsystem_init [0; 1] [1; 0] [0; 0] chain_network None).

(** The whole unwired network. *)
Definition unwired_subsystem : Subsystem.t :=
  built (Subsystem_init [0; 1] [0; 0] [0; 0] unwired_network None).

(** The whole unwired network, cut from 0 to 1. *)
Definition unwired_cut_subsystem : Subsystem.t :=
  built (Subsystem_init [0; 1] [0; 0] [0; 0] unwired_network (Some cut_0_to_1)).

(** The whole graded network with nodes 0 and 1 on. *)
Definition graded_subsystem : Subsystem.t :=
  built (Subsystem_init [0; 1; 2] [1; 1; 0] [0; 0; 0] graded_network None).

End Sample.

(** * Verified properties *)

(** ** The error monad *)

Lemma bind_Ok {A B} (m : result A) (f : A -> result B) (b : B) :
  m ≫= f = Ok b <-> exists a, m = Ok a /\ f a = Ok b.
Proof.
  destruct m as [a|e]; simpl; split.
  - intros Hf. exists a. split; [reflexivity | exact Hf].
  - intros (a' & Ha & Hf). injection Ha as ->. exact Hf.
  - discriminate.
  - intros (a' & Ha & _). discriminate.
Qed.

Lemma mapM_Ok_Forall2 {A B} (f : A -> result B) (l : list A) (r : list B) :
  mapM f l = Ok r <-> Forall2 (fun x y => f x = Ok y) l r.
Proof.
  revert r. induction l as [|x l IH]; intros r; simpl.
  - split.
    + intros Hr. injection Hr as <-. constructor.
    + intros Hr. inversion Hr. reflexivity.
  - split.
    + intros Hr. apply bind_Ok in Hr as (y & Hy & Hr).
      apply bind_Ok in Hr as (k & Hk & Hr). injection Hr as <-.
      constructor; [exact Hy | apply IH, Hk].
    + intros Hr. inversion Hr as [|x' y l' k Hy Hk]; subst.
      apply IH in Hk. rewrite Hy. simpl. rewrite Hk. reflexivity.
Qed.

Lemma returns_Ok {A} (m : result A) : returns m = true -> exists a, m = Ok a.
Proof. destruct m as [a|e]; [eauto|discriminate]. Qed.

Lemma computed_Ok (r : result Tensor) :
  returns r = true -> r = Ok (Sample.computed r).
Proof. destruct r; [reflexivity|discriminate]. Qed.

Lemma built_Ok (r : result Subsystem.t) :
  returns r = true -> r = Ok (Sample.built r).
Proof. destruct r; [reflexivity|discriminate]. Qed.

Lemma returns_some_Ok {A} (r : result (option A)) :
  returns_some r = true -> exists a, r = Ok (Some a).
Proof. destruct r as [[a|]|]; try discriminate. eauto. Qed.

Lemma returns_with_Ok {A} (P : A -> bool) (m : result A) :
  returns_with P m = true -> exists a, m = Ok a /\ P a = true.
Proof. destruct m as [a|e]; [eauto|discriminate]. Qed.

Lemma returns_some_pair {A B} (r : result (option A) * B) :
  returns_some (fst r) = true -> exists a b, r = (Ok (Some a), b).
Proof. destruct r as [[[a|]|] b]; try discriminate. eauto. Qed.

(** ** Nodes and subsystems *)

Section NodeFacts.
Context `{Collaborators}.

Lemma Node_init_fields network index cm label node :
  Node_init network index cm label = Ok node ->
  Node.network node = network /\ Node.index node = index
  /\ Node._hash node = hash_node (network, index).
Proof.
  unfold Node_init. intros Hn.
  apply bind_Ok in Hn as (io & _ & Hn).
  apply bind_Ok in Hn as (tpm_on & _ & Hn).
  destruct (fold_left _ _ _) as [[[on off] labels] current].
  injection Hn as <-. simpl. auto.
Qed.

(** The matrix handed to the constructor only ends up in the field
    [connectivity_matrix]: inputs, outputs and tensors are the same for any
    two matrices. *)
Lemma Node_init_matrix_only_stored network index m1 m2 label :
  Node_init network index (Some m2) label
  = (fun n => Node.mk (Node.network n) (Node.index n) (Node.label n) (Some m2)
                      (Node._input_indices n) (Node._output_indices n)
                      (Node._dimension_labels n) (Node.tpm n) (Node._hash n))
      <$> Node_init network index (Some m1) label.
Proof.
  unfold Node_init.
  repeat first
    [ reflexivity
    | match goal with
      | |- context [mbind _ (filterM ?f ?l)] => destruct (filterM f l); simpl
      | |- context [mbind _ (tpm_column ?n ?i)] => destruct (tpm_column n i); simpl
      | |- context [fold_left ?f ?l ?a] =>
          destruct (fold_left f l a) as [[[? ?] ?] ?]
      end ].
Qed.

Lemma Node_eq_of_fields n1 n2 :
  Node.index n1 = Node.index n2 -> Node.network n1 = Node.network n2 ->
  Node_eq n1 n2 = true.
Proof.
  intros Hi Hn. unfold Node_eq. rewrite Hi, Hn, Z.eqb_refl.
  rewrite bool_decide_eq_true_2; reflexivity.
Qed.

Lemma py_index_in_range {A} (l : list A) (i : Z) (x : A) :
  0 <= i -> py_index l i = Ok x -> l !! Z.to_nat i = Some x.
Proof.
  intros Hi. unfold py_index.
  destruct (i <? 0) eqn:Hneg; [apply Z.ltb_lt in Hneg; lia|].
  destruct (_ && _); [|discriminate].
  destruct (l !! Z.to_nat i); [|discriminate].
  intros Hx. injection Hx as <-. reflexivity.
Qed.

Lemma Network_nodes_fields network all k node :
  Network_nodes network = Ok all -> all !! k = Some node ->
  Node.network node = network /\ Node.index node = Z.of_nat k.
Proof.
  unfold Network_nodes. intros Hall Hk.
  apply mapM_Ok_Forall2 in Hall.
  destruct (Forall2_lookup_r _ _ _ _ _ Hall Hk) as (i & Hi & Hnode).
  apply Node_init_fields in Hnode as (Hnet & Hidx & _).
  split; [exact Hnet|]. rewrite Hidx.
  unfold range in Hi. rewrite list_lookup_fmap in Hi.
  destruct (seq 0 (Network.size network) !! k) as [k'|] eqn:Hseq; [|discriminate].
  apply lookup_seq in Hseq as [-> _]. simpl in Hi. injection Hi as <-.
  reflexivity.
Qed.

Lemma insert_sorted_Forall (P : Z -> Prop) x l :
  P x -> Forall P l -> Forall P (insert_sorted x l).
Proof.
  intros Hx. induction 1 as [|y l Hy Hl IH]; simpl.
  - repeat constructor. exact Hx.
  - destruct (x <? y); [repeat constructor; assumption|].
    destruct (x =? y); constructor; assumption.
Qed.

Lemma sorted_set_Forall (P : Z -> Prop) l :
  Forall P l -> Forall P (sorted_set l).
Proof.
  induction 1 as [|x l Hx Hl IH]; simpl; [constructor|].
  apply insert_sorted_Forall; assumption.
Qed.

(** The nodes of a subsystem are the nodes of its network at its indices,
    with or without a cut. *)
Lemma Subsystem_init_nodes node_indices cs ps network cut S :
  Forall (fun i => 0 <= i) node_indices ->
  Subsystem_init node_indices cs ps network cut = Ok S ->
  Subsystem.current_state S = cs /\ Subsystem.past_state S = ps
  /\ Subsystem.network S = network
  /\ Subsystem._hash S
     = hash_subsystem (sorted_set node_indices, cs, ps, network)
  /\ Forall2 (fun i n => Node.network n = network /\ Node.index n = i)
             (sorted_set node_indices) (Subsystem.nodes S).
Proof.
  intros Hpos HS. unfold Subsystem_init in HS.
  apply bind_Ok in HS as ([[nodes cm] c] & Hbuilt & HS).
  injection HS as <-. simpl. repeat split.
  apply (sorted_set_Forall _ _) in Hpos.
  destruct cut as [c0|].
  - apply bind_Ok in Hbuilt as (ns & Hns & Hbuilt). injection Hbuilt as <- _ _.
    apply mapM_Ok_Forall2 in Hns.
    eapply Forall2_impl; [exact Hns|]. intros i n Hn.
    apply Node_init_fields in Hn as (? & ? & _). auto.
  - apply bind_Ok in Hbuilt as (ns & Hns & Hbuilt). injection Hbuilt as <- _ _.
    apply mapM_Ok_Forall2 in Hns.
    revert Hpos. induction Hns as [|i n l ns Hn _ IH]; intros Hpos.
    + constructor.
    + inversion Hpos as [|? ? Hi Hl]; subst. constructor; [|apply IH, Hl].
      apply bind_Ok in Hn as (all & Hall & Hn).
      apply py_index_in_range in Hn; [|exact Hi].
      destruct (Network_nodes_fields _ _ _ _ Hall Hn) as [Hnet Hidx].
      split; [exact Hnet|]. rewrite Hidx. lia.
Qed.

Lemma Node_in_related (P : Z -> Node.t -> Prop) indices a b n :
  (forall i x y, P i x -> P i y -> Node_eq x y = true) ->
  Forall2 P indices a -> Forall2 P indices b ->
  In n a -> Node_in n b = true.
Proof.
  intros Heq Ha. revert b. induction Ha as [|i x l a' Hx _ IH]; intros b Hb Hin.
  - destruct Hin.
  - inversion Hb as [|? y ? b' Hy Hb']; subst. simpl.
    destruct Hin as [<-|Hin].
    + rewrite (Heq _ _ _ Hx Hy). reflexivity.
    + rewrite (IH _ Hb' Hin). apply orb_true_r.
Qed.

End NodeFacts.

(** C1 (evaluated at the failing input).  The claim is that the elements
    rebuilt for a cut get their input sets, and with them the axes averaged
    out of their tensors, from the cut-applied adjacency matrix.  On the
    network [0 <-> 1] cut from 0 to 1, the subsystem stores the cut matrix
    [[0,0],[1,0]], in which node 1 has no input, but the node rebuilt for
    index 1 still has the input [0] and a tensor whose axis 0 has not been
    averaged out: [Node.__init__] reads the network's matrix. *)
Theorem C1_rebuilt_nodes_read_network_matrix `{Collaborators} :
  (fun S => (Subsystem.connectivity_matrix S,
             map Node.connectivity_matrix (Subsystem.nodes S),
             map Node._input_indices (Subsystem.nodes S),
             map (fun n => tshape (snd (Node.tpm n))) (Subsystem.nodes S)))
    <$> Subsystem_init [0; 1] [0; 0] [0; 0] Sample.swap_network
                       (Some Sample.cut_0_to_1)
  = Ok (Some [[0; 0]; [1; 0]],
        [Some [[0; 0]; [1; 0]]; Some [[0; 0]; [1; 0]]],
        [[1]; [0]],
        [[false; true]; [true; false]]).
Proof. vm_compute. reflexivity. Qed.

(** C10, as amended.  Two subsystems built over the same node indices,
    none of them negative, the same states and the same network under
    different cuts (or none) have the same hash and compare equal; two nodes
    built for the same network and index are equal and have the same hash
    whatever matrix and label they were built with. *)
Theorem C10_identity_excludes_cut `{Collaborators}
    (network : Network.t) (node_indices cs ps : list Z)
    (cut1 cut2 : option Cut.t) (S1 S2 : Subsystem.t) :
  Forall (fun i => 0 <= i) node_indices ->
  Subsystem_init node_indices cs ps network cut1 = Ok S1 ->
  Subsystem_init node_indices cs ps network cut2 = Ok S2 ->
  Subsystem_hash S1 = Subsystem_hash S2
  /\ Subsystem_eq S1 S2 = true
  /\ (forall index cm1 cm2 label1 label2 n1 n2,
        Node_init network index cm1 label1 = Ok n1 ->
        Node_init network index cm2 label2 = Ok n2 ->
        Node_eq n1 n2 = true /\ Node_hash n1 = Node_hash n2).
Proof.
  intros Hpos H1 H2.
  apply Subsystem_init_nodes in H1 as (Hc1 & Hp1 & Hn1 & Hh1 & Hnodes1);
    [|exact Hpos].
  apply Subsystem_init_nodes in H2 as (Hc2 & Hp2 & Hn2 & Hh2 & Hnodes2);
    [|exact Hpos].
  split; [|split].
  - unfold Subsystem_hash. rewrite Hh1, Hh2. reflexivity.
  - unfold Subsystem_eq, Node_set_eq.
    rewrite Hc1, Hc2, Hp1, Hp2, Hn1, Hn2.
    rewrite !bool_decide_eq_true_2 by reflexivity.
    rewrite !andb_true_r. apply andb_true_iff.
    assert (Heq : forall (i : Z) x y,
               Node.network x = network /\ Node.index x = i ->
               Node.network y = network /\ Node.index y = i ->
               Node_eq x y = true).
    { intros i x y [Hx1 Hx2] [Hy1 Hy2]. apply Node_eq_of_fields; congruence. }
    split; apply forallb_forall; intros n Hn.
    + exact (Node_in_related _ _ _ _ _ Heq Hnodes1 Hnodes2 Hn).
    + exact (Node_in_related _ _ _ _ _ Heq Hnodes2 Hnodes1 Hn).
  - intros index cm1 cm2 l1 l2 n1 n2 Hi1 Hi2.
    apply Node_init_fields in Hi1 as (Ha1 & Hb1 & Hd1).
    apply Node_init_fields in Hi2 as (Ha2 & Hb2 & Hd2).
    split; [apply Node_eq_of_fields; congruence|].
    unfold Node_hash. congruence.
Qed.

Section OnSwapNetwork.
#[local] Existing Instance Sample.collaborators.

Lemma C10_identity_excludes_cut_witness :
  Subsystem.cut Sample.swap_subsystem <> Subsystem.cut Sample.swap_cut_subsystem
  /\ Subsystem_hash Sample.swap_subsystem
     = Subsystem_hash Sample.swap_cut_subsystem
  /\ Subsystem_eq Sample.swap_subsystem Sample.swap_cut_subsystem = true.
Proof.
  split; [vm_compute; discriminate|].
  assert (Hrange : Forall (fun i => 0 <= i) [0; 1]).
  { repeat constructor; lia. }
  assert (E1 : Subsystem_init [0; 1] [0; 0] [0; 0] Sample.swap_network None
               = Ok Sample.swap_subsystem).
  { apply built_Ok. vm_compute. reflexivity. }
  assert (E2 : Subsystem_init [0; 1] [0; 0] [0; 0] Sample.swap_network
                              (Some Sample.cut_0_to_1)
               = Ok Sample.swap_cut_subsystem).
  { apply built_Ok. vm_compute. reflexivity. }
  destruct (C10_identity_excludes_cut Sample.swap_network [0; 1] [0; 0] [0; 0]
              None (Some Sample.cut_0_to_1) _ _ Hrange E1 E2) as (Hh & He & _).
  split; assumption.
Defined.

(** C10 as stated fails for a negative index, which the constructor
    accepts.  Without a cut the subsystem built from [-1] takes
    [network.nodes[-1]], the node of index 1; under a cut it builds
    [Node(network, -1, cm)], a node of index -1.  The two subsystems have
    the same hash and do not compare equal. *)
Lemma C10_negative_index_breaks_equality :
  let S1 := Sample.swap_last_subsystem in
  let S2 := Sample.swap_last_cut_subsystem in
  Subsystem_init [-1] [0; 0] [0; 0] Sample.swap_network None = Ok S1
  /\ Subsystem_init [-1] [0; 0] [0; 0] Sample.swap_network
                    (Some Sample.cut_0_to_1) = Ok S2
  /\ map Node.index (Subsystem.nodes S1) = [1]
  /\ map Node.index (Subsystem.nodes S2) = [-1]
  /\ Subsystem_hash S1 = Subsystem_hash S2
  /\ Subsystem_eq S1 S2 = false.
Proof.
  intros S1 S2.
  split; [apply built_Ok; vm_compute; reflexivity|].
  split; [apply built_Ok; vm_compute; reflexivity|].
  repeat split; vm_compute; reflexivity.
Qed.

End OnSwapNetwork.

(** ** The connectivity pre-screens *)

Section PrescreenFacts.
Context `{Collaborators}.

Lemma mapM_entry_index_ints (i : Z) (l : list Z) :
  mapM entry_index (map EInt (i :: l)) = Raise AttributeError.
Proof. reflexivity. Qed.

Lemma _test_connections_ints S m axis (l1 l2 : list Z) :
  Network.connectivity_matrix (Subsystem.network S) = Some m ->
  l1 <> [] -> l2 <> [] ->
  _test_connections S axis (map EInt l1) (map EInt l2) = Raise AttributeError.
Proof.
  intros Hm H1 H2. unfold _test_connections. rewrite Hm.
  destruct l1 as [|a l1]; [congruence|].
  destruct l2 as [|b l2]; [congruence|].
  reflexivity.
Qed.

Lemma _test_connections_trivial S axis (nodes1 nodes2 : list entry) :
  Network.connectivity_matrix (Subsystem.network S) = None
  \/ nodes1 = [] \/ nodes2 = [] ->
  _test_connections S axis nodes1 nodes2 = Ok true.
Proof.
  unfold _test_connections. intros [Hm|[->| ->]].
  - rewrite Hm. reflexivity.
  - destruct (Network.connectivity_matrix _); reflexivity.
  - destruct (Network.connectivity_matrix _), nodes1; reflexivity.
Qed.

Lemma concept_prescreen_ints S m (mechanism_indices : list Z) :
  Network.connectivity_matrix (Subsystem.network S) = Some m ->
  mechanism_indices <> [] -> Subsystem.node_indices S <> [] ->
  concept_prescreen S mechanism_indices = Raise AttributeError.
Proof.
  intros Hm Hmech Hnodes. unfold concept_prescreen, _all_connect_to_any.
  rewrite (_test_connections_ints S m) by assumption. reflexivity.
Qed.

Lemma concept_ints (S : Subsystem.t) (m : Matrix) (mechanism_indices : list Z) (cache : MiceCache) :
  Network.connectivity_matrix (Subsystem.network S) = Some m ->
  mechanism_indices <> [] -> Subsystem.node_indices S <> [] ->
  concept S mechanism_indices cache = (Raise AttributeError, cache).
Proof.
  intros Hm Hmech Hnodes. unfold concept, _concept.
  unfold mbind, Cached_bind, lift.
  rewrite (concept_prescreen_ints S m) by assumption. reflexivity.
Qed.

(** A loop over a list raises as soon as one of its rounds cannot return. *)
Lemma mapM_Cached_raises {A B} (f : A -> Cached B) (l : list A) (x : A) :
  In x l -> (forall cache, raises (fst (f x cache))) ->
  forall cache, raises (fst (mapM f l cache)).
Proof.
  intros Hin Hx. induction l as [|y l IH]; [destruct Hin|].
  intros cache. simpl. unfold mbind at 1, Cached_bind.
  destruct (f y cache) as [[b|e] cache'] eqn:Hy.
  - destruct Hin as [->|Hin].
    + destruct (Hx cache) as [e He]. rewrite Hy in He. discriminate.
    + unfold mbind at 1, Cached_bind.
      destruct (IH Hin cache') as [e He].
      destruct (mapM f l cache') as [[k|e'] cache'']; simpl in He;
        [discriminate|]. exists e'. reflexivity.
  - exists e. reflexivity.
Qed.

Lemma mapM_result_raises {A B} (f : A -> result B) (l : list A) (x : A) :
  In x l -> raises (f x) -> raises (mapM f l).
Proof.
  intros Hin Hx. induction l as [|y l IH]; [destruct Hin|].
  simpl. destruct (f y) as [b|e] eqn:Hy.
  - destruct Hin as [->|Hin].
    + destruct Hx as [e He]. rewrite Hy in He. discriminate.
    + destruct (IH Hin) as [e He]. simpl. rewrite He. exists e. reflexivity.
  - exists e. reflexivity.
Qed.

(** An exception that leaves a loop was raised by one of its rounds. *)
Lemma mapM_Cached_raise_origin {A B} (f : A -> Cached B) (l : list A)
    (cache cache' : MiceCache) (e : exn) :
  mapM f l cache = (Raise e, cache') ->
  exists x c, In x l /\ fst (f x c) = Raise e.
Proof.
  revert cache. induction l as [|y l IH]; intros cache; simpl.
  - discriminate.
  - unfold mbind at 1, Cached_bind.
    destruct (f y cache) as [[b|e0] cache1] eqn:Hy.
    + unfold mbind at 1, Cached_bind.
      destruct (mapM f l cache1) as [[k|e1] cache2] eqn:Hrest.
      * discriminate.
      * intros Hr. injection Hr as -> ->.
        destruct (IH cache1 Hrest) as (x & c & Hx & Hfx).
        exists x, c. split; [right; exact Hx|exact Hfx].
    + intros Hr. injection Hr as -> _.
      exists y, cache. split; [left; reflexivity|]. rewrite Hy. reflexivity.
Qed.

(** The exception that leaves [constellation] is [AttributeError], unless
    the concept of the empty mechanism, which passes the pre-screen, raised
    another one in an earlier round. *)
Lemma constellation_raise_origin (S : Subsystem.t) (m : Matrix)
    (cache : MiceCache) (e : exn) :
  Network.connectivity_matrix (Subsystem.network S) = Some m ->
  Subsystem.node_indices S <> [] ->
  fst (constellation S cache) = Raise e ->
  e = AttributeError \/ exists cache0, fst (concept S [] cache0) = Raise e.
Proof.
  intros Hm Hnodes. unfold constellation. unfold mbind at 1, Cached_bind.
  destruct (mapM (M := Cached) (concept S)
                 (powerset (Subsystem.node_indices S)) cache)
    as [[k|e'] cache'] eqn:Hloop; [discriminate|].
  simpl. intros He. injection He as ->.
  destruct (mapM_Cached_raise_origin _ _ _ _ _ Hloop) as (mech & c & _ & Hc).
  destruct mech as [|i mech]; [right; exists c; exact Hc|].
  left. rewrite (concept_ints S m) in Hc by (assumption || discriminate).
  simpl in Hc. congruence.
Qed.

Lemma constellation_raises (S : Subsystem.t) (m : Matrix) (cache : MiceCache) :
  Network.connectivity_matrix (Subsystem.network S) = Some m ->
  Subsystem.node_indices S <> [] ->
  (exists mechanism_indices,
      In mechanism_indices (powerset (Subsystem.node_indices S))
      /\ mechanism_indices <> []) ->
  raises (fst (constellation S cache)).
Proof.
  intros Hm Hnodes (mech & Hin & Hmech). unfold constellation.
  unfold mbind at 1, Cached_bind.
  assert (Hr : raises (fst (mapM (M := Cached) (concept S)
                                 (powerset (Subsystem.node_indices S)) cache))).
  { apply (mapM_Cached_raises (concept S) _ mech Hin). intros c.
    exists AttributeError.
    rewrite (concept_ints S m) by assumption. reflexivity. }
  destruct Hr as [e He].
  destruct (mapM (M := Cached) (concept S) _ cache) as [[k|e'] cache'];
    simpl in He; [discriminate|].
  exists e'. reflexivity.
Qed.

Lemma cut_search_raises (S : Subsystem.t) (m : Matrix) (bipartitions : list (list Z * list Z)) (cache : MiceCache) :
  Network.connectivity_matrix (Subsystem.network S) = Some m ->
  Subsystem.node_indices S <> [] ->
  (exists mechanism_indices,
      In mechanism_indices (powerset (Subsystem.node_indices S))
      /\ mechanism_indices <> []) ->
  raises (fst (cut_search S bipartitions cache)).
Proof.
  intros Hm Hnodes Hsub. unfold cut_search. unfold mbind at 1, Cached_bind.
  destruct (constellation_raises S m cache Hm Hnodes Hsub) as [e He].
  destruct (constellation S cache) as [[k|e'] cache']; simpl in He;
    [discriminate|]. exists e'. reflexivity.
Qed.

Lemma not_trivially_reducible_ints S m direction mechanism_indices purview :
  Network.connectivity_matrix (Subsystem.network S) = Some m ->
  mechanism_indices <> [] -> purview <> [] ->
  not_trivially_reducible S direction mechanism_indices purview
  = Raise AttributeError.
Proof.
  intros Hm Hmech Hpurview. unfold not_trivially_reducible, _all_connect_to_any.
  assert (Hidx : nodes2indices purview <> []).
  { destruct purview; [congruence|discriminate]. }
  destruct direction; apply (_test_connections_ints S m); assumption.
Qed.

Lemma find_mice_raises (S : Subsystem.t) (m : Matrix) (direction : Direction) (mechanism_indices : list Z) (cache : MiceCache) :
  Network.connectivity_matrix (Subsystem.network S) = Some m ->
  mechanism_indices <> [] ->
  (exists purview, In purview (powerset (Subsystem.nodes S)) /\ purview <> []) ->
  _get_cached_mice S direction mechanism_indices cache = None ->
  raises (fst (find_mice S direction mechanism_indices cache)).
Proof.
  intros Hm Hmech (purview & Hin & Hpurview) Hmiss.
  unfold find_mice. rewrite Hmiss. unfold find_mice_search.
  match goal with
  | |- context [mapM ?f ?l] =>
      destruct (mapM_result_raises f l purview Hin) as [e He]
  end.
  - exists AttributeError.
    rewrite (not_trivially_reducible_ints S m) by assumption. reflexivity.
  - rewrite He. simpl. exists e. reflexivity.
Qed.

End PrescreenFacts.

Section PrescreenClaims.
Context `{Collaborators}.

Lemma _big_mip_returns_terminal (S : Subsystem.t) (m : Matrix)
    (cache cache' : MiceCache) (r : BigMip.t) :
  Network.connectivity_matrix (Subsystem.network S) = Some m ->
  (exists mechanism_indices,
      In mechanism_indices (powerset (Subsystem.node_indices S))
      /\ mechanism_indices <> []) ->
  _big_mip S cache = (Ok r, cache') ->
  r = _single_node_mip S \/ r = _null_big_mip S.
Proof.
  intros Hm Hsub. unfold _big_mip.
  destruct (length (Subsystem.node_indices S) =? 1)%nat.
  { intros Hr. injection Hr as <- _. left. reflexivity. }
  destruct (Subsystem.node_indices S) as [|i rest] eqn:Hnodes.
  { intros Hr. injection Hr as <- _. right. reflexivity. }
  unfold mbind at 1, Cached_bind, lift.
  destruct (match Subsystem.connectivity_matrix S with
            | Some _ => _
            | None => _
            end) as [b|e]; [|discriminate].
  destruct b.
  { intros Hr. injection Hr as <- _. right. reflexivity. }
  destruct (tail (bipartition (i :: rest))) as [|p ps].
  { intros Hr. injection Hr as <- _. right. reflexivity. }
  intros Hr. exfalso.
  destruct (cut_search_raises S m (p :: ps) cache Hm) as [e He].
  - rewrite Hnodes. discriminate.
  - rewrite Hnodes. exact Hsub.
  - rewrite Hr in He. discriminate.
Qed.

(** C2, as amended.  With an adjacency matrix, the pre-screens hand tuples
    of ints to [_test_connections], which reads [.index] from each entry:
    the test itself, [concept] for a nonempty mechanism of a nonempty
    subsystem and the purview filter of [find_mice] for a nonempty purview
    all raise [AttributeError].  [constellation] then raises too, with
    [AttributeError] unless the concept of the empty mechanism raised
    another exception in an earlier round; the search over cuts that ends
    [big_mip] raises with it, and [big_mip] returns only in its terminal
    cases, which come before any concept is computed.  Without a matrix,
    or with an empty list on either side, [_test_connections] is true, so
    nothing is filtered. *)
Theorem C2_index_tuples_make_prescreens_raise (S : Subsystem.t) :
  (forall m : Matrix,
      Network.connectivity_matrix (Subsystem.network S) = Some m ->
      (forall axis (l1 l2 : list Z), l1 <> [] -> l2 <> [] ->
          _test_connections S axis (map EInt l1) (map EInt l2)
          = Raise AttributeError)
      /\ (forall (mechanism_indices : list Z) (cache : MiceCache),
             mechanism_indices <> [] -> Subsystem.node_indices S <> [] ->
             concept S mechanism_indices cache = (Raise AttributeError, cache))
      /\ (forall cache : MiceCache,
             (exists mechanism_indices,
                 In mechanism_indices (powerset (Subsystem.node_indices S))
                 /\ mechanism_indices <> []) ->
             (Subsystem.node_indices S <> [] ->
              raises (fst (constellation S cache))
              /\ (forall e, fst (constellation S cache) = Raise e ->
                    e = AttributeError
                    \/ exists cache0, fst (concept S [] cache0) = Raise e)
              /\ (forall bipartitions,
                    raises (fst (cut_search S bipartitions cache))))
             /\ (forall r cache', _big_mip S cache = (Ok r, cache') ->
                   r = _single_node_mip S \/ r = _null_big_mip S))
      /\ (forall direction (mechanism_indices : list Z) (purview : list Node.t),
             mechanism_indices <> [] -> purview <> [] ->
             not_trivially_reducible S direction mechanism_indices purview
             = Raise AttributeError)
      /\ (forall direction (mechanism_indices : list Z) (cache : MiceCache),
             mechanism_indices <> [] ->
             (exists purview,
                 In purview (powerset (Subsystem.nodes S)) /\ purview <> []) ->
             _get_cached_mice S direction mechanism_indices cache = None ->
             raises (fst (find_mice S direction mechanism_indices cache))))
  /\ (forall axis (nodes1 nodes2 : list entry),
         Network.connectivity_matrix (Subsystem.network S) = None
         \/ nodes1 = [] \/ nodes2 = [] ->
         _test_connections S axis nodes1 nodes2 = Ok true)
  /\ (Network.connectivity_matrix (Subsystem.network S) = None ->
      (forall direction mechanism_indices purview,
          not_trivially_reducible S direction mechanism_indices purview = Ok true)
      /\ (forall mechanism_indices,
             concept_prescreen S mechanism_indices = Ok true)).
Proof.
  split; [|split].
  - intros m Hm. repeat split.
    + intros axis l1 l2. apply (_test_connections_ints S m). exact Hm.
    + intros mech cache. apply (concept_ints S m). exact Hm.
    + apply (constellation_raises S m); assumption.
    + intros e. apply (constellation_raise_origin S m); assumption.
    + intros bipartitions. apply (cut_search_raises S m); assumption.
    + intros r cache'. apply (_big_mip_returns_terminal S m); assumption.
    + intros direction mech purview.
      apply (not_trivially_reducible_ints S m). exact Hm.
    + intros direction mech cache. apply (find_mice_raises S m). exact Hm.
  - intros axis nodes1 nodes2. apply _test_connections_trivial.
  - intros Hm. split.
    + intros direction mech purview. unfold not_trivially_reducible.
      destruct direction; apply _test_connections_trivial; auto.
    + intros mech. unfold concept_prescreen, _all_connect_to_any.
      rewrite _test_connections_trivial by auto.
      apply _test_connections_trivial. auto.
Qed.

(** C7 (evaluated at the failing input).  In the network with the single
    connection [0 -> 1], node 0 has no input from within the subsystem
    [(0, 1)], so the claim is that the concept of mechanism [(0,)] is
    discarded, that is [None] is returned, from connectivity alone.  The
    pre-screen raises [AttributeError] instead, before it has looked at the
    matrix, in which column 0 is zero. *)
Theorem C7_prescreen_raises_instead_of_discarding (cache : MiceCache) :
  (S ← Subsystem_init [0; 1] [0; 0] [0; 0] Sample.chain_network None;
   Ok (Subsystem.node_indices S,
       (fun m => map (fun row => nth 0 row 0) m)
         <$> Network.connectivity_matrix (Subsystem.network S),
       fst (concept S [0] cache)))
  = Ok ([0; 1], Some [0; 0], Raise AttributeError).
Proof. vm_compute. reflexivity. Qed.

End PrescreenClaims.

Section OnSampleNetworks.
#[local] Existing Instance Sample.collaborators.

Lemma C2_index_tuples_make_prescreens_raise_witness :
  concept Sample.swap_subsystem [0] ∅ = (Raise AttributeError, ∅)
  /\ not_trivially_reducible Sample.swap_subsystem Past [0]
                             (Subsystem.nodes Sample.swap_subsystem)
     = Raise AttributeError
  /\ raises (fst (constellation Sample.swap_subsystem ∅)).
Proof.
  assert (Hm : Network.connectivity_matrix
                 (Subsystem.network Sample.swap_subsystem)
               = Some [[0; 1]; [1; 0]]).
  { vm_compute. reflexivity. }
  assert (Hnodes : Subsystem.node_indices Sample.swap_subsystem = [0; 1]).
  { vm_compute. reflexivity. }
  assert (Hpurview : length (Subsystem.nodes Sample.swap_subsystem) = 2%nat).
  { vm_compute. reflexivity. }
  destruct (C2_index_tuples_make_prescreens_raise Sample.swap_subsystem)
    as [Hraise _].
  destruct (Hraise _ Hm) as (_ & Hconcept & Hconst & Hfilter & _).
  split; [|split].
  - apply Hconcept; [discriminate|rewrite Hnodes; discriminate].
  - apply Hfilter; [discriminate|].
    intros Hnil. rewrite Hnil in Hpurview. discriminate.
  - apply Hconst.
    + exists [0]. rewrite Hnodes. split; [|discriminate].
      vm_compute. auto.
    + rewrite Hnodes. discriminate.
Defined.

(** C2 as stated fails for [big_mip]: on the subsystem [(0,)] of the swap
    network, which has an adjacency matrix, the concept of the nonempty
    mechanism [(0,)] does raise [AttributeError], but [big_mip] returns a
    value, the result of its single-node case, without computing any
    concept. *)
Lemma C2_big_mip_returns_for_one_node :
  let S := Sample.swap_node_subsystem in
  Network.connectivity_matrix (Subsystem.network S) = Some [[0; 1]; [1; 0]]
  /\ Subsystem.node_indices S = [0]
  /\ In [0] (powerset (Subsystem.node_indices S))
  /\ concept S [0] ∅ = (Raise AttributeError, ∅)
  /\ big_mip S ∅ = (Ok (_single_node_mip S), ∅)
  /\ returns (fst (big_mip S ∅)) = true.
Proof.
  intros S.
  assert (Hm : Network.connectivity_matrix (Subsystem.network S)
               = Some [[0; 1]; [1; 0]]) by (vm_compute; reflexivity).
  assert (Hnodes : Subsystem.node_indices S = [0]) by (vm_compute; reflexivity).
  assert (Hbig : big_mip S ∅ = (Ok (_single_node_mip S), ∅)).
  { unfold big_mip, _big_mip. rewrite Hnodes. reflexivity. }
  split; [exact Hm|]. split; [exact Hnodes|].
  split; [rewrite Hnodes; vm_compute; auto|].
  split.
  - apply (concept_ints S [[0; 1]; [1; 0]]); [exact Hm|discriminate|].
    rewrite Hnodes. discriminate.
  - split; [exact Hbig|]. rewrite Hbig. reflexivity.
Qed.

End OnSampleNetworks.

(** ** The Mice cache *)

Section CacheFacts.
Context `{Collaborators}.

Lemma Zmem_In (x : Z) (l : list Z) : Zmem x l = true <-> In x l.
Proof.
  unfold Zmem. rewrite existsb_exists. split.
  - intros (y & Hy & Hxy). apply Z.eqb_eq in Hxy. subst. exact Hy.
  - intros Hx. exists x. split; [exact Hx | apply Z.eqb_refl].
Qed.

Lemma forallb_Zmem (l k : list Z) :
  forallb (fun i => Zmem i k) l = true <-> (forall i, In i l -> In i k).
Proof.
  rewrite forallb_forall. split; intros Hl i Hi; apply Zmem_In, Hl, Hi.
Qed.

Lemma cut_leaves_valid_spec S direction mechanism_indices cached :
  cut_leaves_valid S direction mechanism_indices cached = true
  <-> reuse_allowed S direction mechanism_indices cached.
Proof.
  unfold cut_leaves_valid, reuse_allowed.
  destruct direction; rewrite orb_true_iff, !forallb_Zmem; reflexivity.
Qed.

Lemma find_mice_cache_lookup (S : Subsystem.t) (direction : Direction)
    (mechanism_indices : list Z) (cache : MiceCache)
    (key : Z * Direction * list Z) :
  snd (find_mice S direction mechanism_indices cache) !! key
  = match cache !! key with
    | Some v => Some v
    | None =>
        if bool_decide (_get_mice_key S direction mechanism_indices = key)
        then match find_mice_search S direction mechanism_indices with
             | Ok mice => Some mice
             | Raise _ => None
             end
        else None
    end.
Proof.
  unfold find_mice, _get_cached_mice, _cache_mice.
  set (k := _get_mice_key S direction mechanism_indices).
  assert (Hsame : forall c : MiceCache,
             c !! k <> None -> c !! key = match c !! key with
                                          | Some v => Some v
                                          | None => if bool_decide (k = key)
                                                    then match find_mice_search S direction mechanism_indices with
                                                         | Ok mice => Some mice
                                                         | Raise _ => None
                                                         end
                                                    else None
                                          end).
  { intros c Hc. destruct (c !! key) eqn:Hkey; [reflexivity|].
    rewrite bool_decide_eq_false_2; [reflexivity|].
    intros ->. congruence. }
  destruct (cache !! k) as [cached|] eqn:Hk.
  - assert (Hne : cache !! k <> None) by congruence.
    destruct (cut_leaves_valid _ _ _ _); simpl; [apply Hsame, Hne|].
    destruct (find_mice_search _ _ _); simpl; apply Hsame, Hne.
  - destruct (find_mice_search _ _ _) as [mice|e]; simpl.
    + destruct (decide (k = key)) as [<-|Hne].
      * rewrite lookup_insert_eq, Hk, bool_decide_eq_true_2; reflexivity.
      * rewrite lookup_insert_ne by exact Hne.
        rewrite bool_decide_eq_false_2 by exact Hne.
        destruct (cache !! key); reflexivity.
    + destruct (cache !! key) eqn:Hkey; [reflexivity|].
      destruct (bool_decide (k = key)); reflexivity.
Qed.

Lemma run_calls_lookup (calls : list MiceCall) (cache : MiceCache)
    (key : Z * Direction * list Z) :
  run_calls calls cache !! key
  = match cache !! key with
    | Some v => Some v
    | None => snd <$> storing_call key calls
    end.
Proof.
  revert cache. induction calls as [|c calls IH]; intros cache.
  - simpl. destruct (cache !! key); reflexivity.
  - change (run_calls (c :: calls) cache)
      with (run_calls calls
              (snd (find_mice (call_subsystem c) (call_direction c)
                              (call_mechanism c) cache))).
    rewrite IH, find_mice_cache_lookup. fold (call_key c).
    simpl storing_call.
    destruct (cache !! key); [reflexivity|].
    destruct (bool_decide (call_key c = key)); [|reflexivity].
    destruct (find_mice_search _ _ _); reflexivity.
Qed.

(** C3, as amended.  The cache stores once: a call never changes an entry
    that exists, and after any sequence of calls from the empty cache the
    entry of a key is the result of the first call with that key whose
    search returned, under whatever cut that call's subsystem carries.  On
    an existing entry, [find_mice] returns the cached Mice, without touching
    the cache, exactly when the reuse condition holds for the calling
    subsystem's cut; otherwise it returns what a fresh search gives and
    leaves the entry as it is. *)
Theorem C3_store_once_and_reuse :
  (forall (S : Subsystem.t) direction mechanism_indices (cache : MiceCache)
          key v,
      cache !! key = Some v ->
      snd (find_mice S direction mechanism_indices cache) !! key = Some v)
  /\ (forall (calls : list MiceCall) key,
         run_calls calls ∅ !! key = snd <$> storing_call key calls)
  /\ (forall (S S' : Subsystem.t) direction mechanism_indices,
         Subsystem_hash S = Subsystem_hash S' ->
         _get_mice_key S direction mechanism_indices
         = _get_mice_key S' direction mechanism_indices)
  /\ (forall (S : Subsystem.t) direction mechanism_indices (cache : MiceCache)
             cached,
         cache !! _get_mice_key S direction mechanism_indices = Some cached ->
         (_get_cached_mice S direction mechanism_indices cache = Some cached
          <-> reuse_allowed S direction mechanism_indices cached)
         /\ (reuse_allowed S direction mechanism_indices cached ->
             find_mice S direction mechanism_indices cache = (Ok cached, cache))
         /\ (~ reuse_allowed S direction mechanism_indices cached ->
             find_mice S direction mechanism_indices cache
             = (find_mice_search S direction mechanism_indices, cache))).
Proof.
  split; [|split; [|split]].
  - intros S direction mech cache key v Hv.
    rewrite find_mice_cache_lookup, Hv. reflexivity.
  - intros calls key. rewrite run_calls_lookup, lookup_empty. reflexivity.
  - intros S S' direction mech Hh. unfold _get_mice_key. rewrite Hh. reflexivity.
  - intros S direction mech cache cached Hc.
    pose proof (cut_leaves_valid_spec S direction mech cached) as Hspec.
    unfold find_mice, _get_cached_mice, _cache_mice. rewrite Hc.
    destruct (cut_leaves_valid S direction mech cached).
    + split; [|split].
      * split; [intros _; apply Hspec; reflexivity | reflexivity].
      * reflexivity.
      * intros Hn. exfalso. apply Hn, Hspec. reflexivity.
    + split; [|split].
      * split; [discriminate|]. intros Hr. apply Hspec in Hr. discriminate.
      * intros Hr. apply Hspec in Hr. discriminate.
      * intros _. destruct (find_mice_search S direction mech); reflexivity.
Qed.

End CacheFacts.

Section CacheOnUnwiredNetwork.
#[local] Existing Instance Sample.collaborators.

(** What the searches on the unwired network find for the mechanism
    [(0,)]: a Mice over the purview [(1,)]. *)
Lemma find_mice_search_unwired (S : Subsystem.t) (direction : Direction) :
  returns_with (fun mice => bool_decide (Mice.purview mice = [1]))
               (find_mice_search S direction [0]) = true ->
  exists mice,
    find_mice_search S direction [0] = Ok mice /\ Mice.purview mice = [1].
Proof.
  intros Hr. apply returns_with_Ok in Hr as (mice & Hmice & Hp).
  exists mice. split; [exact Hmice|]. apply bool_decide_eq_true in Hp. exact Hp.
Qed.

(** C3 as stated fails: the first computation for a key need not be an
    uncut one.  Called first on the unwired subsystem cut from 0 to 1,
    [find_mice] for the effect of the mechanism [(0,)] stores the Mice, of
    purview [(1,)], that it computed under that cut, and a later call on
    the uncut subsystem, under whose null cut the mechanism is intact, is
    served that entry. *)
Lemma C3_first_computation_under_a_cut :
  let cut_call := mkMiceCall Sample.unwired_cut_subsystem Future [0] in
  ~ uncut (call_subsystem cut_call)
  /\ call_key cut_call = _get_mice_key Sample.unwired_subsystem Future [0]
  /\ exists mice,
       Mice.purview mice = [1]
       /\ storing_call (call_key cut_call) [cut_call] = Some (cut_call, mice)
       /\ run_calls [cut_call] ∅ !! call_key cut_call = Some mice
       /\ reuse_allowed Sample.unwired_subsystem Future [0] mice
       /\ find_mice Sample.unwired_subsystem Future [0] (run_calls [cut_call] ∅)
          = (Ok mice, run_calls [cut_call] ∅).
Proof.
  intros cut_call. split; [|split].
  - vm_compute. discriminate.
  - vm_compute. reflexivity.
  - destruct (find_mice_search_unwired Sample.unwired_cut_subsystem Future)
      as (mice & Hsearch & Hpurview); [vm_compute; reflexivity|].
    exists mice.
    assert (Hstore : storing_call (call_key cut_call) [cut_call]
                     = Some (cut_call, mice)).
    { unfold storing_call, cut_call.
      cbn [call_subsystem call_direction call_mechanism].
      rewrite bool_decide_eq_true_2 by reflexivity.
      rewrite Hsearch. reflexivity. }
    assert (Hrun : run_calls [cut_call] ∅ !! call_key cut_call = Some mice).
    { rewrite run_calls_lookup, lookup_empty, Hstore. reflexivity. }
    assert (Hcut : Subsystem.cut Sample.unwired_subsystem = Cut.mk [] [0; 1])
      by (vm_compute; reflexivity).
    assert (Hreuse : reuse_allowed Sample.unwired_subsystem Future [0] mice).
    { unfold reuse_allowed. rewrite Hcut. left.
      intros i [<-|[]]. left. reflexivity. }
    split; [exact Hpurview|]. split; [exact Hstore|]. split; [exact Hrun|].
    split; [exact Hreuse|].
    unfold find_mice, _get_cached_mice.
    change (_get_mice_key Sample.unwired_subsystem Future [0])
      with (call_key cut_call).
    rewrite Hrun.
    rewrite (proj2 (cut_leaves_valid_spec _ _ _ _) Hreuse). reflexivity.
Defined.

(** On the unwired network, after the uncut subsystem has computed the
    cause and the effect of the mechanism [(0,)], both over the purview
    [(1,)], the subsystem cut from 0 to 1 is served the cached cause, its
    mechanism being severed, and searches afresh for the effect, its
    mechanism not being intact and the cached purview not severed; the
    cache is the same after both calls. *)
Lemma C3_store_once_and_reuse_witness :
  let whole := Sample.unwired_subsystem in
  let halved := Sample.unwired_cut_subsystem in
  let cache := run_calls [mkMiceCall whole Past [0];
                          mkMiceCall whole Future [0]] ∅ in
  exists cause effect,
    cache !! _get_mice_key halved Past [0] = Some cause
    /\ cache !! _get_mice_key halved Future [0] = Some effect
    /\ Mice.purview cause = [1] /\ Mice.purview effect = [1]
    /\ reuse_allowed halved Past [0] cause
    /\ find_mice halved Past [0] cache = (Ok cause, cache)
    /\ ~ reuse_allowed halved Future [0] effect
    /\ _get_cached_mice halved Future [0] cache = None
    /\ find_mice halved Future [0] cache
       = (find_mice_search halved Future [0], cache).
Proof.
  intros whole halved cache.
  destruct (C3_store_once_and_reuse (H := Sample.collaborators))
    as (_ & Hhist & Hkey & Hreuse).
  destruct (find_mice_search_unwired whole Past)
    as (cause & Hcause & Hpc); [vm_compute; reflexivity|].
  destruct (find_mice_search_unwired whole Future)
    as (effect & Heffect & Hpe); [vm_compute; reflexivity|].
  assert (Hhash : Subsystem_hash halved = Subsystem_hash whole)
    by (vm_compute; reflexivity).
  assert (Hcut : Subsystem.cut halved = Cut.mk [0] [1])
    by (vm_compute; reflexivity).
  assert (Hpast : cache !! _get_mice_key halved Past [0] = Some cause).
  { unfold cache. rewrite Hhist, (Hkey halved whole Past [0] Hhash).
    cbn [storing_call call_subsystem call_direction call_mechanism].
    unfold call_key. cbn [call_subsystem call_direction call_mechanism].
    rewrite bool_decide_eq_true_2 by reflexivity.
    rewrite Hcause. reflexivity. }
  assert (Hfuture : cache !! _get_mice_key halved Future [0] = Some effect).
  { unfold cache. rewrite Hhist, (Hkey halved whole Future [0] Hhash).
    cbn [storing_call call_subsystem call_direction call_mechanism].
    unfold call_key. cbn [call_subsystem call_direction call_mechanism].
    rewrite bool_decide_eq_false_2
      by (unfold _get_mice_key; intros Heq; discriminate Heq).
    rewrite bool_decide_eq_true_2 by reflexivity.
    rewrite Heffect. reflexivity. }
  assert (Hyes : reuse_allowed halved Past [0] cause).
  { unfold reuse_allowed. rewrite Hcut. left.
    intros i [<-|[]]. left. reflexivity. }
  assert (Hno : ~ reuse_allowed halved Future [0] effect).
  { unfold reuse_allowed. rewrite Hcut, Hpe. cbn [Cut.intact Cut.severed].
    intros [Hin|Hin].
    - destruct (Hin 0 (or_introl eq_refl)) as [Heq|[]]. discriminate.
    - destruct (Hin 1 (or_introl eq_refl)) as [Heq|[]]. discriminate. }
  exists cause, effect.
  destruct (Hreuse halved Past [0] cache cause Hpast) as (_ & Hhit & _).
  destruct (Hreuse halved Future [0] cache effect Hfuture)
    as (Hiff & _ & Hmiss).
  split; [exact Hpast|]. split; [exact Hfuture|].
  split; [exact Hpc|]. split; [exact Hpe|].
  split; [exact Hyes|]. split; [exact (Hhit Hyes)|].
  split; [exact Hno|]. split; [|exact (Hmiss Hno)].
  assert (Hv : cut_leaves_valid halved Future [0] effect = false).
  { apply not_true_is_false. intros Hv.
    apply Hno, cut_leaves_valid_spec, Hv. }
  unfold _get_cached_mice. rewrite Hfuture, Hv. reflexivity.
Defined.

End CacheOnUnwiredNetwork.

(** ** The search for the minimum information partition *)

Section MipFacts.
Context `{Collaborators}.

Lemma Qlt_bool_iff (a b : Q) : Qlt_bool a b = true <-> (a < b)%Q.
Proof.
  unfold Qlt_bool. rewrite negb_true_iff. split.
  - intros Hb. apply Qnot_le_lt. intros Hle.
    apply Qle_bool_iff in Hle. congruence.
  - intros Hlt. destruct (Qle_bool b a) eqn:Hb; [|reflexivity].
    apply Qle_bool_iff in Hb. exfalso. exact (Qlt_not_le _ _ Hlt Hb).
Qed.

Lemma Qlt_bool_false (a b : Q) : Qlt_bool a b = false <-> (b <= a)%Q.
Proof.
  unfold Qlt_bool. rewrite negb_false_iff. apply Qle_bool_iff.
Qed.

(** The candidates are the pairs of a mechanism split and a purview split,
    in either order of the purview split, in which no part is empty on both
    sides. *)
Lemma _mip_bipartition_spec (mechanism purview : list Node.t) (p0 p1 : Part.t) :
  In (p0, p1) (_mip_bipartition mechanism purview)
  <-> In (Part.mechanism p0, Part.mechanism p1) (bipartition mechanism)
      /\ (In (Part.purview p0, Part.purview p1) (bipartition purview)
          \/ In (Part.purview p1, Part.purview p0) (bipartition purview))
      /\ (Part.mechanism p0 <> [] \/ Part.purview p0 <> [])
      /\ (Part.mechanism p1 <> [] \/ Part.purview p1 <> []).
Proof.
  unfold _mip_bipartition. rewrite in_flat_map. split.
  - intros ([d0 d1] & Hd & Hin). apply in_flat_map in Hin as ([n0 n1] & Hn & Hin).
    simpl in Hin.
    destruct (_ && _) eqn:Hvalid; [|destruct Hin].
    destruct Hin as [Hin|[]]. injection Hin as <- <-. simpl.
    apply andb_true_iff in Hvalid as [Hv0 Hv1].
    apply Nat.ltb_lt in Hv0, Hv1.
    split; [exact Hn|]. split; [|split].
    + apply in_app_or in Hd as [Hd|Hd]; [left; exact Hd|right].
      apply in_map_iff in Hd as ([a b] & Hab & Hd). simpl in Hab.
      injection Hab as <- <-. exact Hd.
    + destruct n0; [right; destruct d0; [simpl in Hv0; lia|discriminate]
                   |left; discriminate].
    + destruct n1; [right; destruct d1; [simpl in Hv1; lia|discriminate]
                   |left; discriminate].
  - destruct p0 as [n0 d0], p1 as [n1 d1]. simpl.
    intros (Hn & Hd & H0 & H1). exists (d0, d1). split.
    + apply in_or_app. destruct Hd as [Hd|Hd]; [left; exact Hd|right].
      apply in_map_iff. exists (d1, d0). split; [reflexivity|exact Hd].
    + apply in_flat_map. exists (n0, n1). split; [exact Hn|]. simpl.
      assert (Hv0 : (0 <? length n0 + length d0)%nat = true).
      { apply Nat.ltb_lt. destruct H0 as [H0|H0];
          [destruct n0|destruct d0]; simpl; try congruence; lia. }
      assert (Hv1 : (0 <? length n1 + length d1)%nat = true).
      { apply Nat.ltb_lt. destruct H1 as [H1|H1];
          [destruct n1|destruct d1]; simpl; try congruence; lia. }
      rewrite Hv0, Hv1. left. reflexivity.
Qed.

Section Loop.
Variables (S : Subsystem.t) (direction : Direction).
Variables (mechanism purview : list Node.t) (u : Tensor).

Let loop := find_mip_loop S direction mechanism purview u.

(** The distance of a candidate to the unpartitioned repertoire. *)
Let dist (c : Part.t * Part.t) (q : Q) : Prop :=
  exists t, partition_phi S direction u c = Ok (t, q).

(** The first candidate below the tolerance ends the loop, whatever comes
    after it. *)
Lemma find_mip_loop_short_circuit pre c post q phi_min mip :
  (forall c', In c' pre -> exists q', dist c' q' /\ ~ (q' < EPSILON)%Q) ->
  dist c q -> (q < EPSILON)%Q ->
  loop (pre ++ c :: post) phi_min mip = Ok None.
Proof.
  intros Hpre [t Hc] Hq. revert phi_min mip.
  induction pre as [|c' pre IH]; intros phi_min mip; simpl.
  - unfold loop. simpl. rewrite Hc. simpl.
    apply Qlt_bool_iff in Hq. rewrite Hq. reflexivity.
  - destruct (Hpre c') as (q' & [t' Hc'] & Hq'); [left; reflexivity|].
    unfold loop. simpl. rewrite Hc'. simpl.
    destruct (Qlt_bool q' EPSILON) eqn:Hlt;
      [apply Qlt_bool_iff in Hlt; contradiction|].
    assert (Hrest : forall c'', In c'' pre ->
                      exists q'', dist c'' q'' /\ ~ (q'' < EPSILON)%Q).
    { intros c'' Hin. apply Hpre. right. exact Hin. }
    destruct (match phi_min with
              | Some m => Qlt_bool EPSILON (m - q')
              | None => true
              end); apply (IH Hrest).
Qed.

Lemma find_mip_loop_None candidates phi_min mip :
  (forall c, In c candidates -> exists q, dist c q) ->
  loop candidates phi_min mip = Ok None
  <-> exists c q, In c candidates /\ dist c q /\ (q < EPSILON)%Q.
Proof.
  revert phi_min mip.
  induction candidates as [|c candidates IH]; intros phi_min mip Hall.
  - unfold loop. simpl. split; [discriminate|]. intros (c & q & [] & _).
  - destruct (Hall c) as (q & t & Hc); [left; reflexivity|].
    assert (Hrest : forall c', In c' candidates -> exists q', dist c' q').
    { intros c' Hin. apply Hall. right. exact Hin. }
    unfold loop. simpl. rewrite Hc. simpl.
    destruct (Qlt_bool q EPSILON) eqn:Hlt.
    + split; [|reflexivity]. intros _. exists c, q.
      split; [left; reflexivity|]. split; [exists t; exact Hc|].
      apply Qlt_bool_iff, Hlt.
    + assert (Hstep : forall pm m,
                 loop candidates pm m = Ok None
                 <-> exists c' q', In c' (c :: candidates) /\ dist c' q'
                                   /\ (q' < EPSILON)%Q).
      { intros pm m. rewrite (IH pm m Hrest). split.
        - intros (c' & q' & Hin & Hd & Hq). exists c', q'.
          split; [right; exact Hin|]. split; assumption.
        - intros (c' & q' & [<-|Hin] & Hd & Hq).
          + destruct Hd as [t' Hd]. rewrite Hc in Hd. injection Hd as _ <-.
            apply Qlt_bool_iff in Hq. congruence.
          + exists c', q'. split; [exact Hin|]. split; assumption. }
      destruct (match phi_min with
                | Some m => Qlt_bool EPSILON (m - q)
                | None => true
                end); apply Hstep.
Qed.

(** Without a candidate below the tolerance the loop returns a Mip: the one
    it started with, or a candidate; its phi is at most the tolerance above
    the distance of every candidate, and not above the running minimum. *)
Lemma find_mip_loop_minimum candidates phi_min mip :
  (0 <= EPSILON)%Q ->
  (forall c, In c candidates -> exists q, dist c q /\ ~ (q < EPSILON)%Q) ->
  (forall m, phi_min = Some m -> m = Mip.phi mip) ->
  exists mip',
    loop candidates phi_min mip = Ok (Some mip')
    /\ ((mip' = mip /\ (phi_min = None -> candidates = []))
        \/ exists c, In c candidates /\ dist c (Mip.phi mip')
                     /\ Mip.partition mip' = Some c)
    /\ (forall c q, In c candidates -> dist c q ->
                    (Mip.phi mip' <= q + EPSILON)%Q)
    /\ (forall m, phi_min = Some m -> (Mip.phi mip' <= m)%Q).
Proof.
  intros Heps. revert phi_min mip.
  induction candidates as [|c candidates IH]; intros phi_min mip Hall Hinv.
  - exists mip. unfold loop. simpl. split; [reflexivity|].
    split; [left; auto|]. split; [intros c q []|].
    intros m Hm. rewrite (Hinv m Hm). apply Qle_refl.
  - destruct (Hall c) as (q & [t Hc] & Hq); [left; reflexivity|].
    assert (Hrest : forall c', In c' candidates ->
                      exists q', dist c' q' /\ ~ (q' < EPSILON)%Q).
    { intros c' Hin. apply Hall. right. exact Hin. }
    unfold loop. simpl. rewrite Hc. simpl.
    destruct (Qlt_bool q EPSILON) eqn:Hlt;
      [apply Qlt_bool_iff in Hlt; contradiction|].
    assert (Hsame : forall c' q', c' = c -> dist c' q' -> q' = q).
    { intros c' q' -> [t' Hd]. rewrite Hc in Hd. injection Hd as _ <-.
      reflexivity. }
    destruct (match phi_min with
              | Some m => Qlt_bool EPSILON (m - q)
              | None => true
              end) eqn:Hbetter.
    + set (mipc := Mip.mk direction mechanism purview (Some c) (Some u) (Some t) q).
      destruct (IH (Some q) mipc Hrest) as (mip' & Hloop & Hfrom & Hbound & Hmono).
      { intros m Hm. injection Hm as <-. reflexivity. }
      exists mip'. split; [exact Hloop|].
      specialize (Hmono q eq_refl).
      split; [|split].
      * right. destruct Hfrom as [[-> _]|(c' & Hin & Hd & Hp)].
        -- exists c. split; [left; reflexivity|].
           split; [exists t; exact Hc|reflexivity].
        -- exists c'. split; [right; exact Hin|]. split; assumption.
      * intros c' q' [<-|Hin] Hd.
        -- rewrite (Hsame _ _ eq_refl Hd). lra.
        -- apply (Hbound c' q' Hin Hd).
      * intros m Hm. subst phi_min.
        apply Qlt_bool_iff in Hbetter. lra.
    + destruct phi_min as [m|]; [|discriminate].
      apply Qlt_bool_false in Hbetter.
      destruct (IH (Some m) mip Hrest Hinv) as (mip' & Hloop & Hfrom & Hbound & Hmono).
      exists mip'. split; [exact Hloop|].
      specialize (Hmono m eq_refl).
      split; [|split].
      * destruct Hfrom as [[-> _]|(c' & Hin & Hd & Hp)].
        -- left. split; [reflexivity|discriminate].
        -- right. exists c'. split; [right; exact Hin|]. split; assumption.
      * intros c' q' [<-|Hin] Hd.
        -- rewrite (Hsame _ _ eq_refl Hd). lra.
        -- apply (Hbound c' q' Hin Hd).
      * intros m' Hm'. injection Hm' as <-. exact Hmono.
Qed.

End Loop.

End MipFacts.

Section MipClaims.
Context `{Collaborators}.

(** C4, as amended.  [find_mip] returns [None] as soon as a candidate
    bipartition is at distance below the tolerance from the unpartitioned
    repertoire, whatever the candidates after it are; when every candidate
    can be evaluated this happens if and only if some candidate is below
    the tolerance.  Otherwise, with candidates, the returned Mip is one of
    them and its phi exceeds the distance of no candidate by more than the
    tolerance: it is the minimum up to the tolerance, not the minimum.
    Without candidates the null MIP with phi 0 is returned.  The candidates
    are the splits of mechanism and purview with no part empty on both
    sides. *)
Theorem C4_find_mip_within_tolerance (S : Subsystem.t) (direction : Direction)
    (mechanism purview : list Node.t) (u : Tensor) :
  _get_repertoire S direction mechanism purview = Ok u ->
  let candidates := _mip_bipartition mechanism purview in
  let dist c q := exists t, partition_phi S direction u c = Ok (t, q) in
  (forall p0 p1,
      In (p0, p1) candidates
      <-> In (Part.mechanism p0, Part.mechanism p1) (bipartition mechanism)
          /\ (In (Part.purview p0, Part.purview p1) (bipartition purview)
              \/ In (Part.purview p1, Part.purview p0) (bipartition purview))
          /\ (Part.mechanism p0 <> [] \/ Part.purview p0 <> [])
          /\ (Part.mechanism p1 <> [] \/ Part.purview p1 <> []))
  /\ (forall pre c post q,
         candidates = pre ++ c :: post ->
         (forall c', In c' pre -> exists q', dist c' q' /\ ~ (q' < EPSILON)%Q) ->
         dist c q -> (q < EPSILON)%Q ->
         find_mip S direction mechanism purview = Ok None)
  /\ ((forall c, In c candidates -> exists q, dist c q) ->
      (find_mip S direction mechanism purview = Ok None
       <-> exists c q, In c candidates /\ dist c q /\ (q < EPSILON)%Q))
  /\ ((0 <= EPSILON)%Q ->
      (forall c, In c candidates -> exists q, dist c q /\ ~ (q < EPSILON)%Q) ->
      candidates <> [] ->
      exists mip,
        find_mip S direction mechanism purview = Ok (Some mip)
        /\ (exists c, In c candidates /\ dist c (Mip.phi mip)
                      /\ Mip.partition mip = Some c)
        /\ (forall c q, In c candidates -> dist c q ->
                        (Mip.phi mip <= q + EPSILON)%Q))
  /\ (candidates = [] ->
      find_mip S direction mechanism purview
      = Ok (Some (_null_mip direction mechanism purview))
      /\ Mip.phi (_null_mip direction mechanism purview) = 0%Q).
Proof.
  intros Hu candidates dist.
  split; [|split; [|split; [|split]]].
  - intros p0 p1. apply _mip_bipartition_spec.
  - intros pre c post q Hc Hpre Hd Hq. unfold find_mip. rewrite Hu. simpl.
    fold candidates. rewrite Hc.
    apply (find_mip_loop_short_circuit S direction mechanism purview u
             pre c post q None _ Hpre Hd Hq).
  - intros Hall. unfold find_mip. rewrite Hu. simpl.
    apply (find_mip_loop_None S direction mechanism purview u
             candidates None _ Hall).
  - intros Heps Hall Hne. unfold find_mip. rewrite Hu. simpl.
    destruct (find_mip_loop_minimum S direction mechanism purview u
                candidates None (_null_mip direction mechanism purview)
                Heps Hall) as (mip & Hloop & Hfrom & Hbound & _).
    { discriminate. }
    exists mip. split; [exact Hloop|]. split; [|exact Hbound].
    destruct Hfrom as [[_ Hnil]|Hfrom]; [|exact Hfrom].
    exfalso. apply Hne, Hnil. reflexivity.
  - intros Hnil. unfold find_mip. rewrite Hu. simpl.
    fold candidates. rewrite Hnil. split; reflexivity.
Qed.

End MipClaims.

Section MipOnGradedNetwork.
#[local] Existing Instance Sample.collaborators.

(** C4 as stated fails: the phi of the returned Mip need not be the least
    distance.  In the graded network the three candidates for mechanism
    [(0, 1)] and purview [(2,)] in the effect direction are at distances
    1/4, 1999999/4000000 and 499999/2000000 in this order; the third is
    smaller than the first by less than the tolerance 1/1000000, so the
    first is kept and phi is 1/4. *)
Lemma C4_returned_phi_above_minimum :
  let mechanism := take 2 (Subsystem.nodes Sample.graded_subsystem) in
  let purview := drop 2 (Subsystem.nodes Sample.graded_subsystem) in
  match find_mip Sample.graded_subsystem Future mechanism purview,
        _get_repertoire Sample.graded_subsystem Future mechanism purview,
        nth_error (_mip_bipartition mechanism purview) 2 with
  | Ok (Some mip), Ok u, Some c =>
      match partition_phi Sample.graded_subsystem Future u c with
      | Ok (_, q) => (Mip.phi mip == 1 # 4)%Q /\ (q < Mip.phi mip)%Q
      | Raise _ => False
      end
  | _, _, _ => False
  end.
Proof. vm_compute. split; reflexivity. Qed.

Lemma C4_find_mip_within_tolerance_witness :
  let mechanism := take 2 (Subsystem.nodes Sample.graded_subsystem) in
  let purview := drop 2 (Subsystem.nodes Sample.graded_subsystem) in
  let u := Sample.computed
             (_get_repertoire Sample.graded_subsystem Future mechanism purview) in
  exists mip,
    find_mip Sample.graded_subsystem Future mechanism purview = Ok (Some mip)
    /\ (forall c q,
           In c (_mip_bipartition mechanism purview) ->
           (exists t, partition_phi Sample.graded_subsystem Future u c = Ok (t, q)) ->
           (Mip.phi mip <= q + EPSILON)%Q).
Proof.
  intros mechanism purview u.
  assert (Hu : _get_repertoire Sample.graded_subsystem Future mechanism purview
               = Ok u).
  { apply computed_Ok. vm_compute. reflexivity. }
  destruct (C4_find_mip_within_tolerance Sample.graded_subsystem Future
              mechanism purview u Hu) as (_ & _ & _ & Hmin & _).
  destruct Hmin as (mip & Hmip & _ & Hbound).
  - vm_compute. discriminate.
  - assert (Hall : forallb
                     (fun c => match partition_phi Sample.graded_subsystem Future u c with
                               | Ok (_, q) => negb (Qlt_bool q EPSILON)
                               | Raise _ => false
                               end)
                     (_mip_bipartition mechanism purview) = true).
    { vm_compute. reflexivity. }
    intros c Hc. apply (proj1 (forallb_forall _ _) Hall) in Hc.
    destruct (partition_phi Sample.graded_subsystem Future u c) as [[t q]|e];
      [|discriminate].
    exists q. split; [exists t; reflexivity|].
    intros Hq. apply Qlt_bool_iff in Hq. rewrite Hq in Hc. discriminate.
  - assert (Hlen : length (_mip_bipartition mechanism purview) = 3%nat).
    { vm_compute. reflexivity. }
    intros Hnil. rewrite Hnil in Hlen. discriminate.
  - exists mip. split; [exact Hmip|exact Hbound].
Defined.

End MipOnGradedNetwork.

(** ** The search over cuts *)

Section BigMipFacts.
Context `{Collaborators}.

(** The terminal cases of [_big_mip], in the order in which they are
    checked. *)
Lemma _big_mip_single_node (S : Subsystem.t) (cache : MiceCache) :
  length (Subsystem.node_indices S) = 1%nat ->
  _big_mip S cache = (Ok (_single_node_mip S), cache).
Proof. intros Hlen. unfold _big_mip. rewrite Hlen. reflexivity. Qed.

Lemma _big_mip_empty (S : Subsystem.t) (cache : MiceCache) :
  Subsystem.node_indices S = [] ->
  _big_mip S cache = (Ok (_null_big_mip S), cache).
Proof. intros Hnil. unfold _big_mip. rewrite Hnil. reflexivity. Qed.

Lemma _big_mip_disconnected (S : Subsystem.t) (cache : MiceCache)
    (m : Matrix) (k : nat) :
  (2 <= length (Subsystem.node_indices S))%nat ->
  Subsystem.connectivity_matrix S = Some m ->
  subsystem_components S = Ok k -> (1 < k)%nat ->
  _big_mip S cache = (Ok (_null_big_mip S), cache).
Proof.
  intros Hlen Hm Hk Hgt. unfold _big_mip.
  destruct (Subsystem.node_indices S) as [|i [|j rest]] eqn:Hnodes;
    [simpl in Hlen; lia..|].
  simpl length. cbn [Nat.eqb].
  rewrite Hm, Hk. unfold mbind at 1, Cached_bind, lift. simpl.
  apply Nat.ltb_lt in Hgt. rewrite Hgt. reflexivity.
Qed.

Lemma _big_mip_connected (S : Subsystem.t) (cache : MiceCache) :
  (2 <= length (Subsystem.node_indices S))%nat ->
  Subsystem.connectivity_matrix S = None
  \/ (exists m, Subsystem.connectivity_matrix S = Some m)
     /\ (exists k, subsystem_components S = Ok k /\ (k <= 1)%nat) ->
  _big_mip S cache
  = match tail (bipartition (Subsystem.node_indices S)) with
    | [] => (Ok (_null_big_mip S), cache)
    | p :: ps => cut_search S (p :: ps) cache
    end.
Proof.
  intros Hlen Hcm. unfold _big_mip.
  destruct (Subsystem.node_indices S) as [|i [|j rest]] eqn:Hnodes;
    [simpl in Hlen; lia..|].
  simpl length. cbn [Nat.eqb].
  assert (Htest : match Subsystem.connectivity_matrix S with
                  | Some _ =>
                      subsystem_components S
                      ≫= (fun num_components => Ok (1 <? num_components)%nat)
                  | None => Ok false
                  end = Ok false).
  { destruct Hcm as [->|[[m ->] (k & -> & Hk)]]; [reflexivity|].
    simpl. apply Nat.ltb_ge in Hk. rewrite Hk. reflexivity. }
  unfold mbind at 1, Cached_bind, lift. rewrite Htest.
  destruct (tail (bipartition (i :: j :: rest))); reflexivity.
Qed.

Lemma _null_big_mip_phi (S : Subsystem.t) :
  BigMip.phi (_null_big_mip S) = 0%Q.
Proof. reflexivity. Qed.

Lemma _single_node_mip_phi (S : Subsystem.t) :
  (0 <= BigMip.phi (_single_node_mip S))%Q.
Proof.
  unfold _single_node_mip.
  destruct SINGLE_NODES_WITH_SELFLOOPS_HAVE_PHI; simpl; discriminate.
Qed.

(** C5 (evaluated at the failing input).  The subsystem [(0, 1)] of the
    network with the single connection [0 -> 1] has two strongly connected
    components, so the claim is that [_big_mip] returns the null result.
    The component count that [_big_mip] takes is 1, because
    [connected_components] is called without [connection='strong'] and
    joins nodes linked in either direction; the test for a disconnected
    subsystem fails and the search over cuts is entered. *)
Theorem C5_one_way_subsystem_is_not_null (cache : MiceCache) :
  let S := Sample.built (Subsystem_init [0; 1] [0; 0] [0; 0]
                                        Sample.chain_network None) in
  Subsystem.node_indices S = [0; 1]
  /\ connected_components [[0; 1]; [0; 0]] true = 2%nat
  /\ subsystem_components S = Ok 1%nat
  /\ _big_mip S cache
     = match tail (bipartition (Subsystem.node_indices S)) with
       | [] => (Ok (_null_big_mip S), cache)
       | p :: ps => cut_search S (p :: ps) cache
       end.
Proof.
  intros S.
  assert (Hk : subsystem_components S = Ok 1%nat) by (vm_compute; reflexivity).
  split; [vm_compute; reflexivity|].
  split; [vm_compute; reflexivity|].
  split; [exact Hk|].
  apply _big_mip_connected.
  - vm_compute. lia.
  - right. split.
    + eexists. vm_compute. reflexivity.
    + exists 1%nat. split; [exact Hk|lia].
Qed.

End BigMipFacts.

Section BigMipOnChainNetwork.
#[local] Existing Instance Sample.collaborators.

(** With the sample collaborators the search entered at the failing input
    of C5 does not return: it stops in the connectivity pre-screen. *)
Lemma _big_mip_chain_subsystem :
  fst (_big_mip Sample.chain_subsystem ∅) = Raise AttributeError.
Proof. vm_compute. reflexivity. Qed.

End BigMipOnChainNetwork.

(** ** Distances between constellations *)

Section DistanceFacts.
Context `{Collaborators}.

Lemma fold_left_Qplus_from (l : list Q) (a : Q) :
  (fold_left Qplus l a == a + fold_left Qplus l 0)%Q.
Proof.
  revert a. induction l as [|x l IH]; intros a; simpl.
  - ring.
  - rewrite (IH (a + x)%Q), (IH (0 + x)%Q). ring.
Qed.

Lemma py_sum_cons (x : Q) (l : list Q) : (py_sum (x :: l) == x + py_sum l)%Q.
Proof.
  unfold py_sum. simpl. rewrite fold_left_Qplus_from. ring.
Qed.

Lemma py_sum_app_one (l : list Q) (x : Q) :
  (py_sum (l ++ [x]) == py_sum l + x)%Q.
Proof.
  induction l as [|y l IH]; simpl.
  - unfold py_sum. simpl. ring.
  - rewrite !py_sum_cons, IH. ring.
Qed.

Lemma set_last_app_one (l : list Q) (x y : Q) :
  set_last (l ++ [x]) y = l ++ [y].
Proof.
  unfold set_last. rewrite length_app. simpl.
  replace (pred (length l + 1)) with (length l + 0)%nat by lia.
  rewrite insert_app_r. reflexivity.
Qed.

(** The residual of the two mass vectors before the adjustment. *)
Let residual (C1 C2 unique_C1 unique_C2 : list Concept.t)
    (null_concept : Concept.t) : Q :=
  let all_concepts := emd_universe C1 C2 unique_C1 unique_C2 null_concept in
  (py_sum (map (concept_mass C1) all_concepts)
   - py_sum (map (concept_mass C2) all_concepts))%Q.

(** When the second constellation carries the greater mass, the first
    vector receives the negative residual: its null slot is negative and
    the two sums differ by twice the residual. *)
Lemma emd_masses_second_heavier (C1 C2 unique_C1 unique_C2 : list Concept.t)
    (null_concept : Concept.t) :
  Concept_in null_concept C1 = false ->
  (residual C1 C2 unique_C1 unique_C2 null_concept < 0)%Q ->
  let d := emd_masses C1 C2 unique_C1 unique_C2 null_concept in
  (List.last (fst d) 0 == residual C1 C2 unique_C1 unique_C2 null_concept)%Q
  /\ (py_sum (fst d) - py_sum (snd d)
      == 2 * residual C1 C2 unique_C1 unique_C2 null_concept)%Q.
Proof.
  intros Hnull Hneg d. subst d. unfold emd_masses.
  fold (residual C1 C2 unique_C1 unique_C2 null_concept).
  set (r := residual C1 C2 unique_C1 unique_C2 null_concept) in *.
  assert (Hlt : Qlt_bool r 0 = true) by (apply Qlt_bool_iff, Hneg).
  assert (Hge : Qlt_bool 0 r = false).
  { apply Qlt_bool_false. apply Qlt_le_weak, Hneg. }
  rewrite Hlt, Hge. simpl fst. simpl snd.
  assert (Hr : (r == py_sum (map (concept_mass C1)
                               (emd_universe C1 C2 unique_C1 unique_C2 null_concept))
                    - py_sum (map (concept_mass C2)
                               (emd_universe C1 C2 unique_C1 unique_C2 null_concept)))%Q)
    by reflexivity.
  revert Hr. unfold emd_universe. rewrite !app_assoc, !map_app. simpl map.
  rewrite set_last_app_one, List.last_last, !py_sum_app_one.
  assert (Hm : concept_mass C1 null_concept = 0%Q)
    by (unfold concept_mass; rewrite Hnull; reflexivity).
  rewrite Hm. intros Hr. split; [reflexivity|]. lra.
Qed.

(** When the first constellation carries the greater mass, the residual
    lands on the null slot of the second vector and the sums agree. *)
Lemma emd_masses_first_heavier (C1 C2 unique_C1 unique_C2 : list Concept.t)
    (null_concept : Concept.t) :
  Concept_in null_concept C2 = false ->
  (0 < residual C1 C2 unique_C1 unique_C2 null_concept)%Q ->
  let d := emd_masses C1 C2 unique_C1 unique_C2 null_concept in
  (List.last (snd d) 0 == residual C1 C2 unique_C1 unique_C2 null_concept)%Q
  /\ (py_sum (fst d) == py_sum (snd d))%Q.
Proof.
  intros Hnull Hpos d. subst d. unfold emd_masses.
  fold (residual C1 C2 unique_C1 unique_C2 null_concept).
  set (r := residual C1 C2 unique_C1 unique_C2 null_concept) in *.
  assert (Hlt : Qlt_bool 0 r = true) by (apply Qlt_bool_iff, Hpos).
  assert (Hge : Qlt_bool r 0 = false).
  { apply Qlt_bool_false. apply Qlt_le_weak, Hpos. }
  rewrite Hlt, Hge. simpl fst. simpl snd.
  assert (Hr : (r == py_sum (map (concept_mass C1)
                               (emd_universe C1 C2 unique_C1 unique_C2 null_concept))
                    - py_sum (map (concept_mass C2)
                               (emd_universe C1 C2 unique_C1 unique_C2 null_concept)))%Q)
    by reflexivity.
  revert Hr. unfold emd_universe. rewrite !app_assoc, !map_app. simpl map.
  rewrite set_last_app_one, List.last_last, !py_sum_app_one.
  assert (Hm : concept_mass C2 null_concept = 0%Q)
    by (unfold concept_mass; rewrite Hnull; reflexivity).
  rewrite Hm. intros Hr. split; [reflexivity|]. lra.
Qed.

Lemma filter_nil_iff {A} (f : A -> bool) (l : list A) :
  List.filter f l = [] <-> forall x, In x l -> f x = false.
Proof.
  induction l as [|x l IH]; simpl.
  - split; [intros _ ? []|reflexivity].
  - destruct (f x) eqn:Hx.
    + split; [discriminate|]. intros Hall.
      rewrite (Hall x (or_introl eq_refl)) in Hx. discriminate.
    + rewrite IH. split.
      * intros Hall y [<-|Hy]; auto.
      * intros Hall y Hy. apply Hall. right. exact Hy.
Qed.


End DistanceFacts.

Section DistanceSymmetry.
Context `{Collaborators}.


End DistanceSymmetry.

Section SymmetryOnSampleConcepts.
#[local] Existing Instance Sample.collaborators.



End SymmetryOnSampleConcepts.

Section DistanceOnSampleConcepts.
Variable solver : list Q -> list Q -> list (list Q) -> Q.
#[local] Instance sample_with_solver : Collaborators :=
  Sample.collaborators_with solver.

(** C6 (evaluated at the failing input).  For the constellations [(b)] of
    mass 1 and [(a)] of mass 3, each with a concept the other lacks, the
    second side is the heavier one.  The claim is that its excess 2 is
    deposited on the null slot of the first vector, which balances the two
    and keeps every entry nonnegative.  The residual [-2] itself is
    assigned: the vectors are [1, 0, -2] and [0, 3, 0], with sums -1 and 3.
    With the sides exchanged the excess does land as 2 on the other side's
    null slot. *)
Theorem C6_heavier_second_side_gets_negative_mass :
  emd_masses [Sample.concept_b] [Sample.concept_a]
             [Sample.concept_b] [Sample.concept_a] Sample.concept_null
  = ([1; 0; -2], [0; 3; 0])%Q
  /\ (py_sum [1; 0; -2] == -1)%Q /\ (py_sum [0; 3; 0] == 3)%Q
  /\ emd_masses [Sample.concept_a] [Sample.concept_b]
                [Sample.concept_a] [Sample.concept_b] Sample.concept_null
     = ([3; 0; 0], [0; 1; 2])%Q.
Proof. repeat split; vm_compute; reflexivity. Qed.

End DistanceOnSampleConcepts.

(** ** Tensors *)

Section TensorFacts.

Lemma mask_lookup (shape : list bool) (s : State) (k : nat) :
  mask shape s !! k = andb (nth k shape false) <$> s !! k.
Proof.
  revert shape k. induction s as [|x s IH]; intros shape k; [reflexivity|].
  destruct shape as [|b shape], k as [|k]; simpl; try reflexivity.
  - rewrite IH. destruct k; reflexivity.
  - apply IH.
Qed.

Lemma mask_length (shape : list bool) (s : State) :
  length (mask shape s) = length s.
Proof.
  revert shape. induction s as [|x s IH]; intros [|b shape]; simpl;
    rewrite ?IH; reflexivity.
Qed.

(** Masking by a shape and then by a larger one is masking by the smaller. *)
Lemma mask_absorb (shape shape' : list bool) (s : State) :
  (forall k, nth k shape false = true -> nth k shape' false = true) ->
  mask shape (mask shape' s) = mask shape s.
Proof.
  intros Hle. apply list_eq. intros k. rewrite !mask_lookup.
  destruct (s !! k) as [x|]; [|reflexivity]. simpl. f_equal.
  destruct (nth k shape false) eqn:Hk; [|reflexivity].
  rewrite (Hle k Hk). reflexivity.
Qed.

Lemma mask_idem (shape : list bool) (s : State) :
  mask shape (mask shape s) = mask shape s.
Proof. apply mask_absorb. auto. Qed.

Lemma mask_insert (shape : list bool) (s : State) (i : nat) (b : bool) :
  mask shape (<[i := b]> s) = <[i := nth i shape false && b]> (mask shape s).
Proof.
  apply list_eq. intros k. rewrite mask_lookup.
  destruct (decide (i = k)) as [->|Hne].
  - destruct (decide (k < length s)%nat) as [Hlt|Hge].
    + rewrite !list_lookup_insert_eq by (rewrite ?mask_length; exact Hlt).
      reflexivity.
    + rewrite !list_insert_ge by (rewrite ?mask_length; lia).
      rewrite mask_lookup. reflexivity.
  - rewrite !list_lookup_insert_ne by exact Hne.
    rewrite mask_lookup. reflexivity.
Qed.

Lemma nth_insert_false (shape : list bool) (i k : nat) :
  nth k (<[i := false]> shape) false
  = if decide (i = k) then false else nth k shape false.
Proof.
  rewrite !nth_lookup. destruct (decide (i = k)) as [->|Hne].
  - destruct (decide (k < length shape)%nat).
    + rewrite list_lookup_insert_eq by assumption. reflexivity.
    + rewrite list_insert_ge by lia.
      rewrite lookup_ge_None_2 by lia. reflexivity.
  - rewrite list_lookup_insert_ne by exact Hne. reflexivity.
Qed.

Lemma nth_or_shape (a b : list bool) (k : nat) :
  nth k (or_shape a b) false = nth k a false || nth k b false.
Proof.
  revert b k. induction a as [|x a IH]; intros [|y b] [|k]; simpl;
    rewrite ?orb_false_r; try reflexivity.
  apply IH.
Qed.

Lemma length_or_shape (a b : list bool) :
  length (or_shape a b) = Nat.max (length a) (length b).
Proof.
  revert b. induction a as [|x a IH]; intros [|y b]; simpl;
    rewrite ?IH; reflexivity.
Qed.

(** Reading through the operations. *)
Lemma tget_tones (shape : list bool) (s : State) : tget (tones shape) s = 1%Q.
Proof. reflexivity. Qed.

Lemma tget_tmul (a b : Tensor) (s : State) :
  tget (tmul a b) s = (tget a s * tget b s)%Q.
Proof.
  unfold tget at 1. simpl. unfold tget.
  rewrite !mask_absorb; [reflexivity| |];
    intros k Hk; rewrite nth_or_shape, Hk; [apply orb_true_r|reflexivity].
Qed.

Lemma tget_tdiv (t : Tensor) (c : Q) (s : State) :
  tget (tdiv t c) s = (tget t s / c)%Q.
Proof. unfold tget at 1. simpl. unfold tget. rewrite mask_idem. reflexivity. Qed.

Lemma tget_tcompl (t : Tensor) (s : State) :
  tget (tcompl t) s = (1 - tget t s)%Q.
Proof. unfold tget at 1. simpl. unfold tget. rewrite mask_idem. reflexivity. Qed.

(** An index on a singleton axis is not read. *)
Lemma tget_singleton_axis (t : Tensor) (i : nat) (b : bool) (s : State) :
  nth i (tshape t) false = false -> tget t (set_axis i b s) = tget t s.
Proof.
  intros Hi. unfold tget, set_axis. rewrite mask_insert, Hi. simpl.
  f_equal. apply list_insert_id'. intros Hlt.
  rewrite mask_lookup, Hi.
  rewrite mask_length in Hlt. apply lookup_lt_is_Some_2 in Hlt as [x ->].
  reflexivity.
Qed.

Lemma mask_under_insert_false (shape : list bool) (i : nat) (b : bool) (s : State) :
  mask shape (<[i := b]> (mask (<[i := false]> shape) s))
  = mask shape (<[i := b]> s).
Proof.
  apply list_eq. intros k. rewrite !mask_lookup.
  destruct (decide (i = k)) as [->|Hne].
  - destruct (decide (k < length s)%nat) as [Hlt|Hge].
    + rewrite !list_lookup_insert_eq by (rewrite ?mask_length; exact Hlt).
      reflexivity.
    + rewrite (list_insert_ge s) by lia.
      rewrite (list_insert_ge (mask _ s)) by (rewrite mask_length; lia).
      rewrite mask_lookup, lookup_ge_None_2 by lia. reflexivity.
  - rewrite !list_lookup_insert_ne by exact Hne.
    rewrite mask_lookup, nth_insert_false.
    destruct (decide (i = k)); [contradiction|].
    destruct (s !! k); [|reflexivity]. simpl.
    destruct (nth k shape false); reflexivity.
Qed.

Lemma tget_tsum_axis (t : Tensor) (i : nat) (s : State) :
  tget (tsum_axis t i) s
  = if nth i (tshape t) false
    then (tget t (set_axis i false s) + tget t (set_axis i true s))%Q
    else tget t s.
Proof.
  unfold tget at 1. simpl.
  destruct (nth i (tshape t) false) eqn:Hi.
  - unfold tget, set_axis. rewrite !mask_under_insert_false. reflexivity.
  - unfold tget. rewrite mask_absorb; [reflexivity|].
    intros k Hk. rewrite nth_insert_false.
    destruct (decide (i = k)) as [->|]; [congruence|exact Hk].
Qed.

Lemma tget_tselect (t : Tensor) (i : nat) (v : bool) (s : State) :
  tget (tselect t i v) s = tget t (set_axis i v s).
Proof.
  unfold tget at 1. simpl. unfold tget, set_axis.
  rewrite mask_under_insert_false. reflexivity.
Qed.

Lemma tget_tmean_axis (t : Tensor) (i : nat) (s : State) :
  tget (tmean_axis t i) s
  = if nth i (tshape t) false
    then ((tget t (set_axis i false s) + tget t (set_axis i true s)) / 2)%Q
    else (tget t s / 1)%Q.
Proof.
  unfold tmean_axis, axis_size. rewrite tget_tdiv, tget_tsum_axis.
  destruct (nth i (tshape t) false); reflexivity.
Qed.

(** ** Sums over all indices *)

Lemma Qsum_app (l k : list Q) : (Qsum (l ++ k) == Qsum l + Qsum k)%Q.
Proof.
  induction l as [|x l IH]; simpl; [ring|]. rewrite IH. ring.
Qed.

Lemma Qsum_map_ext {A} (f g : A -> Q) (l : list A) :
  (forall x, In x l -> (f x == g x)%Q) ->
  (Qsum (map f l) == Qsum (map g l))%Q.
Proof.
  induction l as [|x l IH]; intros Hfg; simpl; [reflexivity|].
  rewrite (Hfg x) by (left; reflexivity).
  rewrite IH; [reflexivity|]. intros y Hy. apply Hfg. right. exact Hy.
Qed.

Lemma Qsum_map_plus {A} (f g : A -> Q) (l : list A) :
  (Qsum (map (fun x => f x + g x) l) == Qsum (map f l) + Qsum (map g l))%Q.
Proof.
  induction l as [|x l IH]; simpl; [ring|]. rewrite IH. ring.
Qed.

Lemma states_length (shape : list bool) (s : State) :
  In s (states shape) -> length s = length shape.
Proof.
  revert s. induction shape as [|b shape IH]; intros s Hs; simpl in *.
  - destruct Hs as [<-|[]]. reflexivity.
  - assert (Hcons : exists x s', s = x :: s' /\ In s' (states shape)).
    { destruct b; [apply in_app_or in Hs as [Hs|Hs]|];
        apply in_map_iff in Hs as (s' & <- & Hs'); eauto. }
    destruct Hcons as (x & s' & -> & Hs'). simpl. rewrite (IH s' Hs').
    reflexivity.
Qed.

Lemma mask_states (shape : list bool) (s : State) :
  In s (states shape) -> mask shape s = s.
Proof.
  revert s. induction shape as [|b shape IH]; intros s Hs; simpl in *.
  - destruct Hs as [<-|[]]. reflexivity.
  - destruct b.
    + apply in_app_or in Hs as [Hs|Hs];
        apply in_map_iff in Hs as (s' & <- & Hs'); simpl;
        rewrite (IH s' Hs'); reflexivity.
    + apply in_map_iff in Hs as (s' & <- & Hs'). simpl.
      rewrite (IH s' Hs'). reflexivity.
Qed.

(** Summing over an axis of size 2 first. *)
Lemma Qsum_states_split (shape : list bool) (k : nat) (G : State -> Q) :
  nth k shape false = true ->
  (Qsum (map G (states shape))
   == Qsum (map (fun s => G (<[k := false]> s) + G (<[k := true]> s))
                (states (<[k := false]> shape))))%Q.
Proof.
  revert k G. induction shape as [|b shape IH]; intros k G Hk.
  - destruct k; discriminate.
  - destruct k as [|k]; simpl in Hk.
    + subst b. simpl. rewrite map_app, Qsum_app, !map_map.
      rewrite Qsum_map_plus. simpl. reflexivity.
    + simpl. destruct b.
      * rewrite !map_app, !Qsum_app, !map_map. simpl.
        rewrite (IH k (fun s => G (false :: s)) Hk).
        rewrite (IH k (fun s => G (true :: s)) Hk). reflexivity.
      * rewrite !map_map. simpl.
        rewrite (IH k (fun s => G (false :: s)) Hk). reflexivity.
Qed.

Lemma Qsum_map_const {A} (c : Q) (l : list A) :
  (Qsum (map (fun _ => c) l) == inject_Z (Z.of_nat (length l)) * c)%Q.
Proof.
  induction l as [|x l IH]; [simpl; ring|].
  cbn [map Qsum fold_right length]. fold (Qsum (map (fun _ : A => c) l)).
  rewrite IH, Nat2Z.inj_succ. unfold Z.succ. rewrite inject_Z_plus. ring.
Qed.

Lemma Qsum_map_div {A} (f : A -> Q) (c : Q) (l : list A) :
  (Qsum (map (fun x => f x / c) l) == Qsum (map f l) / c)%Q.
Proof.
  induction l as [|x l IH]; simpl.
  - unfold Qdiv. ring.
  - rewrite IH. unfold Qdiv. ring.
Qed.

Lemma Qsum_nonneg (l : list Q) :
  Forall (fun q => 0 <= q)%Q l -> (0 <= Qsum l)%Q.
Proof.
  induction 1 as [|q l Hq _ IH]; simpl; [apply Qle_refl|]. lra.
Qed.

Lemma Qsum_zero_nonneg (l : list Q) :
  Forall (fun q => 0 <= q)%Q l -> (Qsum l == 0)%Q ->
  Forall (fun q => q == 0)%Q l.
Proof.
  induction 1 as [|q l Hq Hl IH]; simpl; intros Hsum; [constructor|].
  pose proof (Qsum_nonneg l Hl) as Hpos.
  constructor; [lra|]. apply IH. lra.
Qed.

Lemma states_count (shape : list bool) :
  length (states shape) = (2 ^ count_true shape)%nat.
Proof.
  induction shape as [|b shape IH]; [reflexivity|].
  destruct b; simpl states; unfold count_true; simpl.
  - rewrite length_app, !length_map. fold (count_true shape). rewrite IH. lia.
  - rewrite length_map. fold (count_true shape). exact IH.
Qed.

Lemma tsum_tdiv (t : Tensor) (c : Q) : (tsum (tdiv t c) == tsum t / c)%Q.
Proof.
  unfold tsum. simpl tshape.
  rewrite (Qsum_map_ext (tget (tdiv t c)) (fun s => tget t s / c)%Q
                        (states (tshape t))).
  - apply Qsum_map_div.
  - intros s _. rewrite tget_tdiv. reflexivity.
Qed.

Lemma tsum_normalized (t : Tensor) :
  ~ (tsum t == 0)%Q -> (tsum (tdiv t (tsum t)) == 1)%Q.
Proof. intros Hnz. rewrite tsum_tdiv. field. exact Hnz. Qed.

Lemma tsum_uniform (shape : list bool) :
  (tsum (tdiv (tones shape) (inject_Z (2 ^ Z.of_nat (count_true shape)))) == 1)%Q.
Proof.
  rewrite tsum_tdiv. unfold tsum. simpl tshape.
  rewrite (Qsum_map_ext (tget (tones shape)) (fun _ => 1%Q) (states shape))
    by (intros; rewrite tget_tones; reflexivity).
  rewrite Qsum_map_const, states_count, Nat2Z.inj_pow.
  change (Z.of_nat 2) with 2%Z.
  assert (Hpos : (0 < 2 ^ Z.of_nat (count_true shape))%Z)
    by (apply Z.pow_pos_nonneg; lia).
  set (c := inject_Z (2 ^ Z.of_nat (count_true shape))).
  assert (Hc : ~ (c == 0)%Q).
  { unfold c. intros H0.
    apply (proj1 (inject_Z_injective _ 0%Z)) in H0. rewrite H0 in Hpos.
    exact (Z.lt_irrefl _ Hpos). }
  field. exact Hc.
Qed.

End TensorFacts.

(** ** The tensors of a node *)

Section NodeTensorFacts.
Context `{Collaborators}.

Lemma Qhalves (a b c d : Q) :
  (a + c == 1 -> b + d == 1 -> (a + b) / 2 + (c + d) / 2 == 1)%Q.
Proof.
  intros Hac Hbd. transitivity (((a + c) + (b + d)) / 2)%Q; [field|].
  rewrite Hac, Hbd. field.
Qed.

Lemma marginalize_step_eq (input_indices : list Z) (tpm_on tpm_off : Tensor)
    (labels : list (option nat)) (current : nat) (index : Z) :
  marginalize_step input_indices (tpm_on, tpm_off, labels, current) index
  = if negb (Zmem index input_indices)
    then (tdiv (tsum_axis tpm_on (Z.to_nat index)) 2,
          tdiv (tsum_axis tpm_off (Z.to_nat index)) 2,
          labels ++ [None], current)
    else (tpm_on, tpm_off, labels ++ [Some current], Datatypes.S current).
Proof. reflexivity. Qed.

Lemma marginalize_fold (n : nat) (input_indices : list Z) (len a : nat)
    (tpm_on tpm_off : Tensor) (labels : list (option nat)) (current : nat) :
  stacked_ok n a tpm_on tpm_off -> (a + len = n)%nat ->
  exists tpm_on' tpm_off' labels' current',
    fold_left (marginalize_step input_indices) (map Z.of_nat (seq a len))
              (tpm_on, tpm_off, labels, current)
    = (tpm_on', tpm_off', labels', current')
    /\ stacked_ok n n tpm_on' tpm_off'
    /\ (stacked_nonneg tpm_on tpm_off -> stacked_nonneg tpm_on' tpm_off').
Proof.
  revert a tpm_on tpm_off labels current.
  induction len as [|len IH]; intros a on off labels current Hok Hlen.
  - exists on, off, labels, current. simpl. split; [reflexivity|].
    split; [|auto]. destruct Hok as (Hs & Hl & _ & Hsum).
    repeat split; try assumption. intros k Hk. lia.
  - cbn [seq map fold_left].
    destruct Hok as (Hs & Hl & Hfull & Hsum).
    rewrite marginalize_step_eq.
    destruct (negb (Zmem (Z.of_nat a) input_indices)).
    + rewrite Nat2Z.id.
      assert (Ha : nth a (tshape on) false = true) by (apply Hfull; lia).
      destruct (IH (Datatypes.S a) (tdiv (tsum_axis on a) 2)
                   (tdiv (tsum_axis off a) 2) (labels ++ [None]) current)
        as (on' & off' & labels' & current' & Hfold & Hok' & Hnn);
        [|lia|].
      * unfold stacked_ok. simpl tshape. rewrite Hs. split; [reflexivity|].
        split; [rewrite length_insert; exact Hl|].
        split.
        -- intros k Hk. rewrite nth_insert_false.
           destruct (decide (a = k)); [lia|]. apply Hfull. lia.
        -- intros s. rewrite !tget_tdiv, !tget_tsum_axis, Hs, Ha.
           pose proof (Hsum (set_axis a false s)) as H0.
           pose proof (Hsum (set_axis a true s)) as H1.
           apply Qhalves; assumption.
      * exists on', off', labels', current'.
        split; [exact Hfold|]. split; [exact Hok'|].
        intros Hpos. apply Hnn. intros s.
        rewrite !tget_tdiv, !tget_tsum_axis, Hs, Ha.
        destruct (Hpos (set_axis a false s)) as [? ?].
        destruct (Hpos (set_axis a true s)) as [? ?].
        split; apply Qle_shift_div_l; lra.
    + destruct (IH (Datatypes.S a) on off (labels ++ [Some current])
                   (Datatypes.S current))
        as (on' & off' & labels' & current' & Hfold & Hok' & Hnn);
        [|lia|].
      * repeat split; try assumption. intros k Hk. apply Hfull. lia.
      * exists on', off', labels', current'. auto.
Qed.

Lemma valid_tpm_entry (network : Network.t) (s : State) (j : nat) :
  valid_tpm network -> (0 <= tpm_entry network s j <= 1)%Q.
Proof.
  intros Hvalid. unfold tpm_entry.
  assert (Hrow : Forall (fun q => 0 <= q <= 1)%Q
                        (nth (state_number s) (Network.tpm network) [])).
  { destruct (nth_in_or_default (state_number s) (Network.tpm network) [])
      as [Hin| ->]; [|constructor].
    exact (proj1 (List.Forall_forall _ _) Hvalid _ Hin). }
  destruct (nth_in_or_default j (nth (state_number s) (Network.tpm network) []) 0%Q)
    as [Hin| ->]; [|lra].
  exact (proj1 (List.Forall_forall _ _) Hrow _ Hin).
Qed.

(** What [Node.__init__] stores as the node's tensor. *)
Lemma Node_init_tpm (network : Network.t) (index : Z) (cm : option Matrix)
    (label : option string) (node : Node.t) :
  Node_init network index cm label = Ok node ->
  stacked_ok (Network.size network) (Network.size network)
             (snd (Node.tpm node)) (fst (Node.tpm node))
  /\ (valid_tpm network ->
      stacked_nonneg (snd (Node.tpm node)) (fst (Node.tpm node))).
Proof.
  unfold Node_init. intros Hn.
  apply bind_Ok in Hn as (io & _ & Hn).
  apply bind_Ok in Hn as (tpm_on & Hcol & Hn).
  unfold tpm_column in Hcol. apply bind_Ok in Hcol as (j & _ & Hcol).
  injection Hcol as <-.
  match type of Hn with
  | context [fold_left ?f (range ?n) (?on, ?off, ?l, ?c)] =>
      destruct (marginalize_fold n (fst io) n 0 on off l c)
        as (on' & off' & labels' & current' & Hfold & Hok & Hnn)
  end.
  - split; [reflexivity|]. simpl tshape.
    split; [apply length_replicate|]. split.
    + intros k Hk. rewrite nth_lookup, lookup_replicate_2 by lia. reflexivity.
    + intros s. rewrite tget_tcompl. ring.
  - reflexivity.
  - unfold range in Hn. rewrite Hfold in Hn. injection Hn as <-. simpl.
    split; [exact Hok|]. intros Hvalid. apply Hnn. intros s.
    rewrite tget_tcompl. unfold tget. simpl.
    pose proof (valid_tpm_entry network
                  (mask (replicate (Network.size network) true) s) j Hvalid).
    split; lra.
Qed.

End NodeTensorFacts.

(** ** The effect repertoire is a distribution *)

Section EffectFacts.
Context `{Collaborators}.
Variable n : nat.

Lemma sum_over_ext (D : list nat) (F G : State -> Q) (s : State) :
  (forall s', length s' = (2 * n)%nat -> (F s' == G s')%Q) ->
  length s = (2 * n)%nat ->
  (sum_over n D F s == sum_over n D G s)%Q.
Proof.
  revert F G. induction D as [|j D IH]; intros F G Hfg Hs; simpl.
  - apply Hfg, Hs.
  - apply IH; [|exact Hs]. intros s' Hs'.
    rewrite !Hfg by (unfold set_axis; rewrite length_insert; exact Hs').
    reflexivity.
Qed.

Lemma states_all_false (shape : list bool) :
  (forall k, nth k shape false = false) ->
  states shape = [replicate (length shape) false].
Proof.
  induction shape as [|b shape IH]; intros Hall; [reflexivity|].
  pose proof (Hall 0%nat) as Hb. simpl in Hb. subst b. simpl.
  rewrite IH; [reflexivity|]. intros k. apply (Hall (Datatypes.S k)).
Qed.

(** The sum over all indices of the future axes is the sum over the axes
    of size 2, taken one after the other. *)
Lemma sum_over_states (D : list nat) (shape : list bool) (G : State -> Q)
    (x : State) :
  List.NoDup D -> length shape = n -> length x = n ->
  (forall k, nth k shape false = true <-> In k D) ->
  (Qsum (map (fun y => G (x ++ y)) (states shape))
   == sum_over n D G (x ++ replicate n false))%Q.
Proof.
  revert shape G. induction D as [|j D IH]; intros shape G Hnd Hshape Hx Hiff.
  - rewrite states_all_false.
    + simpl. rewrite Hshape. ring.
    + intros k. destruct (nth k shape false) eqn:Hk; [|reflexivity].
      apply Hiff in Hk. destruct Hk.
  - inversion Hnd as [|j' D' Hj Hnd']; subst j' D'.
    assert (Hjs : nth j shape false = true) by (apply Hiff; left; reflexivity).
    rewrite (Qsum_states_split shape j (fun y => G (x ++ y)) Hjs).
    simpl sum_over.
    rewrite <- (IH (<[j := false]> shape)
                  (fun s' => G (set_axis (n + j) false s')
                             + G (set_axis (n + j) true s'))%Q Hnd').
    + apply Qsum_map_ext. intros y _. unfold set_axis.
      rewrite <- Hx, !insert_app_r. reflexivity.
    + rewrite length_insert. exact Hshape.
    + exact Hx.
    + intros k. rewrite nth_insert_false.
      destruct (decide (j = k)) as [<-|Hne].
      * split; [discriminate|]. intros Hin. contradiction.
      * rewrite Hiff. split; [intros [?|?]; [contradiction|assumption]|].
        intros Hin. right. exact Hin.
Qed.

Lemma nth_one_hot (j k : nat) :
  (j < n)%nat -> nth k (one_hot n j) false = bool_decide (j = k).
Proof.
  intros Hj. unfold one_hot. rewrite nth_lookup.
  destruct (decide (j = k)) as [<-|Hne].
  - rewrite list_lookup_insert_eq by (rewrite length_replicate; exact Hj).
    rewrite bool_decide_eq_true_2; reflexivity.
  - rewrite list_lookup_insert_ne by exact Hne.
    rewrite bool_decide_eq_false_2 by exact Hne.
    destruct (replicate n false !! k) as [b|] eqn:Hk; [|reflexivity].
    apply lookup_replicate_1 in Hk as [-> _]. reflexivity.
Qed.

Lemma nth_drop (shape : list bool) (k : nat) :
  nth k (drop n shape) false = nth (n + k) shape false.
Proof. rewrite !nth_lookup, lookup_drop. reflexivity. Qed.

Lemma factor_ok_future_axis (j k : nat) (F : Tensor) :
  (j < n)%nat -> factor_ok n j F ->
  nth (n + k) (tshape F) false = bool_decide (j = k).
Proof.
  intros Hj (_ & Hdrop & _). rewrite <- nth_drop, Hdrop.
  apply nth_one_hot, Hj.
Qed.

(** Averaging out a network axis keeps a factor a factor. *)
Lemma factor_ok_tmean (j i : nat) (F : Tensor) :
  (j < n)%nat -> (i < n)%nat -> factor_ok n j F -> factor_ok n j (tmean_axis F i).
Proof.
  intros Hj Hi HF. pose proof HF as (Hlen & Hdrop & Hsum).
  split; [|split].
  - simpl. rewrite length_insert. exact Hlen.
  - simpl. rewrite drop_insert_lt by exact Hi. exact Hdrop.
  - intros s Hs. rewrite !tget_tmean_axis. unfold set_axis.
    assert (Hlen' : forall b, length (<[i := b]> s) = (2 * n)%nat)
      by (intros b; rewrite length_insert; exact Hs).
    destruct (nth i (tshape F) false).
    + rewrite !(list_insert_insert_ne s i (n + j)) by lia.
      apply Qhalves; apply Hsum, Hlen'.
    + pose proof (Hsum s Hs) as Hs1. unfold set_axis in Hs1.
      unfold Qdiv. rewrite <- Qmult_plus_distr_l, Hs1. reflexivity.
Qed.

Variable S : Subsystem.t.
Hypothesis Hn : n = Network.size (Subsystem.network S).

Lemma node_of_facts (p : Node.t) :
  node_of S p ->
  Node.network p = Subsystem.network S
  /\ (axis_of p < n)%nat
  /\ norm_index n (Node.index p) = Ok (axis_of p)
  /\ stacked_ok n n (snd (Node.tpm p)) (fst (Node.tpm p)).
Proof.
  intros (Hpos & cm & label & Hinit).
  pose proof (Node_init_fields _ _ _ _ _ Hinit) as (Hnet & _ & _).
  pose proof (proj1 (Node_init_tpm _ _ _ _ _ Hinit)) as Hok.
  rewrite <- Hn in Hok.
  assert (Hnorm : norm_index n (Node.index p) = Ok (axis_of p)
                  /\ (axis_of p < n)%nat).
  { unfold Node_init in Hinit.
    apply bind_Ok in Hinit as (io & _ & Hinit).
    apply bind_Ok in Hinit as (tpm_on & Hcol & _).
    unfold tpm_column in Hcol. apply bind_Ok in Hcol as (j & Hj & _).
    rewrite <- Hn in Hj. revert Hj. unfold norm_index, axis_of.
    destruct (Node.index p <? 0) eqn:Hneg; [apply Z.ltb_lt in Hneg; lia|].
    destruct (_ && _) eqn:Hrange; [|discriminate].
    apply andb_true_iff in Hrange as [_ Hlt]. apply Z.ltb_lt in Hlt.
    intros _. split; [reflexivity|lia]. }
  destruct Hnorm as [Hnorm Hlt]. auto.
Qed.

Lemma Network_nodes_node_of (all : list Node.t) (k : nat) (node : Node.t) :
  Network_nodes (Subsystem.network S) = Ok all ->
  all !! k = Some node ->
  node_of S node /\ axis_of node = k.
Proof.
  intros Hall Hk.
  destruct (Network_nodes_fields _ _ _ _ Hall Hk) as [Hnet Hidx].
  unfold Network_nodes in Hall. apply mapM_Ok_Forall2 in Hall.
  destruct (Forall2_lookup_r _ _ _ _ _ Hall Hk) as (i & Hi & Hnode).
  apply Node_init_fields in Hnode as Hfields.
  destruct Hfields as (_ & Hi' & _). rewrite <- Hi' in Hnode.
  split.
  - split; [rewrite Hidx; lia|]. eauto.
  - unfold axis_of. rewrite Hidx. apply Nat2Z.id.
Qed.

Lemma Network_nodes_length (all : list Node.t) :
  Network_nodes (Subsystem.network S) = Ok all -> length all = n.
Proof.
  unfold Network_nodes. intros Hall. apply mapM_Ok_Forall2 in Hall.
  apply Forall2_length in Hall. rewrite <- Hall. unfold range.
  rewrite length_map, length_seq. symmetry. exact Hn.
Qed.

Lemma Network_nodes_In (all : list Node.t) (node : Node.t) :
  Network_nodes (Subsystem.network S) = Ok all -> In node all -> node_of S node.
Proof.
  intros Hall Hin. apply list_elem_of_In, list_elem_of_lookup in Hin as [k Hk].
  exact (proj1 (Network_nodes_node_of all k node Hall Hk)).
Qed.

Lemma Node_inputs_node_of (p : Node.t) (inputs : list Node.t) :
  node_of S p -> Node_inputs p = Ok inputs ->
  forall node, In node inputs -> node_of S node.
Proof.
  intros Hp Hin node Hnode. unfold Node_inputs in Hin.
  rewrite (proj1 (node_of_facts p Hp)) in Hin.
  apply bind_Ok in Hin as (all & Hall & Hin). injection Hin as <-.
  apply filter_In in Hnode as [Hnode _].
  exact (Network_nodes_In all node Hall Hnode).
Qed.

(** The rearranged tensor of a node is a factor for the node's axis. *)
Lemma effect_factor_ok (p : Node.t) (E : Tensor) :
  node_of S p -> effect_factor S p = Ok E -> factor_ok n (axis_of p) E.
Proof.
  intros Hp HE.
  destruct (node_of_facts p Hp) as (_ & Hlt & Hnorm & Hs & Hl & _ & Hsum).
  unfold effect_factor in HE. rewrite <- Hn, Hnorm in HE. simpl in HE.
  injection HE as <-. rewrite Hl.
  set (j := axis_of p) in *.
  assert (Hhot : length (one_hot n j) = n)
    by (unfold one_hot; rewrite length_insert; apply length_replicate).
  split; [|split].
  - simpl. rewrite length_app, Hl, Hhot. lia.
  - simpl. apply drop_app_length'. symmetry. exact Hl.
  - intros s Hlen.
    assert (Haxis : nth (n + j) (tshape (snd (Node.tpm p)) ++ one_hot n j) false
                    = true).
    { rewrite app_nth2 by lia. rewrite Hl.
      replace (n + j - n)%nat with j by lia.
      rewrite nth_one_hot by exact Hlt.
      apply bool_decide_eq_true_2. reflexivity. }
    assert (Hread : forall b,
               tget (mkTensor (tshape (snd (Node.tpm p)) ++ one_hot n j)
                       (fun s0 => if nth (n + j) s0 false
                                  then tget (snd (Node.tpm p)) (take n s0)
                                  else tget (fst (Node.tpm p)) (take n s0)))
                    (set_axis (n + j) b s)
               = if b
                 then tget (snd (Node.tpm p))
                        (take n (mask (tshape (snd (Node.tpm p)) ++ one_hot n j) s))
                 else tget (fst (Node.tpm p))
                        (take n (mask (tshape (snd (Node.tpm p)) ++ one_hot n j) s))).
    { intros b. unfold tget at 1, set_axis. simpl tshape. simpl tat.
      rewrite mask_insert, Haxis. simpl andb.
      rewrite take_insert_ge by lia.
      rewrite nth_lookup, list_lookup_insert_eq
        by (rewrite mask_length; lia).
      reflexivity. }
    rewrite !Hread. apply Hsum.
Qed.

Lemma fold_tmean_factor (j : nat) (nodes : list Node.t) (F : Tensor) :
  (j < n)%nat -> (forall node, In node nodes -> (axis_of node < n)%nat) ->
  factor_ok n j F ->
  factor_ok n j (fold_left (fun t node => tmean_axis t (axis_of node)) nodes F).
Proof.
  intros Hj. revert F. induction nodes as [|node nodes IH]; intros F Hax HF.
  - exact HF.
  - simpl. apply IH.
    + intros node' Hin. apply Hax. right. exact Hin.
    + apply factor_ok_tmean; [exact Hj| |exact HF]. apply Hax. left. reflexivity.
Qed.

Lemma drop_or_shape (k : nat) (a b : list bool) :
  drop k (or_shape a b) = or_shape (drop k a) (drop k b).
Proof.
  revert a b. induction k as [|k IH]; intros a b; [reflexivity|].
  destruct a as [|x a], b as [|y b]; simpl; try reflexivity;
    [destruct (drop k a); reflexivity|apply IH].
Qed.

Lemma or_shape_one_hot (pshape : list bool) (j : nat) :
  length pshape = n -> (j < n)%nat -> nth j pshape false = true ->
  or_shape pshape (one_hot n j) = pshape.
Proof.
  intros Hlen Hj Hset.
  assert (Hhot : length (one_hot n j) = n)
    by (unfold one_hot; rewrite length_insert; apply length_replicate).
  apply (nth_ext _ _ false false).
  - rewrite length_or_shape, Hlen, Hhot. lia.
  - intros k _. rewrite nth_or_shape, nth_one_hot by exact Hj.
    destruct (decide (j = k)) as [<-|Hne].
    + rewrite Hset. reflexivity.
    + rewrite bool_decide_eq_false_2 by exact Hne. apply orb_false_r.
Qed.

Lemma acc_ok_tmul (pshape : list bool) (D : list nat) (acc M : Tensor) (j : nat) :
  length pshape = n -> (j < n)%nat -> ~ In j D ->
  nth j pshape false = true ->
  acc_ok n pshape D acc -> factor_ok n j M ->
  acc_ok n pshape (j :: D) (tmul acc M).
Proof.
  intros Hlen Hj Hfresh Hset (Hal & Had & Hind & Hsum) HM.
  pose proof HM as (Hml & Hmd & Hmsum).
  split; [|split; [|split]].
  - simpl. rewrite length_or_shape, Hal, Hml. lia.
  - simpl. rewrite drop_or_shape, Had, Hmd.
    apply or_shape_one_hot; assumption.
  - intros k b s Hk. rewrite !tget_tmul.
    rewrite (Hind k b s) by (intros Hin; apply Hk; right; exact Hin).
    rewrite (tget_singleton_axis M); [reflexivity|].
    rewrite (factor_ok_future_axis j k M Hj HM).
    apply bool_decide_eq_false_2. intros ->. apply Hk. left. reflexivity.
  - intros s Hs. cbn [sum_over].
    rewrite (sum_over_ext D _ (tget acc) s); [apply Hsum, Hs| |exact Hs].
    intros s' Hs'. cbv beta. rewrite !tget_tmul.
    rewrite !(Hind j _ s' Hfresh).
    rewrite <- Qmult_plus_distr_r, (Hmsum s' Hs'). ring.
Qed.

Lemma effect_fold (mechanism : list Node.t) (pshape : list bool)
    (L : list Node.t) :
  length pshape = n ->
  forall (acc : Tensor) (D : list nat) (acc' : Tensor),
    acc_ok n pshape D acc ->
    (forall p, In p L -> node_of S p) ->
    List.NoDup (map axis_of L) ->
    (forall p, In p L -> ~ In (axis_of p) D) ->
    (forall p, In p L -> nth (axis_of p) pshape false = true) ->
    foldM (effect_step S mechanism) L acc = Ok acc' ->
    acc_ok n pshape (rev (map axis_of L) ++ D) acc'.
Proof.
  intros Hlen. induction L as [|p L IH];
    intros acc D acc' Hacc Hnodes Hnd Hfresh Hset Hfold.
  - simpl in Hfold. injection Hfold as <-. exact Hacc.
  - simpl in Hfold. apply bind_Ok in Hfold as (acc1 & Hstep & Hfold).
    assert (Hp : node_of S p) by (apply Hnodes; left; reflexivity).
    destruct (node_of_facts p Hp) as (_ & Hlt & _).
    unfold effect_step in Hstep.
    apply bind_Ok in Hstep as (inputs & Hinputs & Hstep).
    apply bind_Ok in Hstep as (E & HE & Hstep). injection Hstep as <-.
    inversion Hnd as [|x' l' Hp_fresh Hnd']; subst x' l'.
    simpl map. simpl rev. rewrite <- app_assoc. simpl app.
    refine (IH _ (axis_of p :: D) acc' _ _ Hnd' _ _ Hfold).
    + apply acc_ok_tmul; try assumption.
      * apply Hfresh. left. reflexivity.
      * apply Hset. left. reflexivity.
      * apply fold_tmean_factor; [exact Hlt| |].
        -- intros node Hin. apply filter_In in Hin as [Hin _].
           pose proof (Node_inputs_node_of p inputs Hp Hinputs node Hin) as Hnode.
           exact (proj1 (proj2 (node_of_facts node Hnode))).
        -- apply effect_factor_ok; assumption.
    + intros q Hq. apply Hnodes. right. exact Hq.
    + intros q Hq [Heq|Hin].
      * apply Hp_fresh. rewrite Heq. apply in_map. exact Hq.
      * apply (Hfresh q); [right; exact Hq|exact Hin].
    + intros q Hq. apply Hset. right. exact Hq.
Qed.

(** The nodes kept by [validate.nodelist] are among the given ones, in
    strictly increasing order of index. *)
Lemma insert_node_increasing (x : Node.t) (l : list Node.t) :
  (forall y, In y (x :: l) -> Node.network y = Subsystem.network S) ->
  StronglySorted Z.lt (map Node.index l) ->
  StronglySorted Z.lt (map Node.index (insert_node x l))
  /\ (forall y, In y (insert_node x l) -> y = x \/ In y l).
Proof.
  intros Hnet. induction l as [|y l IH]; intros Hsorted.
  - simpl. split; [repeat constructor|]. intros y [<-|[]]. left. reflexivity.
  - simpl. unfold Node_lt, Node_eq.
    assert (Hxy : Node.network x = Node.network y).
    { rewrite !Hnet; [reflexivity|right; left; reflexivity|left; reflexivity]. }
    inversion Hsorted as [|? ? Hs Hall]; subst.
    destruct (Node.index x <? Node.index y) eqn:Hlt.
    + apply Z.ltb_lt in Hlt. split.
      * simpl. constructor; [exact Hsorted|].
        constructor; [exact Hlt|].
        eapply Forall_impl; [exact Hall|]. simpl. intros z Hz. lia.
      * intros z [<-|Hz]; [left; reflexivity|right; exact Hz].
    + apply Z.ltb_ge in Hlt.
      rewrite (bool_decide_eq_true_2 _ Hxy), andb_true_r.
      destruct (Node.index x =? Node.index y) eqn:Heq.
      * split; [exact Hsorted|]. intros z Hz. right. exact Hz.
      * apply Z.eqb_neq in Heq.
        destruct IH as [IHs IHin]; [|exact Hs|].
        { intros z [<-|Hz]; apply Hnet; [left; reflexivity|right; right; exact Hz]. }
        split.
        -- simpl. constructor; [exact IHs|].
           apply List.Forall_forall. intros z Hz.
           apply in_map_iff in Hz as (q & <- & Hq).
           destruct (IHin q Hq) as [->|Hq']; [lia|].
           apply (proj1 (List.Forall_forall _ _) Hall).
           apply in_map. exact Hq'.
        -- intros z [<-|Hz]; [right; left; reflexivity|].
           destruct (IHin z Hz) as [->|Hz']; [left; reflexivity|].
           right. right. exact Hz'.
Qed.

Lemma validate_nodelist_nodes (L : list Node.t) :
  (forall p, In p L -> node_of S p) ->
  (forall p, In p (validate_nodelist L) -> In p L)
  /\ StronglySorted Z.lt (map Node.index (validate_nodelist L)).
Proof.
  induction L as [|x L IH]; intros Hnodes.
  - simpl. split; [auto|constructor].
  - destruct IH as [IHin IHs].
    { intros p Hp. apply Hnodes. right. exact Hp. }
    simpl. destruct (insert_node_increasing x (validate_nodelist L)) as [Hs Hin];
      [|exact IHs|].
    + intros y [<-|Hy].
      * exact (proj1 (node_of_facts _ (Hnodes _ (or_introl eq_refl)))).
      * exact (proj1 (node_of_facts _ (Hnodes _ (or_intror (IHin _ Hy))))).
    + split; [|exact Hs]. intros p Hp.
      destruct (Hin p Hp) as [->|Hp']; [left; reflexivity|].
      right. apply IHin, Hp'.
Qed.

Lemma increasing_NoDup_axes (idxs : list Z) :
  StronglySorted Z.lt idxs -> Forall (fun i => 0 <= i) idxs ->
  List.NoDup (map Z.to_nat idxs).
Proof.
  induction 1 as [|i idxs Hs IH Hall]; intros Hpos; [constructor|].
  inversion Hpos as [|? ? Hi Hpos']; subst. simpl. constructor.
  - intros Hin. apply in_map_iff in Hin as (z & Hz & Hin).
    pose proof (proj1 (List.Forall_forall _ _) Hall z Hin) as Hlt.
    pose proof (proj1 (List.Forall_forall _ _) Hpos' z Hin) as Hz0.
    simpl in Hz0. lia.
  - apply IH, Hpos'.
Qed.

Lemma validate_nodelist_axes (L : list Node.t) :
  (forall p, In p L -> node_of S p) ->
  (forall p, In p (validate_nodelist L) -> node_of S p)
  /\ List.NoDup (map axis_of (validate_nodelist L)).
Proof.
  intros Hnodes. destruct (validate_nodelist_nodes L Hnodes) as [Hin Hs].
  assert (Hv : forall p, In p (validate_nodelist L) -> node_of S p)
    by (intros p Hp; apply Hnodes, Hin, Hp).
  split; [exact Hv|].
  replace (map axis_of (validate_nodelist L))
    with (map Z.to_nat (map Node.index (validate_nodelist L)))
    by (rewrite map_map; reflexivity).
  apply increasing_NoDup_axes; [exact Hs|].
  apply List.Forall_forall. intros z Hz.
  apply in_map_iff in Hz as (p & <- & Hp). exact (proj1 (Hv p Hp)).
Qed.

(** The shape over the future axes: the axes of the purview's nodes. *)
Lemma purview_shape_spec (purview : list Node.t) (pshape : list bool) :
  (forall p, In p purview -> node_of S p) ->
  purview_shape (Subsystem.network S) purview = Ok pshape ->
  length pshape = n
  /\ (forall k, nth k pshape false = true <-> In k (map axis_of purview)).
Proof.
  intros Hnodes Hshape. unfold purview_shape in Hshape.
  apply bind_Ok in Hshape as (all & Hall & Hshape). injection Hshape as <-.
  pose proof (Network_nodes_length all Hall) as Hlen.
  split; [rewrite length_map; exact Hlen|].
  intros k. rewrite nth_lookup, list_lookup_fmap. split.
  - destruct (all !! k) as [node|] eqn:Hk; [|discriminate]. simpl.
    intros Hin. unfold Node_in in Hin. apply existsb_exists in Hin as (p & Hp & Heq).
    unfold Node_eq in Heq. apply andb_true_iff in Heq as [Heq _].
    apply Z.eqb_eq in Heq.
    destruct (Network_nodes_node_of all k node Hall Hk) as [_ Hax].
    apply in_map_iff. exists p. split; [|exact Hp].
    unfold axis_of in *. rewrite <- Heq. exact Hax.
  - intros Hin. apply in_map_iff in Hin as (p & <- & Hp).
    pose proof (Hnodes p Hp) as Hnode.
    destruct (node_of_facts p Hnode) as (Hnet & Hlt & _).
    rewrite <- Hlen in Hlt. apply lookup_lt_is_Some_2 in Hlt as [node Hk].
    rewrite Hk. simpl.
    destruct (Network_nodes_node_of all _ node Hall Hk) as [Hnode' Hax].
    unfold Node_in. apply existsb_exists. exists p. split; [exact Hp|].
    apply Node_eq_of_fields.
    + destruct Hnode as [Hpos _], Hnode' as [Hpos' _].
      unfold axis_of in Hax. lia.
    + rewrite Hnet. exact (proj1 (node_of_facts node Hnode')).
Qed.

Lemma cond_ok_of_acc (pshape : list bool) (D : list nat) (acc : Tensor) :
  length pshape = n -> List.NoDup D ->
  (forall k, nth k pshape false = true <-> In k D) ->
  acc_ok n pshape D acc -> cond_ok n pshape acc.
Proof.
  intros Hlen Hnd Hiff (Hal & Had & _ & Hsum).
  split; [exact Hal|]. split; [exact Had|]. intros x Hx.
  rewrite (sum_over_states D pshape (tget acc) x Hnd Hlen Hx Hiff).
  apply Hsum. rewrite length_app, length_replicate, Hx. lia.
Qed.

Lemma cond_ok_tselect (pshape : list bool) (T : Tensor) (i : nat) (b : bool) :
  (i < n)%nat -> cond_ok n pshape T -> cond_ok n pshape (tselect T i b).
Proof.
  intros Hi (Hl & Hd & Hsum). split; [|split].
  - simpl. rewrite length_insert. exact Hl.
  - simpl. rewrite drop_insert_lt by exact Hi. exact Hd.
  - intros x Hx.
    rewrite (Qsum_map_ext _ (fun y => tget T (<[i := b]> x ++ y))).
    + apply Hsum. rewrite length_insert. exact Hx.
    + intros y _. rewrite tget_tselect. unfold set_axis.
      rewrite insert_app_l by lia. reflexivity.
Qed.

Lemma cond_fold (state : list Z) (pshape : list bool) (nodes : list Node.t)
    (T T' : Tensor) :
  (forall node, In node nodes -> (axis_of node < n)%nat) ->
  cond_ok n pshape T ->
  foldM (fun t node => v ← py_index state (Node.index node);
                       tselect_py t (axis_of node) v) nodes T = Ok T' ->
  cond_ok n pshape T'.
Proof.
  revert T. induction nodes as [|node nodes IH]; intros T Hax HT Hfold.
  - simpl in Hfold. injection Hfold as <-. exact HT.
  - simpl in Hfold. apply bind_Ok in Hfold as (T1 & Hstep & Hfold).
    apply bind_Ok in Hstep as (v & _ & Hstep). unfold tselect_py in Hstep.
    apply bind_Ok in Hstep as (j & _ & Hstep). injection Hstep as <-.
    refine (IH _ (fun q Hq => Hax q (or_intror Hq)) _ Hfold).
    apply cond_ok_tselect; [|exact HT]. apply Hax. left. reflexivity.
Qed.

Lemma inputs_union_node_of (L U : list Node.t) :
  (forall p, In p L -> node_of S p) -> inputs_union L = Ok U ->
  forall u, In u U -> node_of S u.
Proof.
  revert U. induction L as [|p L IH]; intros U Hnodes HU u Hu.
  - simpl in HU. injection HU as <-. destruct Hu.
  - simpl in HU. apply bind_Ok in HU as (inputs & Hin & HU).
    apply bind_Ok in HU as (others & Hothers & HU). injection HU as <-.
    apply in_app_or in Hu as [Hu|Hu].
    + exact (Node_inputs_node_of p inputs (Hnodes p (or_introl eq_refl)) Hin u Hu).
    + apply filter_In in Hu as [Hu _].
      exact (IH others (fun q Hq => Hnodes q (or_intror Hq)) Hothers u Hu).
Qed.

(** The effect repertoire of nodes of the network sums to 1. *)
Lemma effect_repertoire_sums_to_one (mechanism purview : list Node.t)
    (r : Tensor) :
  (forall p, In p purview -> node_of S p) ->
  effect_repertoire S mechanism purview = Ok r ->
  (tsum r == 1)%Q.
Proof.
  intros Hnodes Hr. unfold effect_repertoire in Hr. cbv zeta in Hr.
  rewrite <- Hn in Hr.
  destruct (validate_nodelist_axes purview Hnodes) as [Hv Hnd].
  destruct (validate_nodelist purview) as [|p0 purview'] eqn:Hpurview.
  { injection Hr as <-. vm_compute. reflexivity. }
  rewrite <- Hpurview in *. clear Hpurview p0 purview'.
  set (purview' := validate_nodelist purview) in *.
  apply bind_Ok in Hr as (acc & Hacc & Hr).
  apply bind_Ok in Hr as (U & HU & Hr).
  apply bind_Ok in Hr as (all & Hall & Hr).
  apply bind_Ok in Hr as (acc' & Hcond & Hr).
  destruct (existsb _ _); [discriminate|]. injection Hr as <-.
  unfold effect_accumulate in Hacc. rewrite <- Hn in Hacc.
  apply bind_Ok in Hacc as (pshape & Hshape & Hacc).
  destruct (purview_shape_spec purview' pshape Hv Hshape) as [Hlen Hiff].
  assert (Hok : acc_ok n pshape (rev (map axis_of purview') ++ []) acc).
  { apply (effect_fold (validate_nodelist mechanism) pshape purview' Hlen
             (tones (replicate n false ++ pshape)) [] acc); try assumption.
    - split; [|split; [|split]].
      + simpl. rewrite length_app, length_replicate, Hlen. lia.
      + simpl. apply drop_app_length'. rewrite length_replicate. reflexivity.
      + intros j b s _. reflexivity.
      + intros s _. reflexivity.
    - intros p _ [].
    - intros p Hp. apply Hiff. apply in_map. exact Hp. }
  rewrite app_nil_r in Hok.
  assert (Hcok : cond_ok n pshape acc).
  { apply (cond_ok_of_acc pshape (rev (map axis_of purview'))); try assumption.
    - apply NoDup_rev. exact Hnd.
    - intros k. rewrite Hiff. apply in_rev. }
  assert (Hcok' : cond_ok n pshape acc').
  { refine (cond_fold _ pshape _ acc acc' _ Hcok Hcond).
    intros node Hin. apply filter_In in Hin as [Hin _].
    pose proof (inputs_union_node_of purview' U Hv HU node Hin) as Hnode.
    exact (proj1 (proj2 (node_of_facts node Hnode))). }
  destruct Hcok' as (_ & Hd & Hsum).
  unfold tsum. cbn [tshape].
  generalize dependent (drop n (tshape acc')). intros shape' ->.
  rewrite <- (Hsum (replicate n false)) by apply length_replicate.
  apply Qsum_map_ext. intros y Hy. unfold tget at 1. cbn [tshape tat].
  rewrite (mask_states pshape y Hy). reflexivity.
Qed.

End EffectFacts.

(** ** The cause repertoire *)

Section CauseFacts.
Context `{Collaborators}.

Lemma py_index_In {A} (l : list A) (i : Z) (x : A) :
  py_index l i = Ok x -> In x l.
Proof.
  unfold py_index. destruct (_ && _); [|discriminate].
  destruct (l !! _) as [y|] eqn:Hy; [|discriminate].
  intros Hx. injection Hx as <-.
  apply list_elem_of_In. eapply list_elem_of_lookup_2. exact Hy.
Qed.

Lemma tnonneg_tmean (t : Tensor) (i : nat) : tnonneg t -> tnonneg (tmean_axis t i).
Proof.
  intros Ht s. rewrite tget_tmean_axis.
  destruct (nth i (tshape t) false).
  - pose proof (Ht (set_axis i false s)). pose proof (Ht (set_axis i true s)).
    apply Qle_shift_div_l; lra.
  - pose proof (Ht s). apply Qle_shift_div_l; lra.
Qed.

Lemma tnonneg_select_fold (state : list Z) (nodes : list Node.t) (t t' : Tensor) :
  tnonneg t ->
  foldM (fun t node => v ← py_index state (Node.index node);
                       tselect_py t (axis_of node) v) nodes t = Ok t' ->
  tnonneg t'.
Proof.
  revert t. induction nodes as [|node nodes IH]; intros t Ht Hfold.
  - simpl in Hfold. injection Hfold as <-. exact Ht.
  - simpl in Hfold. apply bind_Ok in Hfold as (t1 & Hstep & Hfold).
    apply bind_Ok in Hstep as (v & _ & Hstep). unfold tselect_py in Hstep.
    apply bind_Ok in Hstep as (j & _ & Hstep). injection Hstep as <-.
    refine (IH _ _ Hfold). intros s. rewrite tget_tselect. apply Ht.
Qed.

Lemma tnonneg_mean_fold (nodes : list Node.t) (t : Tensor) :
  tnonneg t ->
  tnonneg (fold_left (fun t node => tmean_axis t (axis_of node)) nodes t).
Proof.
  revert t. induction nodes as [|node nodes IH]; intros t Ht; [exact Ht|].
  simpl. apply IH, tnonneg_tmean, Ht.
Qed.

(** The conditional joint distribution of nodes with nonnegative tensors
    is nonnegative. *)
Lemma cause_cjd_nonneg (S : Subsystem.t) (mechanism purview : list Node.t)
    (cjd : Tensor) :
  (forall p, In p mechanism ->
             tnonneg (fst (Node.tpm p)) /\ tnonneg (snd (Node.tpm p))) ->
  cause_cjd S mechanism purview = Ok cjd -> tnonneg cjd.
Proof.
  intros Hnodes Hcjd. unfold cause_cjd in Hcjd.
  apply bind_Ok in Hcjd as (shape & _ & Hcjd).
  assert (Hstart : tnonneg (tones shape)) by (intros s; rewrite tget_tones; lra).
  revert Hstart Hcjd. generalize (tones shape).
  induction mechanism as [|p mechanism IH]; intros acc Hacc Hfold.
  - simpl in Hfold. injection Hfold as <-. exact Hacc.
  - simpl in Hfold. apply bind_Ok in Hfold as (acc1 & Hstep & Hfold).
    refine (IH (fun q Hq => Hnodes q (or_intror Hq)) acc1 _ Hfold).
    unfold cause_step in Hstep.
    apply bind_Ok in Hstep as (inputs & _ & Hstep).
    apply bind_Ok in Hstep as (node_state & _ & Hstep).
    apply bind_Ok in Hstep as (conditioned & Hcond & Hstep).
    apply bind_Ok in Hstep as (all & _ & Hstep).
    apply bind_Ok in Hstep as (conditioned' & Hsel & Hstep).
    unfold tmul_inplace in Hstep.
    destruct (bool_decide _); [|discriminate]. injection Hstep as <-.
    assert (Hc : tnonneg conditioned).
    { destruct (Hnodes p (or_introl eq_refl)) as [Hoff Hon].
      apply py_index_In in Hcond. destruct Hcond as [<-|[<-|[]]]; assumption. }
    pose proof (tnonneg_select_fold _ _ _ _ Hc Hsel) as Hc'.
    intros s. rewrite tget_tmul.
    apply Qmult_le_0_compat; [apply Hacc|].
    apply tnonneg_mean_fold, Hc'.
Qed.

Lemma tsum_zero_entries (t : Tensor) :
  tnonneg t -> (tsum t == 0)%Q ->
  forall s, In s (states (tshape t)) -> (tget t s == 0)%Q.
Proof.
  intros Ht Hsum s Hs. unfold tsum in Hsum.
  apply Qsum_zero_nonneg in Hsum.
  - apply (proj1 (List.Forall_forall _ _) Hsum). apply in_map. exact Hs.
  - apply List.Forall_forall. intros q Hq.
    apply in_map_iff in Hq as (s' & <- & _). apply Ht.
Qed.

Lemma count_true_all_false (shape : list bool) :
  (forall k, nth k shape false = false) -> count_true shape = 0%nat.
Proof.
  induction shape as [|b shape IH]; intros Hall; [reflexivity|].
  pose proof (Hall 0%nat) as Hb. simpl in Hb. subst b.
  unfold count_true. simpl. apply IH. intros k. apply (Hall (Datatypes.S k)).
Qed.

Lemma tsum_scalar_one (t : Tensor) : is_scalar_one t -> (tsum t == 1)%Q.
Proof.
  intros [Hshape Hone]. unfold tsum. rewrite states_all_false by exact Hshape.
  simpl. rewrite Hone. ring.
Qed.

Lemma max_entropy_empty (network : Network.t) (t : Tensor) :
  max_entropy_distribution [] network = Ok t -> is_scalar_one t.
Proof.
  unfold max_entropy_distribution, purview_shape. intros Ht.
  apply bind_Ok in Ht as (shape & Hshape & Ht). injection Ht as <-.
  apply bind_Ok in Hshape as (all & _ & Hshape). injection Hshape as <-.
  assert (Hfalse : forall k, nth k (map (fun node => Node_in node []) all) false
                             = false).
  { intros k. rewrite nth_lookup, list_lookup_fmap.
    destruct (all !! k); reflexivity. }
  split; [exact Hfalse|]. intros s.
  rewrite tget_tdiv, tget_tones.
  erewrite count_true_all_false; [reflexivity|exact Hfalse].
Qed.

(** What [cause_repertoire] returns. *)
Lemma cause_repertoire_cases (S : Subsystem.t) (mechanism purview : list Node.t)
    (r : Tensor) :
  cause_repertoire S mechanism purview = Ok r ->
  (validate_nodelist mechanism = []
   /\ max_entropy_distribution (validate_nodelist purview)
                               (Subsystem.network S) = Ok r)
  \/ (validate_nodelist mechanism <> [] /\ validate_nodelist purview = []
      /\ r = tscalar_one)
  \/ (validate_nodelist mechanism <> [] /\ validate_nodelist purview <> []
      /\ exists cjd,
           cause_cjd S (validate_nodelist mechanism) (validate_nodelist purview)
           = Ok cjd
           /\ ((~ (tsum cjd == 0)%Q /\ r = tdiv cjd (tsum cjd))
               \/ ((tsum cjd == 0)%Q /\ r = cjd))).
Proof.
  unfold cause_repertoire.
  destruct (validate_nodelist mechanism) as [|m ms] eqn:Hm; [auto|].
  destruct (validate_nodelist purview) as [|p ps] eqn:Hp.
  - intros Hr. injection Hr as <-. right. left. repeat split. discriminate.
  - intros Hr. apply bind_Ok in Hr as (cjd & Hcjd & Hr).
    right. right. split; [discriminate|]. split; [discriminate|].
    exists cjd. split; [exact Hcjd|].
    destruct (Qeq_bool (tsum cjd) 0) eqn:Hz; simpl in Hr; injection Hr as <-.
    + right. split; [apply Qeq_bool_eq, Hz|reflexivity].
    + left. split; [|reflexivity]. intros H0.
      apply Qeq_eq_bool in H0. congruence.
Qed.

Lemma cause_repertoire_sum (S : Subsystem.t) (mechanism purview : list Node.t)
    (r : Tensor) :
  cause_repertoire S mechanism purview = Ok r ->
  (tsum r == 1)%Q
  \/ ((tsum r == 0)%Q
      /\ cause_cjd S (validate_nodelist mechanism) (validate_nodelist purview)
         = Ok r).
Proof.
  intros Hr.
  destruct (cause_repertoire_cases S mechanism purview r Hr)
    as [[_ Hmax]|[(_ & _ & ->)|(_ & _ & cjd & Hcjd & [[Hnz ->]|[Hz ->]])]].
  - left. unfold max_entropy_distribution in Hmax.
    apply bind_Ok in Hmax as (shape & _ & Hmax). injection Hmax as <-.
    apply tsum_uniform.
  - left. vm_compute. reflexivity.
  - left. apply tsum_normalized, Hnz.
  - right. split; [exact Hz|exact Hcjd].
Qed.


Lemma insert_node_In (x y : Node.t) (l : list Node.t) :
  In y (insert_node x l) -> y = x \/ In y l.
Proof.
  induction l as [|z l IH]; simpl.
  - intros [<-|[]]. left. reflexivity.
  - destruct (Node_lt x z).
    + intros [<-|Hy]; [left; reflexivity|right; exact Hy].
    + destruct (Node_eq x z).
      * intros Hy. right. exact Hy.
      * intros [<-|Hy]; [right; left; reflexivity|].
        destruct (IH Hy) as [->|Hl]; [left; reflexivity|right; right; exact Hl].
Qed.

Lemma validate_nodelist_In (L : list Node.t) (p : Node.t) :
  In p (validate_nodelist L) -> In p L.
Proof.
  induction L as [|x L IH]; simpl; [auto|].
  intros Hp. destruct (insert_node_In _ _ _ Hp) as [->|Hl];
    [left; reflexivity|right; exact (IH Hl)].
Qed.

(** The tensors of a node of a network whose transition probabilities are
    probabilities. *)
Lemma node_of_nonneg (S : Subsystem.t) (p : Node.t) :
  valid_tpm (Subsystem.network S) -> node_of S p ->
  tnonneg (fst (Node.tpm p)) /\ tnonneg (snd (Node.tpm p)).
Proof.
  intros Hvalid (_ & cm & label & Hinit).
  pose proof (proj2 (Node_init_tpm _ _ _ _ _ Hinit) Hvalid) as Hnn.
  split; intros s; apply (Hnn s).
Qed.

(** The nodes of a subsystem are nodes of its network. *)
Lemma Subsystem_init_node_of (node_indices cs ps : list Z) (network : Network.t)
    (cut : option Cut.t) (S : Subsystem.t) :
  Forall (fun i => 0 <= i) node_indices ->
  Subsystem_init node_indices cs ps network cut = Ok S ->
  forall p, In p (Subsystem.nodes S) -> node_of S p.
Proof.
  intros Hpos HS.
  destruct (Subsystem_init_nodes _ _ _ _ _ _ Hpos HS) as (_ & _ & Hnet & _ & _).
  unfold Subsystem_init in HS.
  apply bind_Ok in HS as ([[nodes cm] c] & Hbuilt & HS).
  assert (Hnodes : Subsystem.nodes S = nodes) by (injection HS as <-; reflexivity).
  rewrite Hnodes. clear HS Hnodes.
  apply (sorted_set_Forall _ _) in Hpos.
  destruct cut as [c0|].
  - apply bind_Ok in Hbuilt as (ns & Hns & Hbuilt). injection Hbuilt as <- _ _.
    apply mapM_Ok_Forall2 in Hns. intros p Hp.
    apply list_elem_of_In, list_elem_of_lookup in Hp as [k Hk].
    destruct (Forall2_lookup_r _ _ _ _ _ Hns Hk) as (i & Hi & Hinit).
    pose proof (Node_init_fields _ _ _ _ _ Hinit) as (_ & Hidx & _).
    split.
    + rewrite Hidx.
      exact (proj1 (List.Forall_forall _ _) Hpos i
               (proj1 (list_elem_of_In _ _) (list_elem_of_lookup_2 _ _ _ Hi))).
    + rewrite Hnet, Hidx. eauto.
  - apply bind_Ok in Hbuilt as (ns & Hns & Hbuilt). injection Hbuilt as <- _ _.
    apply mapM_Ok_Forall2 in Hns. intros p Hp.
    apply list_elem_of_In, list_elem_of_lookup in Hp as [k Hk].
    destruct (Forall2_lookup_r _ _ _ _ _ Hns Hk) as (i & _ & Hp).
    apply bind_Ok in Hp as (all & Hall & Hp). apply py_index_In in Hp.
    rewrite <- Hnet in Hall.
    exact (Network_nodes_In _ S eq_refl all p Hall Hp).
Qed.

End CauseFacts.

Section RepertoireClaims.
Context `{Collaborators}.

(** C8.  In both directions an empty purview gives the repertoire
    [np.array([1])]; with an empty mechanism as well, the cause repertoire
    is the uniform distribution over no element, an array whose axes all
    have size 1 and whose single entry is 1.  An effect repertoire over
    nodes of the network sums to 1, and so does a cause repertoire unless
    it is the conditional joint distribution itself, of sum 0.  Once the
    conditional joint distribution is computed the normalisation step does
    not raise: it divides by the sum when it is not 0 and returns the
    distribution as is when it is 0; in a network whose transition
    probabilities are probabilities, every entry of that distribution is
    then 0.  Floats are rationals here, so that the sums are exact. *)
Theorem C8_repertoires_are_normalised (S : Subsystem.t)
    (mechanism purview : list Node.t) :
  effect_repertoire S mechanism [] = Ok tscalar_one
  /\ (validate_nodelist mechanism <> [] ->
      cause_repertoire S mechanism [] = Ok tscalar_one)
  /\ (returns (Network_nodes (Subsystem.network S)) = true ->
      exists r, cause_repertoire S mechanism [] = Ok r /\ is_scalar_one r)
  /\ (forall r, (forall p, In p purview -> node_of S p) ->
        effect_repertoire S mechanism purview = Ok r -> (tsum r == 1)%Q)
  /\ (forall r, cause_repertoire S mechanism purview = Ok r ->
        (tsum r == 1)%Q
        \/ ((tsum r == 0)%Q
            /\ cause_cjd S (validate_nodelist mechanism)
                         (validate_nodelist purview) = Ok r))
  /\ (forall cjd,
        validate_nodelist mechanism <> [] -> validate_nodelist purview <> [] ->
        cause_cjd S (validate_nodelist mechanism) (validate_nodelist purview)
        = Ok cjd ->
        (~ (tsum cjd == 0)%Q ->
         cause_repertoire S mechanism purview = Ok (tdiv cjd (tsum cjd))
         /\ (tsum (tdiv cjd (tsum cjd)) == 1)%Q)
        /\ ((tsum cjd == 0)%Q ->
            cause_repertoire S mechanism purview = Ok cjd
            /\ (valid_tpm (Subsystem.network S) ->
                (forall p, In p mechanism -> node_of S p) ->
                forall s, In s (states (tshape cjd)) -> (tget cjd s == 0)%Q))).
Proof.
  split; [reflexivity|].
  split.
  { intros Hm. unfold cause_repertoire. simpl validate_nodelist at 2.
    destruct (validate_nodelist mechanism); [contradiction|reflexivity]. }
  split.
  { intros Hall. apply returns_Ok in Hall as [all Hall].
    unfold cause_repertoire. simpl validate_nodelist at 2.
    destruct (validate_nodelist mechanism).
    - assert (Hr : exists r, max_entropy_distribution [] (Subsystem.network S)
                             = Ok r).
      { unfold max_entropy_distribution, purview_shape. rewrite Hall.
        eexists. reflexivity. }
      destruct Hr as [r Hr]. exists r. split; [exact Hr|].
      exact (max_entropy_empty _ _ Hr).
    - exists tscalar_one. split; [reflexivity|].
      split; [intros [|k]; reflexivity|intros s; reflexivity]. }
  split.
  { intros r Hnodes Hr.
    exact (effect_repertoire_sums_to_one _ S eq_refl mechanism purview r Hnodes Hr). }
  split.
  { intros r Hr. exact (cause_repertoire_sum S mechanism purview r Hr). }
  intros cjd Hm Hp Hcjd.
  assert (Hrun : cause_repertoire S mechanism purview
                 = if negb (Qeq_bool (tsum cjd) 0)
                   then Ok (tdiv cjd (tsum cjd)) else Ok cjd).
  { unfold cause_repertoire.
    destruct (validate_nodelist mechanism); [contradiction|].
    destruct (validate_nodelist purview); [contradiction|].
    rewrite Hcjd. reflexivity. }
  split.
  - intros Hnz. split; [|exact (tsum_normalized cjd Hnz)].
    rewrite Hrun. destruct (Qeq_bool (tsum cjd) 0) eqn:Hz; [|reflexivity].
    apply Qeq_bool_eq in Hz. contradiction.
  - intros Hz. split.
    + rewrite Hrun. rewrite (Qeq_eq_bool _ _ Hz). reflexivity.
    + intros Hvalid Hnodes. apply tsum_zero_entries; [|exact Hz].
      refine (cause_cjd_nonneg S _ _ cjd _ Hcjd).
      intros p Hp'. apply (node_of_nonneg S p Hvalid).
      apply Hnodes, validate_nodelist_In, Hp'.
Qed.

End RepertoireClaims.

Section RepertoiresOnSampleNetworks.
#[local] Existing Instance Sample.collaborators.

Lemma C8_repertoires_are_normalised_witness :
  let S := Sample.chain_on_subsystem in
  let mechanism := take 1 (Subsystem.nodes S) in
  let purview := Subsystem.nodes S in
  (exists r, effect_repertoire S mechanism purview = Ok r /\ (tsum r == 1)%Q)
  /\ (exists r, cause_repertoire S mechanism purview = Ok r
                /\ forall s, In s (states (tshape r)) -> (tget r s == 0)%Q)
  /\ (exists r, cause_repertoire Sample.swap_subsystem
                  (take 1 (Subsystem.nodes Sample.swap_subsystem))
                  (Subsystem.nodes Sample.swap_subsystem) = Ok r
                /\ (tsum r == 1)%Q).
Proof.
  intros S mechanism purview.
  assert (HS : Subsystem_init [0; 1] [1; 0] [0; 0] Sample.chain_network None
               = Ok S).
  { apply built_Ok. vm_compute. reflexivity. }
  assert (Hpos : Forall (fun i => 0 <= i) [0; 1]) by (repeat constructor; lia).
  pose proof (Subsystem_init_node_of _ _ _ _ _ _ Hpos HS) as Hnodes.
  destruct (Subsystem_init_nodes _ _ _ _ _ _ Hpos HS) as (_ & _ & Hnet & _ & _).
  destruct (C8_repertoires_are_normalised S mechanism purview)
    as (_ & _ & _ & Heffect & _ & Hcause).
  split; [|split].
  - destruct (returns_Ok (effect_repertoire S mechanism purview)) as [r Hr].
    { vm_compute. reflexivity. }
    exists r. split; [exact Hr|]. exact (Heffect r Hnodes Hr).
  - set (cjd := Sample.computed
                  (cause_cjd S (validate_nodelist mechanism)
                             (validate_nodelist purview))).
    assert (Hcjd : cause_cjd S (validate_nodelist mechanism)
                             (validate_nodelist purview) = Ok cjd).
    { apply computed_Ok. vm_compute. reflexivity. }
    assert (Hm : length (validate_nodelist mechanism) = 1%nat)
      by (vm_compute; reflexivity).
    assert (Hp : length (validate_nodelist purview) = 2%nat)
      by (vm_compute; reflexivity).
    destruct (Hcause cjd) as [_ Hzero].
    + intros Hnil. rewrite Hnil in Hm. discriminate.
    + intros Hnil. rewrite Hnil in Hp. discriminate.
    + exact Hcjd.
    + destruct Hzero as [Hr Hentries].
      * vm_compute. reflexivity.
      * exists cjd. split; [exact Hr|]. apply Hentries.
        -- rewrite Hnet. unfold valid_tpm. simpl.
           repeat constructor; unfold Qle; simpl; lia.
        -- intros p Hp'. apply Hnodes. unfold mechanism in Hp'.
           rewrite <- (firstn_skipn 1 (Subsystem.nodes S)).
           apply in_or_app. left. exact Hp'.
  - set (S' := Sample.swap_subsystem).
    set (mechanism' := take 1 (Subsystem.nodes S')).
    set (purview' := Subsystem.nodes S').
    set (cjd := Sample.computed
                  (cause_cjd S' (validate_nodelist mechanism')
                             (validate_nodelist purview'))).
    assert (Hcjd : cause_cjd S' (validate_nodelist mechanism')
                             (validate_nodelist purview') = Ok cjd).
    { apply computed_Ok. vm_compute. reflexivity. }
    assert (Hm : length (validate_nodelist mechanism') = 1%nat)
      by (vm_compute; reflexivity).
    assert (Hp : length (validate_nodelist purview') = 2%nat)
      by (vm_compute; reflexivity).
    destruct (C8_repertoires_are_normalised S' mechanism' purview')
      as (_ & _ & _ & _ & _ & Hcause').
    destruct (Hcause' cjd) as [Hnonzero _].
    + intros Hnil. rewrite Hnil in Hm. discriminate.
    + intros Hnil. rewrite Hnil in Hp. discriminate.
    + exact Hcjd.
    + destruct Hnonzero as [Hr Hsum].
      * vm_compute. discriminate.
      * exists (tdiv cjd (tsum cjd)). split; [exact Hr|exact Hsum].
Defined.

End RepertoiresOnSampleNetworks.

(** * Further properties of the code *)

(** ** Nodes *)

Section NodeShapeFacts.
Context `{Collaborators}.

Lemma filterM_Ok {A} (f : A -> result bool) (l r : list A) :
  filterM f l = Ok r ->
  Forall (fun x => exists b, f x = Ok b) l
  /\ r = List.filter (fun x => match f x with Ok b => b | Raise _ => false end) l.
Proof.
  revert r. induction l as [|x l IH]; intros r Hr.
  - injection Hr as <-. split; [constructor|reflexivity].
  - simpl in Hr. apply bind_Ok in Hr as (b & Hb & Hr).
    apply bind_Ok in Hr as (r' & Hr' & Hr). injection Hr as <-.
    destruct (IH r' Hr') as [Hall ->]. split.
    + constructor; [eauto|exact Hall].
    + simpl. rewrite Hb. reflexivity.
Qed.

Lemma In_range (n : nat) (i : Z) : In i (range n) <-> 0 <= i < Z.of_nat n.
Proof.
  unfold range. rewrite in_map_iff. split.
  - intros (k & <- & Hk). apply in_seq in Hk. lia.
  - intros Hi. exists (Z.to_nat i). split; [lia|]. apply in_seq. lia.
Qed.

Lemma truthy_true (v : Z) : truthy v = true <-> v <> 0.
Proof. unfold truthy. rewrite negb_true_iff. apply Z.eqb_neq. Qed.

(** The indices stored by [Node.__init__]. *)
Lemma Node_init_indices (network : Network.t) (index : Z) (cm : option Matrix)
    (label : option string) (node : Node.t) :
  Node_init network index cm label = Ok node ->
  match Node.connectivity_matrix node with
  | Some _ =>
      exists outs,
        Node._output_indices node = Some outs
        /\ (forall i, In i (Node._input_indices node)
                      <-> 0 <= i < Z.of_nat (Network.size network)
                          /\ network_connects network i index)
        /\ (forall i, In i outs
                      <-> 0 <= i < Z.of_nat (Network.size network)
                          /\ network_connects network index i)
  | None =>
      cm = None /\ Network.connectivity_matrix network = None
      /\ Node._input_indices node = range (Network.size network)
      /\ Node._output_indices node = None
  end.
Proof.
  unfold Node_init. intros Hn.
  apply bind_Ok in Hn as (io & Hio & Hn).
  apply bind_Ok in Hn as (tpm_on & _ & Hn).
  destruct (fold_left _ _ _) as [[[on off] labels] current].
  injection Hn as <-. cbn [Node.connectivity_matrix Node._input_indices
                           Node._output_indices].
  destruct (match cm with Some m => Some m | None => _ end) as [m0|] eqn:Hcm.
  - apply bind_Ok in Hio as (ins & Hins & Hio).
    apply bind_Ok in Hio as (outs & Houts & Hio). injection Hio as <-.
    cbn [fst snd]. exists outs. split; [reflexivity|].
    apply filterM_Ok in Hins as [_ ->].
    apply filterM_Ok in Houts as [_ ->].
    unfold network_cm, network_connects, connects.
    split; intros i; rewrite filter_In, In_range.
    + split.
      * intros [Hi Hv]. split; [exact Hi|].
        destruct (Network.connectivity_matrix network) as [m|]; [|discriminate].
        cbn [mbind result_bind] in Hv.
        destruct (py_index m i) as [row|] eqn:Hrow; [|discriminate].
        simpl in Hv.
        destruct (py_index row index) as [v|] eqn:Hval; [|discriminate].
        simpl in Hv. exists m. split; [reflexivity|].
        exists row, v. repeat split; try assumption. apply truthy_true, Hv.
      * intros [Hi (m & -> & row & v & Hrow & Hv & Hnz)]. split; [exact Hi|].
        simpl. rewrite Hrow. simpl. rewrite Hv. simpl. apply truthy_true, Hnz.
    + split.
      * intros [Hi Hv]. split; [exact Hi|].
        destruct (Network.connectivity_matrix network) as [m|]; [|discriminate].
        cbn [mbind result_bind] in Hv.
        destruct (py_index m index) as [row|] eqn:Hrow; [|discriminate].
        simpl in Hv.
        destruct (py_index row i) as [v|] eqn:Hval; [|discriminate].
        simpl in Hv. exists m. split; [reflexivity|].
        exists row, v. repeat split; try assumption. apply truthy_true, Hv.
      * intros [Hi (m & -> & row & v & Hrow & Hv & Hnz)]. split; [exact Hi|].
        simpl. rewrite Hrow. simpl. rewrite Hv. simpl. apply truthy_true, Hnz.
  - destruct cm as [m1|]; [discriminate|].
    injection Hio as <-. auto.
Qed.


Lemma inputs_between_S (input_indices : list Z) (a i : nat) :
  inputs_between input_indices a (Datatypes.S i)
  = ((if Zmem (Z.of_nat a) input_indices then 1 else 0)
     + inputs_between input_indices (Datatypes.S a) i)%nat.
Proof.
  unfold inputs_between. cbn [seq List.filter].
  destruct (Zmem (Z.of_nat a) input_indices); reflexivity.
Qed.

(** The marginalisation loop of [Node.__init__]: the axes it leaves of size
    2 and the labels it appends. *)
Lemma marginalize_fold_shape (input_indices : list Z) (len a : nat)
    (tpm_on tpm_off : Tensor) (labels : list (option nat)) (current : nat)
    (tpm_on' tpm_off' : Tensor) (labels' : list (option nat)) (current' : nat) :
  fold_left (marginalize_step input_indices) (map Z.of_nat (seq a len))
            (tpm_on, tpm_off, labels, current)
  = (tpm_on', tpm_off', labels', current') ->
  (forall k, nth k (tshape tpm_on') false
             = nth k (tshape tpm_on) false
               && (Zmem (Z.of_nat k) input_indices
                   || negb ((a <=? k)%nat && (k <? a + len)%nat)))
  /\ (forall k, nth k (tshape tpm_off') false
                = nth k (tshape tpm_off) false
                  && (Zmem (Z.of_nat k) input_indices
                      || negb ((a <=? k)%nat && (k <? a + len)%nat)))
  /\ length labels' = (length labels + len)%nat
  /\ (forall j, (j < length labels)%nat -> labels' !! j = labels !! j)
  /\ (forall i, (i < len)%nat ->
        labels' !! (length labels + i)%nat
        = Some (if Zmem (Z.of_nat (a + i)) input_indices
                then Some (current + inputs_between input_indices a i)%nat
                else None)).
Proof.
  revert a tpm_on tpm_off labels current.
  induction len as [|len IH]; intros a on off labels current Hfold.
  - simpl in Hfold. injection Hfold as <- <- <- <-.
    assert (Hout : forall k, (a <=? k)%nat && (k <? a + 0)%nat = false).
    { intros k. apply andb_false_iff.
      destruct (Nat.ltb_spec k (a + 0)); [|auto].
      left. apply Nat.leb_gt. lia. }
    repeat split; try (intros k; rewrite Hout, orb_true_r, andb_true_r; reflexivity).
    + lia.
    + intros i Hi. lia.
  - cbn [seq map fold_left] in Hfold. rewrite marginalize_step_eq in Hfold.
    assert (Hwin : forall k,
               (a <=? k)%nat && (k <? a + Datatypes.S len)%nat
               = bool_decide (k = a)
                 || (Datatypes.S a <=? k)%nat && (k <? Datatypes.S a + len)%nat).
    { intros k.
      destruct (bool_decide_reflect (k = a)), (Nat.leb_spec a k),
        (Nat.ltb_spec k (a + Datatypes.S len)),
        (Nat.leb_spec (Datatypes.S a) k),
        (Nat.ltb_spec k (Datatypes.S a + len)); simpl; try reflexivity; lia. }
    destruct (Zmem (Z.of_nat a) input_indices) eqn:Ha; cbn [negb] in Hfold;
      apply IH in Hfold as (Hon & Hoff & Hlen & Hkeep & Hnew);
      rewrite length_app in Hlen, Hkeep, Hnew; cbn [length] in Hlen, Hkeep, Hnew.
    + assert (Hshape : forall k (b : bool),
                 b && (Zmem (Z.of_nat k) input_indices
                       || negb ((Datatypes.S a <=? k)%nat
                                && (k <? Datatypes.S a + len)%nat))
                 = b && (Zmem (Z.of_nat k) input_indices
                         || negb ((a <=? k)%nat && (k <? a + Datatypes.S len)%nat))).
      { intros k b. rewrite Hwin.
        destruct (bool_decide_reflect (k = a)) as [->|]; [|reflexivity].
        rewrite Ha. reflexivity. }
      split; [intros k; rewrite Hon; apply Hshape|].
      split; [intros k; rewrite Hoff; apply Hshape|].
      split; [lia|]. split.
      * intros j Hj. rewrite Hkeep by lia. apply lookup_app_l. exact Hj.
      * intros [|i] Hi.
        -- rewrite Nat.add_0_r, Hkeep by lia.
           rewrite lookup_app_r by lia. rewrite Nat.sub_diag, Nat.add_0_r, Ha.
           simpl. rewrite Nat.add_0_r. reflexivity.
        -- replace (length labels + Datatypes.S i)%nat
             with (length labels + 1 + i)%nat by lia.
           rewrite Hnew by lia.
           replace (Datatypes.S a + i)%nat with (a + Datatypes.S i)%nat by lia.
           rewrite inputs_between_S, Ha.
           destruct (Zmem (Z.of_nat (a + Datatypes.S i)) input_indices);
             [|reflexivity].
           do 2 f_equal. lia.
    + assert (Hshape : forall k (shape : list bool),
                 nth k (<[a := false]> shape) false
                 && (Zmem (Z.of_nat k) input_indices
                     || negb ((Datatypes.S a <=? k)%nat
                              && (k <? Datatypes.S a + len)%nat))
                 = nth k shape false
                   && (Zmem (Z.of_nat k) input_indices
                       || negb ((a <=? k)%nat && (k <? a + Datatypes.S len)%nat))).
      { intros k shape. rewrite Hwin, nth_insert_false.
        destruct (bool_decide_reflect (k = a)) as [->|Hka].
        - rewrite Ha. destruct (decide (a = a)); [|lia].
          simpl. rewrite andb_false_r. reflexivity.
        - destruct (decide (a = k)); [lia|]. reflexivity. }
      split; [intros k; rewrite Hon; cbn [tshape tdiv tsum_axis];
              rewrite Nat2Z.id; apply Hshape|].
      split; [intros k; rewrite Hoff; cbn [tshape tdiv tsum_axis];
              rewrite Nat2Z.id; apply Hshape|].
      split; [lia|]. split.
      * intros j Hj. rewrite Hkeep by lia. apply lookup_app_l. exact Hj.
      * intros [|i] Hi.
        -- rewrite Nat.add_0_r, Hkeep by lia.
           rewrite lookup_app_r by lia. rewrite Nat.sub_diag, Nat.add_0_r, Ha.
           reflexivity.
        -- replace (length labels + Datatypes.S i)%nat
             with (length labels + 1 + i)%nat by lia.
           rewrite Hnew by lia.
           replace (Datatypes.S a + i)%nat with (a + Datatypes.S i)%nat by lia.
           rewrite inputs_between_S, Ha. reflexivity.
Qed.


(** What [Node.__init__] leaves of the network's axes, and the labels it
    records. *)
Lemma Node_init_shape (network : Network.t) (index : Z) (cm : option Matrix)
    (label : option string) (node : Node.t) :
  Node_init network index cm label = Ok node ->
  let n := Network.size network in
  let inputs := Node._input_indices node in
  (forall k, (k < n)%nat ->
             nth k (tshape (snd (Node.tpm node))) false
             = Zmem (Z.of_nat k) inputs)
  /\ length (Node._dimension_labels node) = n
  /\ (forall k, (k < n)%nat ->
        Node._dimension_labels node !! k
        = Some (if Zmem (Z.of_nat k) inputs
                then Some (inputs_below inputs k) else None)).
Proof.
  unfold Node_init. intros Hn.
  apply bind_Ok in Hn as (io & _ & Hn).
  apply bind_Ok in Hn as (tpm_on & Hcol & Hn).
  unfold tpm_column in Hcol. apply bind_Ok in Hcol as (j & _ & Hcol).
  injection Hcol as <-.
  destruct (fold_left _ _ _) as [[[on off] labels] current] eqn:Hfold.
  injection Hn as <-.
  cbn [Node.tpm Node._input_indices Node._dimension_labels snd].
  unfold range in Hfold.
  apply marginalize_fold_shape in Hfold as (Hon & _ & Hlen & _ & Hnew).
  cbn [tshape length] in Hon, Hlen, Hnew. split; [|split].
  - intros k Hk. rewrite Hon.
    rewrite nth_lookup, lookup_replicate_2 by lia. cbn [default andb].
    replace ((0 <=? k)%nat && (k <? 0 + Network.size network)%nat) with true.
    + apply orb_false_r.
    + symmetry. apply andb_true_iff. split;
        [apply Nat.leb_le|apply Nat.ltb_lt]; lia.
  - exact Hlen.
  - intros k Hk. exact (Hnew k Hk).
Qed.

End NodeShapeFacts.

Section NodeClaims.
Context `{Collaborators}.

(** The tensor that [Node.__init__] stores is a conditional distribution
    of the node's state given the state of its inputs: [tpm[0]] and
    [tpm[1]] have one axis per node of the network, of size 2 exactly at
    the indices in [_input_indices], and add up to 1 at every state; when
    the network's transition probabilities lie in [0, 1], so do the
    entries. *)
Theorem Node_tpm_is_conditional_distribution (network : Network.t) (index : Z)
    (cm : option Matrix) (label : option string) (node : Node.t) :
  Node_init network index cm label = Ok node ->
  let tpm_off := fst (Node.tpm node) in
  let tpm_on := snd (Node.tpm node) in
  tshape tpm_off = tshape tpm_on
  /\ length (tshape tpm_on) = Network.size network
  /\ (forall k, (k < Network.size network)%nat ->
                nth k (tshape tpm_on) false
                = Zmem (Z.of_nat k) (Node._input_indices node))
  /\ (forall s, tget tpm_off s + tget tpm_on s == 1)%Q
  /\ (valid_tpm network ->
      forall s, (0 <= tget tpm_on s <= 1)%Q /\ (0 <= tget tpm_off s <= 1)%Q).
Proof.
  intros Hinit tpm_off tpm_on.
  destruct (Node_init_tpm _ _ _ _ _ Hinit) as [(Hs & Hl & _ & Hsum) Hnn].
  destruct (Node_init_shape _ _ _ _ _ Hinit) as (Hshape & _).
  split; [exact Hs|]. split; [exact Hl|]. split; [exact Hshape|].
  split; [exact Hsum|]. intros Hvalid s.
  destruct (Hnn Hvalid s) as [Hon Hoff]. pose proof (Hsum s) as Hone.
  fold tpm_on in Hon, Hone. fold tpm_off in Hoff, Hone. split; split; lra.
Qed.

(** [_dimension_labels] has one entry per node of the network: [None] at
    the indices that are not inputs, and at an input the number of inputs
    of smaller index, so that the inputs are numbered 0, 1, 2, ... in
    increasing order of index. *)
Theorem Node_dimension_labels_number_the_inputs (network : Network.t) (index : Z)
    (cm : option Matrix) (label : option string) (node : Node.t) :
  Node_init network index cm label = Ok node ->
  length (Node._dimension_labels node) = Network.size network
  /\ (forall k, (k < Network.size network)%nat ->
        Node._dimension_labels node !! k
        = Some (if Zmem (Z.of_nat k) (Node._input_indices node)
                then Some (inputs_below (Node._input_indices node) k)
                else None)).
Proof.
  intros Hinit. destruct (Node_init_shape _ _ _ _ _ Hinit) as (_ & Hlen & Hlab).
  split; [exact Hlen|exact Hlab].
Qed.


Lemma Node_eq_refl (a : Node.t) : Node_eq a a = true.
Proof. apply Node_eq_of_fields; reflexivity. Qed.

Lemma Node_eq_true (a b : Node.t) :
  Node_eq a b = true
  <-> Node.index a = Node.index b /\ Node.network a = Node.network b.
Proof.
  unfold Node_eq. rewrite andb_true_iff, Z.eqb_eq, bool_decide_eq_true.
  reflexivity.
Qed.

Lemma Node_in_true (a : Node.t) (l : list Node.t) :
  Node_in a l = true <-> exists x, In x l /\ Node_eq a x = true.
Proof. unfold Node_in. apply existsb_exists. Qed.

(** Membership in a selection of nodes by index. *)
Lemma Node_in_filter_index (a : Node.t) (L : list Z) (all : list Node.t) :
  In a all ->
  Node_in a (List.filter (fun n => Zmem (Node.index n) L) all)
  = Zmem (Node.index a) L.
Proof.
  intros Ha. destruct (Zmem (Node.index a) L) eqn:Hmem.
  - apply Node_in_true. exists a. split; [|apply Node_eq_refl].
    apply filter_In. auto.
  - apply not_true_is_false. intros Hin.
    apply Node_in_true in Hin as (x & Hx & Heq).
    apply filter_In in Hx as [_ Hx]. apply Node_eq_true in Heq as [Hidx _].
    rewrite Hidx in Hmem. congruence.
Qed.

Lemma filter_all {A} (f : A -> bool) (l : list A) :
  (forall x, In x l -> f x = true) -> List.filter f l = l.
Proof.
  induction l as [|x l IH]; intros Hall; [reflexivity|]. simpl.
  rewrite (Hall x (or_introl eq_refl)). f_equal. apply IH.
  intros y Hy. apply Hall. right. exact Hy.
Qed.

Lemma Network_nodes_lookup (network : Network.t) (all : list Node.t)
    (k : nat) (node : Node.t) :
  Network_nodes network = Ok all -> all !! k = Some node ->
  (k < Network.size network)%nat
  /\ Node_init network (Z.of_nat k) None None = Ok node.
Proof.
  unfold Network_nodes. intros Hall Hk. apply mapM_Ok_Forall2 in Hall.
  destruct (Forall2_lookup_r _ _ _ _ _ Hall Hk) as (i & Hi & Hnode).
  unfold range in Hi. rewrite list_lookup_fmap in Hi.
  destruct (seq 0 (Network.size network) !! k) as [k'|] eqn:Hseq; [|discriminate].
  apply lookup_seq in Hseq as [-> Hlt]. injection Hi as <-. auto.
Qed.

(** In a network with a connectivity matrix, [b] is among the outputs of
    [a] exactly when [a] is among the inputs of [b], which is when the
    entry of the matrix at row [a.index] and column [b.index] is not
    zero. *)
Theorem Node_outputs_mirror_inputs (network : Network.t) (m : Matrix)
    (all : list Node.t) (i j : nat) (a b : Node.t) :
  Network.connectivity_matrix network = Some m ->
  Network_nodes network = Ok all ->
  all !! i = Some a -> all !! j = Some b ->
  exists ins outs,
    Node_inputs b = Ok ins /\ Node_outputs a = Ok outs
    /\ Node_in a ins = Node_in b outs
    /\ (Node_in b outs = true <-> connects m (Z.of_nat i) (Z.of_nat j)).
Proof.
  intros Hm Hall Hi Hj.
  destruct (Network_nodes_lookup _ _ _ _ Hall Hi) as [Hilt Ha].
  destruct (Network_nodes_lookup _ _ _ _ Hall Hj) as [Hjlt Hb].
  pose proof (Node_init_fields _ _ _ _ _ Ha) as (Hneta & Hidxa & _).
  pose proof (Node_init_fields _ _ _ _ _ Hb) as (Hnetb & Hidxb & _).
  assert (Hina : In a all)
    by (apply list_elem_of_In; eapply list_elem_of_lookup_2; exact Hi).
  assert (Hinb : In b all)
    by (apply list_elem_of_In; eapply list_elem_of_lookup_2; exact Hj).
  assert (Hconn : forall x y, network_connects network x y <-> connects m x y).
  { intros x y. unfold network_connects. rewrite Hm. split.
    - intros (m' & Hm' & Hc). injection Hm' as <-. exact Hc.
    - intros Hc. eauto. }
  pose proof (Node_init_indices _ _ _ _ _ Ha) as Hia.
  pose proof (Node_init_indices _ _ _ _ _ Hb) as Hib.
  assert (Hcma : Node.connectivity_matrix a = Some m).
  { unfold Node_init in Ha. apply bind_Ok in Ha as (io & _ & Ha).
    apply bind_Ok in Ha as (t & _ & Ha).
    destruct (fold_left _ _ _) as [[[? ?] ?] ?]. injection Ha as <-.
    simpl. exact Hm. }
  assert (Hcmb : Node.connectivity_matrix b = Some m).
  { unfold Node_init in Hb. apply bind_Ok in Hb as (io & _ & Hb).
    apply bind_Ok in Hb as (t & _ & Hb).
    destruct (fold_left _ _ _) as [[[? ?] ?] ?]. injection Hb as <-.
    simpl. exact Hm. }
  rewrite Hcma in Hia. rewrite Hcmb in Hib.
  destruct Hia as (outs_a & Houts_a & _ & Hout).
  destruct Hib as (outs_b & _ & Hin & _).
  exists (List.filter (fun n => Zmem (Node.index n) (Node._input_indices b)) all),
         (List.filter (fun n => Zmem (Node.index n) outs_a) all).
  split; [unfold Node_inputs; rewrite Hnetb, Hall; reflexivity|].
  split.
  { unfold Node_outputs. rewrite Hneta, Hall, Houts_a. cbn [mbind result_bind].
    destruct all; [destruct Hina|reflexivity]. }
  rewrite !Node_in_filter_index by assumption. rewrite Hidxa, Hidxb.
  assert (Hrange : 0 <= Z.of_nat i < Z.of_nat (Network.size network)
                   /\ 0 <= Z.of_nat j < Z.of_nat (Network.size network)) by lia.
  split.
  - apply eq_true_iff_eq. rewrite !Zmem_In, Hin, Hout. tauto.
  - rewrite Zmem_In, Hout, Hconn. tauto.
Qed.

(** Without a connectivity matrix the constructor assigns
    [_input_indices] only: the inputs of a node are all the nodes of the
    network, and reading its outputs raises [AttributeError]. *)
Theorem Node_outputs_need_a_matrix (network : Network.t) (index : Z)
    (label : option string) (node : Node.t) (all : list Node.t) :
  Network.connectivity_matrix network = None ->
  Node_init network index None label = Ok node ->
  Network_nodes network = Ok all ->
  Node_inputs node = Ok all /\ Node_outputs node = Raise AttributeError.
Proof.
  intros Hm Hinit Hall.
  pose proof (Node_init_fields _ _ _ _ _ Hinit) as (Hnet & _ & _).
  pose proof (Node_init_indices _ _ _ _ _ Hinit) as Hidx.
  assert (Hcm : Node.connectivity_matrix node = None).
  { unfold Node_init in Hinit. apply bind_Ok in Hinit as (io & _ & Hinit).
    apply bind_Ok in Hinit as (t & _ & Hinit).
    destruct (fold_left _ _ _) as [[[? ?] ?] ?]. injection Hinit as <-.
    simpl. exact Hm. }
  rewrite Hcm in Hidx. destruct Hidx as (_ & _ & Hins & Houts).
  assert (Hsize : (0 < Network.size network)%nat).
  { unfold Node_init in Hinit. apply bind_Ok in Hinit as (io & _ & Hinit).
    apply bind_Ok in Hinit as (t & Hcol & _).
    unfold tpm_column in Hcol. apply bind_Ok in Hcol as (j & Hj & _).
    unfold norm_index in Hj. destruct (_ && _) eqn:Hr; [|discriminate].
    apply andb_true_iff in Hr as [Hlo Hhi].
    apply Z.leb_le in Hlo. apply Z.ltb_lt in Hhi.
    destruct (index <? 0); lia. }
  split.
  - unfold Node_inputs. rewrite Hnet, Hall, Hins. cbn [mbind result_bind].
    f_equal. apply filter_all. intros x Hx.
    apply list_elem_of_In, list_elem_of_lookup in Hx as [k Hk].
    destruct (Network_nodes_fields _ _ _ _ Hall Hk) as [_ Hxi].
    destruct (Network_nodes_lookup _ _ _ _ Hall Hk) as [Hlt _].
    rewrite Hxi. apply Zmem_In, In_range. lia.
  - unfold Node_outputs. rewrite Hnet, Hall, Houts. cbn [mbind result_bind].
    destruct all as [|x all]; [|reflexivity].
    unfold Network_nodes in Hall. apply mapM_Ok_Forall2 in Hall.
    apply Forall2_length in Hall. unfold range in Hall.
    rewrite length_map, length_seq in Hall. simpl in Hall. lia.
Qed.

End NodeClaims.

(** ** Subsystems *)

Section SubsystemFacts.
Context `{Collaborators}.

Lemma insert_sorted_In (x y : Z) (l : list Z) :
  In x (insert_sorted y l) <-> x = y \/ In x l.
Proof.
  induction l as [|z l IH]; simpl; [intuition|].
  destruct (y <? z) eqn:Hlt; [simpl; intuition|].
  destruct (y =? z) eqn:Heq.
  - apply Z.eqb_eq in Heq. subst z. simpl. intuition.
  - simpl. rewrite IH. intuition.
Qed.

Lemma insert_sorted_sorted (y : Z) (l : list Z) :
  StronglySorted Z.lt l -> StronglySorted Z.lt (insert_sorted y l).
Proof.
  induction l as [|z l IH]; intros Hs; simpl; [repeat constructor|].
  inversion Hs as [|? ? Hs' Hall]; subst.
  destruct (y <? z) eqn:Hlt.
  - apply Z.ltb_lt in Hlt. constructor; [exact Hs|].
    constructor; [exact Hlt|].
    eapply Forall_impl; [exact Hall|]. simpl. intros w Hw. lia.
  - apply Z.ltb_ge in Hlt. destruct (y =? z) eqn:Heq; [exact Hs|].
    apply Z.eqb_neq in Heq. constructor; [apply IH, Hs'|].
    apply List.Forall_forall. intros w Hw.
    apply insert_sorted_In in Hw as [->|Hw]; [lia|].
    exact (proj1 (List.Forall_forall _ _) Hall w Hw).
Qed.

Lemma sorted_set_In (x : Z) (l : list Z) : In x (sorted_set l) <-> In x l.
Proof.
  induction l as [|y l IH]; simpl; [reflexivity|].
  rewrite insert_sorted_In, IH. intuition.
Qed.

Lemma sorted_set_sorted (l : list Z) : StronglySorted Z.lt (sorted_set l).
Proof.
  induction l as [|y l IH]; simpl; [constructor|].
  apply insert_sorted_sorted, IH.
Qed.

(** Strictly increasing lists with the same elements are the same list. *)
Lemma increasing_unique (l1 l2 : list Z) :
  StronglySorted Z.lt l1 -> StronglySorted Z.lt l2 ->
  (forall x, In x l1 <-> In x l2) -> l1 = l2.
Proof.
  revert l2. induction l1 as [|x1 l1 IH]; intros l2 Hs1 Hs2 Hsame.
  - destruct l2 as [|x2 l2]; [reflexivity|].
    destruct (proj2 (Hsame x2) (or_introl eq_refl)).
  - destruct l2 as [|x2 l2]; [destruct (proj1 (Hsame x1) (or_introl eq_refl))|].
    inversion Hs1 as [|? ? Hs1' Hall1]; subst.
    inversion Hs2 as [|? ? Hs2' Hall2]; subst.
    pose proof (proj1 (List.Forall_forall _ _) Hall1) as Hlt1.
    pose proof (proj1 (List.Forall_forall _ _) Hall2) as Hlt2.
    assert (Hx : x1 = x2).
    { destruct (proj1 (Hsame x1) (or_introl eq_refl)) as [Heq|Hin1]; [auto|].
      destruct (proj2 (Hsame x2) (or_introl eq_refl)) as [Heq|Hin2]; [auto|].
      pose proof (Hlt2 _ Hin1). pose proof (Hlt1 _ Hin2). lia. }
    subst x2. f_equal. apply IH; [assumption|assumption|].
    intros x. split; intros Hx.
    + destruct (proj1 (Hsame x) (or_intror Hx)) as [<-|Hin]; [|exact Hin].
      pose proof (Hlt1 _ Hx). lia.
    + destruct (proj2 (Hsame x) (or_intror Hx)) as [<-|Hin]; [|exact Hin].
      pose proof (Hlt2 _ Hx). lia.
Qed.

Lemma sorted_set_same (l1 l2 : list Z) :
  sorted_set l1 = sorted_set l2 <-> (forall x, In x l1 <-> In x l2).
Proof.
  split.
  - intros Heq x. rewrite <- (sorted_set_In x l1), <- (sorted_set_In x l2), Heq.
    reflexivity.
  - intros Hsame. apply increasing_unique; try apply sorted_set_sorted.
    intros x. rewrite !sorted_set_In. apply Hsame.
Qed.

(** The fields that [Subsystem.__init__] sets from its arguments. *)
Lemma Subsystem_init_fields (node_indices cs ps : list Z) (network : Network.t)
    (cut : option Cut.t) (S : Subsystem.t) :
  Subsystem_init node_indices cs ps network cut = Ok S ->
  Subsystem.node_indices S = sorted_set node_indices
  /\ Subsystem.null_cut S = Cut.mk [] (sorted_set node_indices)
  /\ length (Subsystem.nodes S) = length (sorted_set node_indices)
  /\ match cut with
     | None =>
         Subsystem.cut S = Subsystem.null_cut S
         /\ Subsystem.connectivity_matrix S = Network.connectivity_matrix network
     | Some c =>
         Subsystem.cut S = c
         /\ Subsystem.connectivity_matrix S
            = apply_cut c (Network.connectivity_matrix network)
     end.
Proof.
  intros HS. unfold Subsystem_init in HS.
  apply bind_Ok in HS as ([[nodes cm] c] & Hbuilt & HS).
  injection HS as <-. cbn.
  destruct cut as [c0|].
  - apply bind_Ok in Hbuilt as (ns & Hns & Hbuilt). injection Hbuilt as <- <- <-.
    apply mapM_Ok_Forall2, Forall2_length in Hns.
    destruct c0. auto.
  - apply bind_Ok in Hbuilt as (ns & Hns & Hbuilt). injection Hbuilt as <- <- <-.
    apply mapM_Ok_Forall2, Forall2_length in Hns. auto.
Qed.


Lemma Forall2_index_In (network : Network.t) (indices : list Z)
    (nodes : list Node.t) :
  Forall2 (fun i n => Node.network n = network /\ Node.index n = i)
          indices nodes ->
  (forall n, In n nodes -> Node.network n = network /\ In (Node.index n) indices)
  /\ (forall i, In i indices ->
                exists n, In n nodes /\ Node.network n = network
                          /\ Node.index n = i)
  /\ map Node.index nodes = indices.
Proof.
  induction 1 as [|i n indices nodes [Hnet Hidx] _ (IHn & IHi & IHm)].
  - split; [intros ? []|]. split; [intros ? []|reflexivity].
  - split; [|split].
    + intros n' [<-|Hn']; [split; [exact Hnet|left; auto]|].
      destruct (IHn n' Hn') as [? ?]. split; [assumption|right; assumption].
    + intros i' [<-|Hi'].
      * exists n. split; [left; reflexivity|auto].
      * destruct (IHi i' Hi') as (n' & ? & ? & ?). exists n'.
        split; [right; assumption|auto].
    + simpl. rewrite Hidx, IHm. reflexivity.
Qed.

End SubsystemFacts.

Section SubsystemClaims.
Context `{Collaborators}.

(** What the constructor establishes: [node_indices] is strictly
    increasing and holds exactly the indices given, the null cut severs
    nothing and leaves them all intact, the subsystem holds one node per
    index, in the same order and (for indices that are not negative) with
    that index, and without a cut the subsystem is under its null cut with
    the network's matrix. *)
Theorem Subsystem_init_normalises (node_indices cs ps : list Z)
    (network : Network.t) (cut : option Cut.t) (S : Subsystem.t) :
  Subsystem_init node_indices cs ps network cut = Ok S ->
  StronglySorted Z.lt (Subsystem.node_indices S)
  /\ (forall i, In i (Subsystem.node_indices S) <-> In i node_indices)
  /\ Subsystem.null_cut S = Cut.mk [] (Subsystem.node_indices S)
  /\ length (Subsystem.nodes S) = length (Subsystem.node_indices S)
  /\ (Forall (fun i => 0 <= i) node_indices ->
      map Node.index (Subsystem.nodes S) = Subsystem.node_indices S)
  /\ (cut = None ->
      Subsystem.cut S = Subsystem.null_cut S
      /\ Subsystem.connectivity_matrix S = Network.connectivity_matrix network).
Proof.
  intros HS.
  destruct (Subsystem_init_fields _ _ _ _ _ _ HS) as (Hidx & Hnull & Hlen & Hcut).
  rewrite Hidx. split; [apply sorted_set_sorted|].
  split; [intros i; apply sorted_set_In|]. split; [exact Hnull|].
  split; [exact Hlen|]. split.
  - intros Hpos.
    destruct (Subsystem_init_nodes _ _ _ _ _ _ Hpos HS) as (_ & _ & _ & _ & HF).
    exact (proj2 (proj2 (Forall2_index_In _ _ _ HF))).
  - intros ->. exact Hcut.
Qed.

(** Two subsystems built from indices that are not negative are equal
    exactly when they were built from the same set of indices, the same
    states and the same network, whatever their cuts; and equal subsystems
    have the same hash. *)
Theorem Subsystem_eq_iff_same_arguments
    (indices1 indices2 cs1 cs2 ps1 ps2 : list Z) (network1 network2 : Network.t)
    (cut1 cut2 : option Cut.t) (S1 S2 : Subsystem.t) :
  Forall (fun i => 0 <= i) indices1 -> Forall (fun i => 0 <= i) indices2 ->
  Subsystem_init indices1 cs1 ps1 network1 cut1 = Ok S1 ->
  Subsystem_init indices2 cs2 ps2 network2 cut2 = Ok S2 ->
  (Subsystem_eq S1 S2 = true
   <-> (forall i, In i indices1 <-> In i indices2)
       /\ cs1 = cs2 /\ ps1 = ps2 /\ network1 = network2)
  /\ (Subsystem_eq S1 S2 = true -> Subsystem_hash S1 = Subsystem_hash S2).
Proof.
  intros Hpos1 Hpos2 HS1 HS2.
  destruct (Subsystem_init_nodes _ _ _ _ _ _ Hpos1 HS1)
    as (Hcs1 & Hps1 & Hnet1 & Hhash1 & HF1).
  destruct (Subsystem_init_nodes _ _ _ _ _ _ Hpos2 HS2)
    as (Hcs2 & Hps2 & Hnet2 & Hhash2 & HF2).
  destruct (Forall2_index_In _ _ _ HF1) as (Hn1 & Hi1 & _).
  destruct (Forall2_index_In _ _ _ HF2) as (Hn2 & Hi2 & _).
  assert (Hiff : Subsystem_eq S1 S2 = true
                 <-> (forall i, In i indices1 <-> In i indices2)
                     /\ cs1 = cs2 /\ ps1 = ps2 /\ network1 = network2).
  { unfold Subsystem_eq, Node_set_eq.
    rewrite !andb_true_iff, !bool_decide_eq_true, !forallb_forall.
    rewrite Hcs1, Hcs2, Hps1, Hps2, Hnet1, Hnet2. split.
    - intros [[[[H12 H21] ->] ->] ->]. repeat split; try reflexivity.
      + intros Hi. apply (proj2 (sorted_set_In _ _)) in Hi.
        destruct (Hi1 i Hi) as (n & Hn & _ & Hidx).
        apply H12, Node_in_true in Hn as (x & Hx & Heq).
        apply Node_eq_true in Heq as [Hxi _].
        destruct (Hn2 x Hx) as [_ Hin]. apply (proj1 (sorted_set_In _ _)) in Hin.
        rewrite <- Hidx, Hxi. exact Hin.
      + intros Hi. apply (proj2 (sorted_set_In _ _)) in Hi.
        destruct (Hi2 i Hi) as (n & Hn & _ & Hidx).
        apply H21, Node_in_true in Hn as (x & Hx & Heq).
        apply Node_eq_true in Heq as [Hxi _].
        destruct (Hn1 x Hx) as [_ Hin]. apply (proj1 (sorted_set_In _ _)) in Hin.
        rewrite <- Hidx, Hxi. exact Hin.
    - intros (Hsame & -> & -> & ->). repeat split; try reflexivity.
      + intros n Hn. destruct (Hn1 n Hn) as [Hnet Hin].
        apply (proj1 (sorted_set_In _ _)), Hsame,
          (proj2 (sorted_set_In _ _)) in Hin.
        destruct (Hi2 _ Hin) as (x & Hx & Hxnet & Hxi).
        apply Node_in_true. exists x. split; [exact Hx|].
        apply Node_eq_true. split; congruence.
      + intros n Hn. destruct (Hn2 n Hn) as [Hnet Hin].
        apply (proj1 (sorted_set_In _ _)), Hsame,
          (proj2 (sorted_set_In _ _)) in Hin.
        destruct (Hi1 _ Hin) as (x & Hx & Hxnet & Hxi).
        apply Node_in_true. exists x. split; [exact Hx|].
        apply Node_eq_true. split; congruence. }
  split; [exact Hiff|].
  intros Heq. apply Hiff in Heq as (Hsame & -> & -> & ->).
  unfold Subsystem_hash. rewrite Hhash1, Hhash2.
  rewrite (proj2 (sorted_set_same indices1 indices2) Hsame). reflexivity.
Qed.

(** The comparisons order subsystems by their number of nodes, and agree
    with equality on subsystems built from indices that are not negative:
    equal subsystems are [<=] and [>=] each other and neither [<] nor [>].
    A subsystem is falsy exactly when it was built from no index. *)
Theorem Subsystem_order_agrees_with_eq
    (indices1 indices2 cs1 cs2 ps1 ps2 : list Z) (network1 network2 : Network.t)
    (cut1 cut2 : option Cut.t) (S1 S2 : Subsystem.t) :
  Forall (fun i => 0 <= i) indices1 -> Forall (fun i => 0 <= i) indices2 ->
  Subsystem_init indices1 cs1 ps1 network1 cut1 = Ok S1 ->
  Subsystem_init indices2 cs2 ps2 network2 cut2 = Ok S2 ->
  (Subsystem_eq S1 S2 = true ->
   Subsystem_le S1 S2 = true /\ Subsystem_ge S1 S2 = true
   /\ Subsystem_lt S1 S2 = false /\ Subsystem_gt S1 S2 = false)
  /\ (Subsystem_bool S1 = false <-> indices1 = []).
Proof.
  intros Hpos1 Hpos2 HS1 HS2.
  destruct (Subsystem_init_fields _ _ _ _ _ _ HS1) as (Hidx1 & _ & Hlen1 & _).
  destruct (Subsystem_init_fields _ _ _ _ _ _ HS2) as (Hidx2 & _ & Hlen2 & _).
  split.
  - intros Heq.
    destruct (Subsystem_init_nodes _ _ _ _ _ _ Hpos1 HS1) as (_ & _ & _ & _ & HF1).
    destruct (Subsystem_init_nodes _ _ _ _ _ _ Hpos2 HS2) as (_ & _ & _ & _ & HF2).
    destruct (Forall2_index_In _ _ _ HF1) as (Hn1 & Hi1 & _).
    destruct (Forall2_index_In _ _ _ HF2) as (Hn2 & Hi2 & _).
    assert (Hsame : sorted_set indices1 = sorted_set indices2).
    { unfold Subsystem_eq, Node_set_eq in Heq.
      rewrite !andb_true_iff, !forallb_forall in Heq.
      destruct Heq as [[[[H12 H21] _] _] _].
      apply increasing_unique; try apply sorted_set_sorted.
      intros i. split; intros Hi.
      - destruct (Hi1 i Hi) as (n & Hn & _ & Hidx).
        apply H12, Node_in_true in Hn as (x & Hx & Heq).
        apply Node_eq_true in Heq as [Hxi _].
        destruct (Hn2 x Hx) as [_ Hin]. rewrite <- Hidx, Hxi. exact Hin.
      - destruct (Hi2 i Hi) as (n & Hn & _ & Hidx).
        apply H21, Node_in_true in Hn as (x & Hx & Heq).
        apply Node_eq_true in Heq as [Hxi _].
        destruct (Hn1 x Hx) as [_ Hin]. rewrite <- Hidx, Hxi. exact Hin. }
    unfold Subsystem_le, Subsystem_ge, Subsystem_lt, Subsystem_gt.
    rewrite Hlen1, Hlen2, Hsame.
    rewrite Nat.leb_refl, Nat.ltb_irrefl. auto.
  - unfold Subsystem_bool. split.
    + intros Hb. destruct (Subsystem.nodes S1) as [|x l] eqn:Hnodes;
        [|discriminate].
      simpl in Hlen1. destruct indices1 as [|i l]; [reflexivity|].
      assert (Hin : In i (sorted_set (i :: l)))
        by (apply sorted_set_In; left; reflexivity).
      destruct (sorted_set (i :: l)); [destruct Hin|discriminate].
    + intros ->. simpl in Hlen1.
      destruct (Subsystem.nodes S1); [reflexivity|discriminate].
Qed.


(** Without a cut the constructor takes its nodes from [network.nodes] by
    subscript, so a negative index counts from the end: the subsystem
    built from [i] in [-n, 0) holds the node of index [i + n], it equals
    the subsystem built from [i + n], and yet the two keep different
    [node_indices].  An index outside [-n, n) raises [IndexError]. *)
Theorem Subsystem_init_index_bounds (network : Network.t) (cs ps : list Z)
    (all : list Node.t) (i : Z) :
  Network_nodes network = Ok all ->
  let n := Z.of_nat (Network.size network) in
  (- n <= i < 0 ->
   exists S S',
     Subsystem_init [i] cs ps network None = Ok S
     /\ Subsystem_init [i + n] cs ps network None = Ok S'
     /\ Subsystem.nodes S = Subsystem.nodes S'
     /\ map Node.index (Subsystem.nodes S) = [i + n]
     /\ Subsystem.node_indices S = [i]
     /\ Subsystem.node_indices S' = [i + n]
     /\ Subsystem_eq S S' = true)
  /\ (i < - n \/ n <= i ->
      Subsystem_init [i] cs ps network None = Raise IndexError).
Proof.
  intros Hall n.
  assert (Hlen : length all = Network.size network).
  { unfold Network_nodes in Hall. apply mapM_Ok_Forall2, Forall2_length in Hall.
    unfold range in Hall. rewrite length_map, length_seq in Hall. auto. }
  assert (Hinit : forall j,
             Subsystem_init [j] cs ps network None
             = (node ← py_index all j;
                Ok (Subsystem.mk [j] (Cut.mk [] [j]) [node]
                      (Network.connectivity_matrix network) (Cut.mk [] [j])
                      cs ps network (hash_subsystem ([j], cs, ps, network))))).
  { intros j. unfold Subsystem_init. cbn [sorted_set fold_right insert_sorted mapM].
    rewrite Hall. cbn [mbind result_bind].
    destruct (py_index all j); reflexivity. }
  split.
  - intros Hi.
    destruct (lookup_lt_is_Some_2 all (Z.to_nat (i + n))) as [node Hnode];
      [subst n; lia|].
    assert (Hneg : py_index all i = Ok node).
    { unfold py_index. rewrite Hlen. fold n.
      replace (i <? 0) with true by (symmetry; apply Z.ltb_lt; lia).
      replace ((0 <=? i + n) && (i + n <? n)) with true
        by (symmetry; apply andb_true_iff; split;
            [apply Z.leb_le|apply Z.ltb_lt]; lia).
      rewrite Hnode. reflexivity. }
    assert (Hpos : py_index all (i + n) = Ok node).
    { unfold py_index. rewrite Hlen. fold n.
      replace (i + n <? 0) with false by (symmetry; apply Z.ltb_ge; lia).
      replace ((0 <=? i + n) && (i + n <? n)) with true
        by (symmetry; apply andb_true_iff; split;
            [apply Z.leb_le|apply Z.ltb_lt]; lia).
      rewrite Hnode. reflexivity. }
    destruct (Network_nodes_fields _ _ _ _ Hall Hnode) as [Hnet Hidx].
    eexists. eexists.
    split; [rewrite Hinit, Hneg; reflexivity|].
    split; [rewrite Hinit, Hpos; reflexivity|].
    cbn. split; [reflexivity|]. split; [rewrite Hidx; f_equal; subst n; lia|].
    split; [reflexivity|]. split; [reflexivity|].
    unfold Subsystem_eq, Node_set_eq. cbn.
    rewrite Node_eq_refl. rewrite !bool_decide_eq_true_2 by reflexivity.
    reflexivity.
  - intros Hi. rewrite Hinit.
    assert (Hout : py_index all i = Raise IndexError).
    { unfold py_index. rewrite Hlen. fold n.
      destruct (i <? 0) eqn:Hneg.
      - apply Z.ltb_lt in Hneg.
        replace ((0 <=? i + n) && (i + n <? n)) with false; [reflexivity|].
        symmetry. apply andb_false_iff. left. apply Z.leb_gt. lia.
      - apply Z.ltb_ge in Hneg.
        replace ((0 <=? i) && (i <? n)) with false; [reflexivity|].
        symmetry. apply andb_false_iff. right. apply Z.ltb_ge. lia. }
    rewrite Hout. reflexivity.
Qed.

End SubsystemClaims.

(** ** Connectivity tests *)

Section ConnectivityFacts.
Context `{Collaborators}.

Lemma mapM_entry_index_nodes (nodes : list Node.t) :
  mapM entry_index (map ENode nodes) = Ok (map Node.index nodes).
Proof.
  induction nodes as [|n nodes IH]; [reflexivity|].
  cbn [map mapM]. rewrite IH. reflexivity.
Qed.

Lemma mapM_total {A B} (f : A -> result B) (g : A -> B) (l : list A) :
  (forall x, In x l -> f x = Ok (g x)) -> mapM f l = Ok (map g l).
Proof.
  induction l as [|x l IH]; intros Hf; [reflexivity|].
  cbn [map mapM]. rewrite (Hf x (or_introl eq_refl)).
  rewrite IH by (intros y Hy; apply Hf; right; exact Hy). reflexivity.
Qed.

Lemma submatrix_total (m : Matrix) (rows cols : list Z) :
  (forall r c, In r rows -> In c cols ->
               exists row v, py_index m r = Ok row /\ py_index row c = Ok v) ->
  cols <> [] ->
  submatrix m rows cols
  = Ok (map (fun r => map (entry_at m r) cols) rows).
Proof.
  intros Hread Hcols. unfold submatrix. apply mapM_total. intros r Hr.
  destruct cols as [|c0 cols]; [contradiction|].
  destruct (Hread r c0 Hr (or_introl eq_refl)) as (row & _ & Hrow & _).
  rewrite Hrow. cbn [mbind result_bind]. apply mapM_total. intros c Hc.
  destruct (Hread r c Hr Hc) as (row' & v & Hrow' & Hv).
  rewrite Hrow in Hrow'. injection Hrow' as <-.
  unfold entry_at. rewrite Hrow, Hv. reflexivity.
Qed.

Lemma Zsum_nonneg (l : list Z) : Forall (fun v => 0 <= v) l -> 0 <= Zsum l.
Proof. induction 1; simpl; lia. Qed.

(** A sum of entries that are not negative is zero only if they all are. *)
Lemma Zsum_truthy (l : list Z) :
  Forall (fun v => 0 <= v) l ->
  truthy (Zsum l) = true <-> exists v, In v l /\ v <> 0.
Proof.
  intros Hpos. rewrite truthy_true. induction Hpos as [|x l Hx Hl IH]; simpl.
  - split; [lia|]. intros (v & [] & _).
  - pose proof (Zsum_nonneg l Hl). split.
    + intros Hsum. destruct (Z.eq_dec x 0) as [->|Hnz].
      * destruct (proj1 IH) as (v & Hv & Hvnz); [lia|]. eauto.
      * eauto.
    + intros (v & [<-|Hv] & Hvnz); [lia|].
      assert (Zsum l <> 0) by (apply IH; eauto). lia.
Qed.

End ConnectivityFacts.

Section ConnectivityClaims.
Context `{Collaborators}.

(** Given nodes, as their documentation has it, the two connectivity tests
    decide what it says for a matrix whose entries are not negative:
    [_all_connect_to_any] is true exactly when every node of the first
    list has a connection to some node of the second, and
    [_any_connect_to_all] exactly when every node of the second list has
    a connection from some node of the first. *)
Theorem connectivity_tests_on_nodes (S : Subsystem.t) (m : Matrix)
    (nodes1 nodes2 : list Node.t) :
  Network.connectivity_matrix (Subsystem.network S) = Some m ->
  nodes1 <> [] -> nodes2 <> [] ->
  (forall a b, In a nodes1 -> In b nodes2 ->
               exists row v, py_index m (Node.index a) = Ok row
                             /\ py_index row (Node.index b) = Ok v /\ 0 <= v) ->
  exists all_any any_all,
    _all_connect_to_any S (map ENode nodes1) (map ENode nodes2) = Ok all_any
    /\ (all_any = true
        <-> forall a, In a nodes1 ->
                      exists b, In b nodes2
                                /\ connects m (Node.index a) (Node.index b))
    /\ _any_connect_to_all S (map ENode nodes1) (map ENode nodes2) = Ok any_all
    /\ (any_all = true
        <-> forall b, In b nodes2 ->
                      exists a, In a nodes1
                                /\ connects m (Node.index a) (Node.index b)).
Proof.
  intros Hm Hn1 Hn2 Hread.
  set (rows := map Node.index nodes1). set (cols := map Node.index nodes2).
  assert (Hsub : submatrix m rows cols
                 = Ok (map (fun r => map (entry_at m r) cols) rows)).
  { apply submatrix_total.
    - intros r c Hr Hc. apply in_map_iff in Hr as (a & <- & Ha).
      apply in_map_iff in Hc as (b & <- & Hb).
      destruct (Hread a b Ha Hb) as (row & v & ? & ? & _). eauto.
    - destruct nodes2; [contradiction|discriminate]. }
  assert (Hentry : forall a b, In a nodes1 -> In b nodes2 ->
             0 <= entry_at m (Node.index a) (Node.index b)
             /\ (entry_at m (Node.index a) (Node.index b) <> 0
                 <-> connects m (Node.index a) (Node.index b))).
  { intros a b Ha Hb. destruct (Hread a b Ha Hb) as (row & v & Hrow & Hv & Hpos).
    unfold entry_at, connects. rewrite Hrow, Hv. split; [exact Hpos|]. split.
    - intros Hnz. exists row, v. auto.
    - intros (row' & v' & Hrow' & Hv' & Hnz).
      injection Hrow' as <-. rewrite Hv in Hv'. injection Hv' as <-. exact Hnz. }
  assert (Hrun : forall axis,
             _test_connections S axis (map ENode nodes1) (map ENode nodes2)
             = (sums ← matrix_sum (map (fun r => map (entry_at m r) cols) rows)
                                  (length cols) axis;
                Ok (forallb truthy sums))).
  { intros axis. unfold _test_connections. rewrite Hm.
    destruct nodes1 as [|a1 l1]; [contradiction|].
    destruct nodes2 as [|b1 l2]; [contradiction|].
    rewrite !mapM_entry_index_nodes. cbn [mbind result_bind].
    fold rows cols. rewrite Hsub. reflexivity. }
  eexists. eexists.
  split; [unfold _all_connect_to_any; rewrite Hrun; reflexivity|].
  split.
  { cbn [matrix_sum Z.eqb orb]. rewrite forallb_forall. split.
    - intros Hall a Ha.
      assert (Hsum : truthy (Zsum (map (entry_at m (Node.index a)) cols)) = true).
      { apply Hall. rewrite map_map. apply in_map_iff. exists (Node.index a).
        split; [reflexivity|]. apply in_map. exact Ha. }
      apply Zsum_truthy in Hsum.
      + destruct Hsum as (v & Hv & Hnz). unfold cols in Hv. rewrite map_map in Hv.
        apply in_map_iff in Hv as (b & <- & Hb). exists b. split; [exact Hb|].
        apply (Hentry a b Ha Hb), Hnz.
      + apply List.Forall_forall. intros v Hv. unfold cols in Hv.
        rewrite map_map in Hv. apply in_map_iff in Hv as (b & <- & Hb).
        apply (Hentry a b Ha Hb).
    - intros Hall sum Hsum. rewrite map_map in Hsum.
      apply in_map_iff in Hsum as (r & <- & Hr).
      apply in_map_iff in Hr as (a & <- & Ha).
      apply Zsum_truthy.
      + apply List.Forall_forall. intros v Hv. unfold cols in Hv.
        rewrite map_map in Hv. apply in_map_iff in Hv as (b & <- & Hb).
        apply (Hentry a b Ha Hb).
      + destruct (Hall a Ha) as (b & Hb & Hconn).
        exists (entry_at m (Node.index a) (Node.index b)). split.
        * unfold cols. rewrite map_map. apply in_map_iff. eauto.
        * apply (Hentry a b Ha Hb), Hconn. }
  split; [unfold _any_connect_to_all; rewrite Hrun; reflexivity|].
  cbn [matrix_sum Z.eqb orb mbind result_bind].
  assert (Hcol : forall j b, nodes2 !! j = Some b ->
             map (fun row => nth j row 0)
                 (map (fun r => map (entry_at m r) cols) rows)
             = map (fun a => entry_at m (Node.index a) (Node.index b)) nodes1).
  { intros j b Hj. unfold rows. rewrite !map_map. apply map_ext. intros a.
    rewrite nth_lookup, list_lookup_fmap. unfold cols.
    rewrite list_lookup_fmap, Hj. reflexivity. }
  rewrite forallb_forall. split.
  - intros Hall b Hb.
    destruct (proj1 (list_elem_of_lookup _ _) (proj2 (list_elem_of_In _ _) Hb))
      as [j Hj].
    assert (Hsum : truthy (Zsum (map (fun a => entry_at m (Node.index a)
                                                        (Node.index b)) nodes1))
                   = true).
    { rewrite <- (Hcol j b Hj). apply Hall. apply in_map_iff. exists j.
      split; [reflexivity|]. apply in_seq. unfold cols. rewrite length_map.
      apply lookup_lt_Some in Hj. lia. }
    apply Zsum_truthy in Hsum.
    + destruct Hsum as (v & Hv & Hnz). apply in_map_iff in Hv as (a & <- & Ha).
      exists a. split; [exact Ha|]. apply (Hentry a b Ha Hb), Hnz.
    + apply List.Forall_forall. intros v Hv.
      apply in_map_iff in Hv as (a & <- & Ha). apply (Hentry a b Ha Hb).
  - intros Hall sum Hsum. apply in_map_iff in Hsum as (j & <- & Hj).
    apply in_seq in Hj. unfold cols in Hj. rewrite length_map in Hj.
    destruct (lookup_lt_is_Some_2 nodes2 j) as [b Hb]; [lia|].
    assert (Hinb : In b nodes2)
      by (apply list_elem_of_In; eapply list_elem_of_lookup_2; exact Hb).
    rewrite (Hcol j b Hb). apply Zsum_truthy.
    + apply List.Forall_forall. intros v Hv.
      apply in_map_iff in Hv as (a & <- & Ha). apply (Hentry a b Ha Hinb).
    + destruct (Hall b Hinb) as (a & Ha & Hconn).
      exists (entry_at m (Node.index a) (Node.index b)). split.
      * apply in_map_iff. eauto.
      * apply (Hentry a b Ha Hinb), Hconn.
Qed.

End ConnectivityClaims.

(** ** Results of the partition search *)

Section MipResultFacts.
Context `{Collaborators}.

Lemma find_mip_loop_result (S : Subsystem.t) (direction : Direction)
    (mechanism purview : list Node.t) (u : Tensor)
    (candidates : list (Part.t * Part.t)) (phi_min : option Q)
    (mip mip' : Mip.t) :
  find_mip_loop S direction mechanism purview u candidates phi_min mip
  = Ok (Some mip') ->
  (mip' = mip /\ (phi_min = None -> candidates = []))
  \/ exists c, In c candidates
               /\ records_partition S direction mechanism purview u mip' c.
Proof.
  revert phi_min mip. induction candidates as [|c rest IH]; intros phi_min mip.
  - simpl. intros Hr. injection Hr as <-. left. auto.
  - cbn [find_mip_loop]. intros Hr.
    apply bind_Ok in Hr as ([t q] & Hc & Hr).
    destruct (Qlt_bool q EPSILON) eqn:Hlow; [discriminate|].
    apply Qlt_bool_false in Hlow.
    assert (Hgood : records_partition S direction mechanism purview u
                      (Mip.mk direction mechanism purview (Some c) (Some u)
                              (Some t) q) c).
    { exists t. cbn. split; [exact Hc|]. split; [|reflexivity].
      apply Qle_not_lt, Hlow. }
    destruct (match phi_min with
              | Some m => Qlt_bool EPSILON (m - q)
              | None => true
              end) eqn:Hbetter.
    + apply IH in Hr as [[-> _]|(c' & Hc' & Hrec)].
      * right. exists c. split; [left; reflexivity|exact Hgood].
      * right. exists c'. split; [right; exact Hc'|exact Hrec].
    + destruct phi_min as [m|]; [|discriminate].
      apply IH in Hr as [[-> _]|(c' & Hc' & Hrec)].
      * left. split; [reflexivity|discriminate].
      * right. exists c'. split; [right; exact Hc'|exact Hrec].
Qed.

End MipResultFacts.

Section MipResultClaims.
Context `{Collaborators}.

(** Whatever Mip [find_mip] returns is the null Mip of phi 0, when there
    is no bipartition to try, or records one of the bipartitions tried:
    that bipartition, its repertoire, the unpartitioned repertoire and
    their distance, which is not below the tolerance. *)
Theorem find_mip_returns_a_candidate (S : Subsystem.t) (direction : Direction)
    (mechanism purview : list Node.t) (mip : Mip.t) :
  find_mip S direction mechanism purview = Ok (Some mip) ->
  (_mip_bipartition mechanism purview = []
   /\ mip = _null_mip direction mechanism purview)
  \/ exists u c,
       _get_repertoire S direction mechanism purview = Ok u
       /\ In c (_mip_bipartition mechanism purview)
       /\ records_partition S direction mechanism purview u mip c.
Proof.
  unfold find_mip. intros Hr. apply bind_Ok in Hr as (u & Hu & Hr).
  apply find_mip_loop_result in Hr as [[-> Hnil]|(c & Hc & Hrec)].
  - left. split; [apply Hnil; reflexivity|reflexivity].
  - right. exists u, c. auto.
Qed.

(** The phi of a mechanism over a purview is 0 or at least the tolerance,
    never in between: each direction gives 0 for a reducible mechanism,
    for the null Mip and for a Mip that is falsy because its phi is 0, and
    otherwise the distance of a bipartition that passed the tolerance
    test. *)
Theorem phi_is_zero_or_above_tolerance (Mip_bool : Mip.t -> bool)
    (S : Subsystem.t) (mechanism purview : list Node.t) (q : Q) :
  (forall mip, Mip_bool mip = false -> (Mip.phi mip == 0)%Q) ->
  phi Mip_bool S mechanism purview = Ok q ->
  (q == 0)%Q \/ (EPSILON <= q)%Q.
Proof.
  intros Hbool Hphi.
  assert (Hdir : forall direction mip,
             find_mip S direction mechanism purview = Ok mip ->
             (phi_of_mip Mip_bool mip == 0)%Q
             \/ (EPSILON <= phi_of_mip Mip_bool mip)%Q).
  { intros direction [mip|] Hmip; [|left; reflexivity].
    cbn [phi_of_mip]. destruct (Mip_bool mip) eqn:Hb; [|left; reflexivity].
    unfold find_mip in Hmip. apply bind_Ok in Hmip as (u & _ & Hmip).
    apply find_mip_loop_result in Hmip as [[-> _]|(c & _ & t & _ & Hge & _)].
    - left. reflexivity.
    - right. apply Qnot_lt_le, Hge. }
  unfold phi, phi_mip_past, phi_mip_future, mip_past, mip_future in Hphi.
  destruct (find_mip S Past mechanism purview) as [past|] eqn:Hpast;
    [|discriminate].
  destruct (find_mip S Future mechanism purview) as [future|] eqn:Hfuture;
    [|discriminate].
  cbn in Hphi. injection Hphi as <-.
  destruct (Hdir Past past Hpast) as [Hp|Hp],
           (Hdir Future future Hfuture) as [Hf|Hf].
  - left. destruct (Q.min_spec (phi_of_mip Mip_bool past)
                               (phi_of_mip Mip_bool future)) as [[_ ->]|[_ ->]];
      assumption.
  - destruct (Q.min_spec (phi_of_mip Mip_bool past)
                         (phi_of_mip Mip_bool future)) as [[_ ->]|[_ ->]];
      auto.
  - destruct (Q.min_spec (phi_of_mip Mip_bool past)
                         (phi_of_mip Mip_bool future)) as [[_ ->]|[_ ->]];
      auto.
  - right. apply Q.min_glb; assumption.
Qed.

End MipResultClaims.

(** ** Growth of the Mice cache *)

Section CacheGrowth.
Context `{Collaborators}.

Lemma keeps_entries_ret {A} (a : A) : keeps_entries (mret a : Cached A).
Proof. intros cache. reflexivity. Qed.

Lemma keeps_entries_lift {A} (r : result A) : keeps_entries (lift r).
Proof. intros cache. reflexivity. Qed.

Lemma keeps_entries_bind {A B} (m : Cached A) (f : A -> Cached B) :
  keeps_entries m -> (forall a, keeps_entries (f a)) ->
  keeps_entries (m ≫= f).
Proof.
  intros Hm Hf cache. unfold mbind, Cached_bind.
  pose proof (Hm cache) as Hstep. destruct (m cache) as [[a|e] cache'].
  - simpl in Hstep. etransitivity; [exact Hstep|apply Hf].
  - exact Hstep.
Qed.

Lemma keeps_entries_mapM {A B} (f : A -> Cached B) (l : list A) :
  (forall x, keeps_entries (f x)) -> keeps_entries (mapM f l).
Proof.
  intros Hf. induction l as [|x l IH]; [apply keeps_entries_ret|].
  cbn [mapM]. apply keeps_entries_bind; [apply Hf|]. intros y.
  apply keeps_entries_bind; [exact IH|]. intros k. apply keeps_entries_ret.
Qed.

Lemma keeps_entries_find_mice (S : Subsystem.t) (direction : Direction)
    (mechanism_indices : list Z) :
  keeps_entries (find_mice S direction mechanism_indices).
Proof.
  intros cache. unfold find_mice.
  destruct (_get_cached_mice _ _ _ _); [reflexivity|].
  destruct (find_mice_search _ _ _) as [mice|e]; [|reflexivity].
  cbn [snd]. unfold _cache_mice.
  destruct (cache !! _) eqn:Hkey; [reflexivity|].
  apply insert_subseteq. exact Hkey.
Qed.

Lemma keeps_entries_concept (S : Subsystem.t) (mechanism_indices : list Z) :
  keeps_entries (concept S mechanism_indices).
Proof.
  unfold concept, _concept.
  apply keeps_entries_bind; [apply keeps_entries_lift|]. intros connected.
  destruct (negb connected); [apply keeps_entries_ret|].
  apply keeps_entries_bind; [apply keeps_entries_find_mice|]. intros past.
  apply keeps_entries_bind; [apply keeps_entries_find_mice|]. intros future.
  destruct (Qlt_bool _ _); [apply keeps_entries_ret|].
  apply keeps_entries_bind; [apply keeps_entries_lift|]. intros c.
  apply keeps_entries_bind; [apply keeps_entries_lift|]. intros e.
  apply keeps_entries_ret.
Qed.

Lemma keeps_entries_constellation (S : Subsystem.t) :
  keeps_entries (constellation S).
Proof.
  unfold constellation. apply keeps_entries_bind.
  - apply keeps_entries_mapM. intros m. apply keeps_entries_concept.
  - intros concepts. apply keeps_entries_ret.
Qed.

Lemma keeps_entries_evaluate_directed_cut (S : Subsystem.t) (cut : Cut.t)
    (C : list Concept.t) :
  keeps_entries (evaluate_directed_cut S cut C).
Proof.
  unfold evaluate_directed_cut.
  apply keeps_entries_bind; [apply keeps_entries_lift|]. intros cut_subsystem.
  apply keeps_entries_bind; [apply keeps_entries_constellation|]. intros C'.
  apply keeps_entries_bind; [apply keeps_entries_lift|]. intros null.
  apply keeps_entries_ret.
Qed.

Lemma keeps_entries_big_mip (S : Subsystem.t) : keeps_entries (big_mip S).
Proof.
  unfold big_mip, _big_mip.
  destruct (_ =? _)%nat; [apply keeps_entries_ret|].
  destruct (Subsystem.node_indices S); [apply keeps_entries_ret|].
  apply keeps_entries_bind; [apply keeps_entries_lift|]. intros disconnected.
  destruct disconnected; [apply keeps_entries_ret|].
  destruct (tail _); [apply keeps_entries_ret|].
  unfold cut_search.
  apply keeps_entries_bind; [apply keeps_entries_constellation|]. intros C.
  apply keeps_entries_bind; [|intros; apply keeps_entries_lift].
  apply keeps_entries_mapM. intros partition. unfold _evaluate_cut.
  apply keeps_entries_bind; [apply keeps_entries_evaluate_directed_cut|].
  intros forward.
  apply keeps_entries_bind; [apply keeps_entries_evaluate_directed_cut|].
  intros backward. apply keeps_entries_lift.
Qed.

End CacheGrowth.

Section CacheGrowthClaims.
Context `{Collaborators}.

(** The Mice cache only grows.  Whether it returns or raises, no call of
    [find_mice], [concept], [constellation], [big_mip] or [big_phi]
    removes an entry or replaces its value: every key present before the
    call maps to the same Mice after it. *)
Theorem mice_cache_only_grows (S : Subsystem.t) (cache : MiceCache)
    (key : Z * Direction * list Z) (mice : Mice.t) :
  cache !! key = Some mice ->
  (forall direction mechanism_indices,
      snd (find_mice S direction mechanism_indices cache) !! key = Some mice)
  /\ (forall mechanism_indices,
         snd (concept S mechanism_indices cache) !! key = Some mice)
  /\ snd (constellation S cache) !! key = Some mice
  /\ snd (big_mip S cache) !! key = Some mice
  /\ snd (big_phi S cache) !! key = Some mice.
Proof.
  intros Hkey.
  assert (Hkeep : forall A (m : Cached A),
             keeps_entries m -> snd (m cache) !! key = Some mice).
  { intros A m Hm. exact (lookup_weaken _ _ _ _ Hkey (Hm cache)). }
  repeat split; intros; apply Hkeep.
  - apply keeps_entries_find_mice.
  - apply keeps_entries_concept.
  - apply keeps_entries_constellation.
  - apply keeps_entries_big_mip.
  - unfold big_phi. apply keeps_entries_bind; [apply keeps_entries_big_mip|].
    intros mip. apply keeps_entries_ret.
Qed.

End CacheGrowthClaims.

(** ** Distances *)

Section DistanceClaims.
Context `{Collaborators}.

(** Two constellations with the same concepts, each concept of one being
    equal to a concept of the other, are at distance 0: nothing was
    destroyed and the earth mover's distance is not consulted.  In
    particular a constellation is at distance 0 from itself when
    [Concept.__eq__] is reflexive. *)
Theorem constellation_distance_same_concepts (C1 C2 : list Concept.t)
    (null_concept : Concept.t) :
  (forall c, In c C1 -> Concept_in c C2 = true) ->
  (forall c, In c C2 -> Concept_in c C1 = true) ->
  constellation_distance C1 C2 null_concept = 0%Q.
Proof.
  intros H12 H21. unfold constellation_distance.
  assert (Hu1 : List.filter (fun c => negb (Concept_in c C2)) C1 = []).
  { apply filter_nil_iff. intros c Hc. rewrite (H12 c Hc). reflexivity. }
  assert (Hu2 : List.filter (fun c => negb (Concept_in c C1)) C2 = []).
  { apply filter_nil_iff. intros c Hc. rewrite (H21 c Hc). reflexivity. }
  rewrite Hu1. unfold _constellation_distance_simple.
  destruct (length C1 <? length C2)%nat; [rewrite Hu2|rewrite Hu1]; reflexivity.
Qed.

(** When one of the constellations has no concept of its own and the two
    have different numbers of concepts, the distance does not depend on
    the order of the arguments: the longer constellation is taken as the
    first. *)
Theorem constellation_distance_symmetric_when_concepts_vanish
    (C1 C2 : list Concept.t) (null_concept : Concept.t) :
  length C1 <> length C2 ->
  List.filter (fun c => negb (Concept_in c C2)) C1 = []
  \/ List.filter (fun c => negb (Concept_in c C1)) C2 = [] ->
  constellation_distance C1 C2 null_concept
  = constellation_distance C2 C1 null_concept.
Proof.
  intros Hlen Hempty.
  assert (Hsimple : forall A B : list Concept.t,
             List.filter (fun c => negb (Concept_in c B)) A = []
             \/ List.filter (fun c => negb (Concept_in c A)) B = [] ->
             constellation_distance A B null_concept
             = _constellation_distance_simple A B null_concept).
  { intros A B [HA|HB]; unfold constellation_distance.
    - rewrite HA. reflexivity.
    - rewrite HB. destruct (List.filter _ A); reflexivity. }
  rewrite (Hsimple C1 C2 Hempty).
  rewrite (Hsimple C2 C1) by tauto.
  unfold _constellation_distance_simple.
  destruct (Nat.ltb_spec (length C1) (length C2)),
           (Nat.ltb_spec (length C2) (length C1)); try reflexivity; lia.
Qed.

(** When the first constellation carries more phi than the second, the
    residual is written on the null concept's slot of the second vector
    and the two vectors handed to the solver have the same sum; the first
    vector is left as it was. *)
Theorem emd_masses_balance_when_first_is_heavier
    (C1 C2 unique_C1 unique_C2 : list Concept.t) (null_concept : Concept.t) :
  (Concept.phi null_concept == 0)%Q ->
  (0 < emd_residual C1 C2 unique_C1 unique_C2 null_concept)%Q ->
  let d := emd_masses C1 C2 unique_C1 unique_C2 null_concept in
  fst d = map (concept_mass C1)
              (emd_universe C1 C2 unique_C1 unique_C2 null_concept)
  /\ (List.last (snd d) 0
      == emd_residual C1 C2 unique_C1 unique_C2 null_concept)%Q
  /\ (py_sum (fst d) == py_sum (snd d))%Q.
Proof.
  intros Hnull Hpos d. subst d. unfold emd_masses.
  fold (emd_residual C1 C2 unique_C1 unique_C2 null_concept).
  assert (Hr : (emd_residual C1 C2 unique_C1 unique_C2 null_concept
                == py_sum (map (concept_mass C1)
                             (emd_universe C1 C2 unique_C1 unique_C2 null_concept))
                   - py_sum (map (concept_mass C2)
                               (emd_universe C1 C2 unique_C1 unique_C2
                                             null_concept)))%Q)
    by reflexivity.
  set (r := emd_residual C1 C2 unique_C1 unique_C2 null_concept) in *.
  assert (Hlt : Qlt_bool 0 r = true) by (apply Qlt_bool_iff, Hpos).
  assert (Hge : Qlt_bool r 0 = false).
  { apply Qlt_bool_false. apply Qlt_le_weak, Hpos. }
  rewrite Hlt, Hge. cbn [fst snd]. split; [reflexivity|].
  revert Hr. unfold emd_universe. rewrite !app_assoc, !map_app. simpl map.
  rewrite set_last_app_one, List.last_last, !py_sum_app_one.
  assert (Hm : (concept_mass C2 null_concept == 0)%Q).
  { unfold concept_mass. destruct (Concept_in null_concept C2);
      [exact Hnull|reflexivity]. }
  intros Hr. split; [reflexivity|]. lra.
Qed.

End DistanceClaims.

(** ** Concepts *)

Section ComputeClaims.
Context `{Collaborators}.

(** A concept carries the [phi_max] of its mechanism: when [concept]
    returns a concept, [phi_max] run from the same cache returns the
    concept's phi and leaves the same cache; that phi is the smaller of
    the phis of the core cause and the core effect kept in the concept,
    and is not below the tolerance. *)
Theorem concept_phi_is_phi_max (S : Subsystem.t) (mechanism_indices : list Z)
    (cache cache' : MiceCache) (c : Concept.t) :
  concept S mechanism_indices cache = (Ok (Some c), cache') ->
  phi_max S mechanism_indices cache = (Ok (Concept.phi c), cache')
  /\ Concept.mechanism c = mechanism_indices
  /\ ~ (Concept.phi c < EPSILON)%Q
  /\ exists past future,
       Concept.cause c = Some past /\ Concept.effect c = Some future
       /\ Concept.phi c = Qmin (Mice.phi past) (Mice.phi future).
Proof.
  intros Hc. unfold concept, _concept, lift in Hc.
  unfold mbind at 1, Cached_bind at 1 in Hc.
  destruct (concept_prescreen S mechanism_indices) as [connected|e];
    [|discriminate].
  destruct connected; cbn [negb] in Hc; [|discriminate].
  unfold mbind at 1, Cached_bind at 1 in Hc.
  destruct (core_cause S mechanism_indices cache) as [[past|e] cache1] eqn:Hpast;
    [|discriminate].
  unfold mbind at 1, Cached_bind at 1 in Hc.
  destruct (core_effect S mechanism_indices cache1) as [[future|e] cache2]
    eqn:Hfuture; [|discriminate].
  destruct (Qlt_bool _ _) eqn:Hlow; [discriminate|].
  unfold mbind at 1, Cached_bind at 1 in Hc.
  destruct (_expand_repertoire S Past _ _) as [cl|e]; [|discriminate].
  unfold mbind at 1, Cached_bind at 1 in Hc.
  destruct (_expand_repertoire S Future _ _) as [el|e]; [|discriminate].
  injection Hc as <- <-. cbn [Concept.phi Concept.mechanism Concept.cause
                              Concept.effect].
  split.
  - unfold phi_max, mbind, Cached_bind. rewrite Hpast, Hfuture. reflexivity.
  - split; [reflexivity|]. split.
    + apply Qlt_bool_false in Hlow. apply Qle_not_lt, Hlow.
    + eauto.
Qed.

End ComputeClaims.

(** ** The properties on the sample networks *)

Section Witnesses.
#[local] Existing Instance Sample.collaborators.

Lemma valid_tpm_graded : valid_tpm Sample.graded_network.
Proof.
  unfold valid_tpm. simpl.
  repeat constructor; unfold Qle; simpl; lia.
Qed.

Lemma Node_tpm_is_conditional_distribution_witness :
  exists node,
    Node_init Sample.graded_network 2 None None = Ok node
    /\ (forall s, tget (fst (Node.tpm node)) s + tget (snd (Node.tpm node)) s
                  == 1)%Q
    /\ (forall s, 0 <= tget (snd (Node.tpm node)) s <= 1)%Q.
Proof.
  destruct (returns_Ok (Node_init Sample.graded_network 2 None None))
    as [node Hnode]; [vm_compute; reflexivity|].
  exists node. split; [exact Hnode|].
  destruct (Node_tpm_is_conditional_distribution _ _ _ _ _ Hnode)
    as (_ & _ & _ & Hsum & Hprob).
  split; [exact Hsum|]. intros s. apply (Hprob valid_tpm_graded s).
Defined.

Lemma Node_dimension_labels_number_the_inputs_witness :
  exists node,
    Node_init Sample.graded_network 2 None None = Ok node
    /\ length (Node._dimension_labels node) = 3%nat.
Proof.
  destruct (returns_Ok (Node_init Sample.graded_network 2 None None))
    as [node Hnode]; [vm_compute; reflexivity|].
  exists node. split; [exact Hnode|].
  exact (proj1 (Node_dimension_labels_number_the_inputs _ _ _ _ _ Hnode)).
Defined.

Lemma Node_outputs_mirror_inputs_witness :
  exists all a b ins outs,
    Network_nodes Sample.chain_network = Ok all
    /\ all !! 0%nat = Some a /\ all !! 1%nat = Some b
    /\ Node_inputs b = Ok ins /\ Node_outputs a = Ok outs
    /\ Node_in a ins = Node_in b outs.
Proof.
  destruct (returns_Ok (Network_nodes Sample.chain_network)) as [all Hall];
    [vm_compute; reflexivity|].
  assert (Hlen : length all = 2%nat).
  { unfold Network_nodes in Hall. apply mapM_Ok_Forall2, Forall2_length in Hall.
    rewrite <- Hall. reflexivity. }
  destruct (lookup_lt_is_Some_2 all 0) as [a Ha]; [lia|].
  destruct (lookup_lt_is_Some_2 all 1) as [b Hb]; [lia|].
  destruct (Node_outputs_mirror_inputs Sample.chain_network [[0; 1]; [0; 0]]
              all 0 1 a b eq_refl Hall Ha Hb)
    as (ins & outs & Hins & Houts & Heq & _).
  exists all, a, b, ins, outs. auto 10.
Defined.

Lemma Node_outputs_need_a_matrix_witness :
  exists node all,
    Node_init Sample.unwired_network 0 None None = Ok node
    /\ Node_inputs node = Ok all /\ Node_outputs node = Raise AttributeError.
Proof.
  destruct (returns_Ok (Node_init Sample.unwired_network 0 None None))
    as [node Hnode]; [vm_compute; reflexivity|].
  destruct (returns_Ok (Network_nodes Sample.unwired_network)) as [all Hall];
    [vm_compute; reflexivity|].
  exists node, all. split; [exact Hnode|].
  exact (Node_outputs_need_a_matrix Sample.unwired_network 0 None node all
           eq_refl Hnode Hall).
Defined.

Lemma Subsystem_init_normalises_witness :
  exists S,
    Subsystem_init [1; 0; 1] [0; 0] [0; 0] Sample.swap_network None = Ok S
    /\ StronglySorted Z.lt (Subsystem.node_indices S)
    /\ map Node.index (Subsystem.nodes S) = Subsystem.node_indices S.
Proof.
  destruct (returns_Ok (Subsystem_init [1; 0; 1] [0; 0] [0; 0]
                                       Sample.swap_network None))
    as [S HS]; [vm_compute; reflexivity|].
  exists S. split; [exact HS|].
  destruct (Subsystem_init_normalises _ _ _ _ _ _ HS)
    as (Hsorted & _ & _ & _ & Hidx & _).
  split; [exact Hsorted|]. apply Hidx. repeat constructor; lia.
Defined.

Lemma Subsystem_eq_iff_same_arguments_witness :
  exists S1 S2,
    Subsystem_init [1; 0; 1] [0; 0] [0; 0] Sample.swap_network None = Ok S1
    /\ Subsystem_init [0; 1] [0; 0] [0; 0] Sample.swap_network
                      (Some Sample.cut_0_to_1) = Ok S2
    /\ Subsystem_eq S1 S2 = true /\ Subsystem_hash S1 = Subsystem_hash S2.
Proof.
  destruct (returns_Ok (Subsystem_init [1; 0; 1] [0; 0] [0; 0]
                                       Sample.swap_network None))
    as [S1 HS1]; [vm_compute; reflexivity|].
  destruct (returns_Ok (Subsystem_init [0; 1] [0; 0] [0; 0] Sample.swap_network
                                       (Some Sample.cut_0_to_1)))
    as [S2 HS2]; [vm_compute; reflexivity|].
  exists S1, S2. split; [exact HS1|]. split; [exact HS2|].
  assert (Hpos1 : Forall (fun i => 0 <= i) [1; 0; 1])
    by (repeat constructor; lia).
  assert (Hpos2 : Forall (fun i => 0 <= i) [0; 1])
    by (repeat constructor; lia).
  destruct (Subsystem_eq_iff_same_arguments _ _ _ _ _ _ _ _ _ _ S1 S2
              Hpos1 Hpos2 HS1 HS2) as [Hiff Hhash].
  assert (Heq : Subsystem_eq S1 S2 = true).
  { apply Hiff. repeat split; try reflexivity; simpl; intuition. }
  split; [exact Heq|exact (Hhash Heq)].
Defined.

Lemma Subsystem_order_agrees_with_eq_witness :
  let S1 := Sample.built (Subsystem_init [1; 0; 1] [0; 0] [0; 0]
                                         Sample.swap_network None) in
  let S2 := Sample.swap_cut_subsystem in
  Subsystem_eq S1 S2 = true
  /\ Subsystem_le S1 S2 = true /\ Subsystem_ge S1 S2 = true
  /\ Subsystem_lt S1 S2 = false /\ Subsystem_gt S1 S2 = false.
Proof.
  intros S1 S2.
  assert (HS1 : Subsystem_init [1; 0; 1] [0; 0] [0; 0] Sample.swap_network None
                = Ok S1) by (apply built_Ok; vm_compute; reflexivity).
  assert (HS2 : Subsystem_init [0; 1] [0; 0] [0; 0] Sample.swap_network
                               (Some Sample.cut_0_to_1) = Ok S2)
    by (apply built_Ok; vm_compute; reflexivity).
  assert (Hpos1 : Forall (fun i => 0 <= i) [1; 0; 1])
    by (repeat constructor; lia).
  assert (Hpos2 : Forall (fun i => 0 <= i) [0; 1])
    by (repeat constructor; lia).
  assert (Heq : Subsystem_eq S1 S2 = true) by (vm_compute; reflexivity).
  destruct (Subsystem_order_agrees_with_eq _ _ _ _ _ _ _ _ _ _ S1 S2
              Hpos1 Hpos2 HS1 HS2) as [Horder _].
  split; [exact Heq|exact (Horder Heq)].
Defined.

Lemma Subsystem_init_index_bounds_witness :
  exists S S',
    Subsystem_init [-1] [0; 0] [0; 0] Sample.swap_network None = Ok S
    /\ Subsystem_init [1] [0; 0] [0; 0] Sample.swap_network None = Ok S'
    /\ Subsystem.nodes S = Subsystem.nodes S'
    /\ Subsystem.node_indices S = [-1] /\ Subsystem.node_indices S' = [1]
    /\ Subsystem_init [2] [0; 0] [0; 0] Sample.swap_network None
       = Raise IndexError.
Proof.
  destruct (returns_Ok (Network_nodes Sample.swap_network)) as [all Hall];
    [vm_compute; reflexivity|].
  destruct (Subsystem_init_index_bounds Sample.swap_network [0; 0] [0; 0] all
              (-1) Hall) as [Hneg _].
  destruct (Subsystem_init_index_bounds Sample.swap_network [0; 0] [0; 0] all
              2 Hall) as [_ Hout].
  destruct Hneg as (S & S' & HS & HS' & Hnodes & _ & Hi & Hi' & _);
    [simpl; lia|].
  exists S, S'. split; [exact HS|]. split; [exact HS'|].
  split; [exact Hnodes|]. split; [exact Hi|]. split; [exact Hi'|].
  apply Hout. simpl. lia.
Defined.

Lemma connectivity_tests_on_nodes_witness :
  let S := Sample.chain_subsystem in
  exists all_any any_all,
    _all_connect_to_any S (map ENode (Subsystem.nodes S))
                        (map ENode (Subsystem.nodes S)) = Ok all_any
    /\ _any_connect_to_all S (map ENode (Subsystem.nodes S))
                           (map ENode (Subsystem.nodes S)) = Ok any_all.
Proof.
  intros S.
  assert (HS : Subsystem_init [0; 1] [0; 0] [0; 0] Sample.chain_network None
               = Ok S).
  { apply built_Ok. vm_compute. reflexivity. }
  assert (Hpos : Forall (fun i => 0 <= i) [0; 1]) by (repeat constructor; lia).
  destruct (Subsystem_init_nodes _ _ _ _ _ _ Hpos HS) as (_ & _ & Hnet & _ & HF).
  destruct (Forall2_index_In _ _ _ HF) as (Hn & _ & Hmap).
  assert (Hlen : length (Subsystem.nodes S) = 2%nat).
  { apply Forall2_length in HF. rewrite <- HF. reflexivity. }
  destruct (connectivity_tests_on_nodes S [[0; 1]; [0; 0]]
              (Subsystem.nodes S) (Subsystem.nodes S))
    as (all_any & any_all & Hall & _ & Hany & _).
  - rewrite Hnet. reflexivity.
  - intros Hnil. rewrite Hnil in Hlen. discriminate.
  - intros Hnil. rewrite Hnil in Hlen. discriminate.
  - intros a b Ha Hb. destruct (Hn a Ha) as [_ Hia], (Hn b Hb) as [_ Hib].
    simpl in Hia, Hib.
    destruct Hia as [<-|[<-|[]]], Hib as [<-|[<-|[]]]; vm_compute; eauto 10;
      do 2 eexists; repeat split; discriminate.
  - exists all_any, any_all. auto.
Defined.


Lemma find_mip_returns_a_candidate_witness :
  let S := Sample.graded_subsystem in
  let mechanism := take 2 (Subsystem.nodes S) in
  let purview := drop 2 (Subsystem.nodes S) in
  exists mip u c,
    find_mip S Future mechanism purview = Ok (Some mip)
    /\ In c (_mip_bipartition mechanism purview)
    /\ records_partition S Future mechanism purview u mip c.
Proof.
  intros S mechanism purview.
  destruct (returns_some_Ok (find_mip S Future mechanism purview))
    as [mip Hmip]; [vm_compute; reflexivity|].
  destruct (find_mip_returns_a_candidate S Future mechanism purview mip Hmip)
    as [[Hnil _]|(u & c & _ & Hc & Hrec)].
  - assert (Hlen : length (_mip_bipartition mechanism purview) = 3%nat)
      by (vm_compute; reflexivity).
    rewrite Hnil in Hlen. discriminate.
  - exists mip, u, c. auto.
Defined.

Lemma phi_is_zero_or_above_tolerance_witness :
  let S := Sample.graded_subsystem in
  let mechanism := take 2 (Subsystem.nodes S) in
  let purview := drop 2 (Subsystem.nodes S) in
  exists q,
    phi (fun _ => true) S mechanism purview = Ok q
    /\ ((q == 0)%Q \/ (EPSILON <= q)%Q).
Proof.
  intros S mechanism purview.
  destruct (returns_Ok (phi (fun _ => true) S mechanism purview)) as [q Hq];
    [vm_compute; reflexivity|].
  exists q. split; [exact Hq|].
  apply (phi_is_zero_or_above_tolerance (fun _ => true) S mechanism purview q);
    [discriminate|exact Hq].
Defined.

Lemma mice_cache_only_grows_witness :
  let mice := Mice.mk Past [] [] None (_null_mip Past [] []) 0 in
  let key := _get_mice_key Sample.swap_subsystem Past [] in
  let cache : MiceCache := {[ key := mice ]} in
  snd (find_mice Sample.swap_cut_subsystem Future [0] cache) !! key = Some mice
  /\ snd (big_mip Sample.swap_subsystem cache) !! key = Some mice.
Proof.
  intros mice key cache.
  destruct (mice_cache_only_grows Sample.swap_subsystem cache key mice)
    as (_ & _ & _ & Hbig & _); [apply lookup_singleton_eq|].
  destruct (mice_cache_only_grows Sample.swap_cut_subsystem cache key mice)
    as (Hfind & _); [apply lookup_singleton_eq|].
  split; [apply Hfind|exact Hbig].
Defined.

Lemma constellation_distance_same_concepts_witness :
  constellation_distance [Sample.concept_a; Sample.concept_b]
                         [Sample.concept_b; Sample.concept_a; Sample.concept_b]
                         Sample.concept_null
  = 0%Q.
Proof.
  apply constellation_distance_same_concepts.
  - intros c [<-|[<-|[]]]; vm_compute; reflexivity.
  - intros c [<-|[<-|[<-|[]]]]; vm_compute; reflexivity.
Defined.

Lemma constellation_distance_symmetric_when_concepts_vanish_witness :
  constellation_distance [Sample.concept_a; Sample.concept_b] [Sample.concept_b]
                         Sample.concept_null
  = constellation_distance [Sample.concept_b] [Sample.concept_a; Sample.concept_b]
                           Sample.concept_null.
Proof.
  apply constellation_distance_symmetric_when_concepts_vanish.
  - simpl. lia.
  - right. vm_compute. reflexivity.
Defined.

Lemma emd_masses_balance_when_first_is_heavier_witness :
  let d := emd_masses [Sample.concept_a] [Sample.concept_b]
                      [Sample.concept_a] [Sample.concept_b]
                      Sample.concept_null in
  (List.last (snd d) 0 == 2)%Q /\ (py_sum (fst d) == py_sum (snd d))%Q.
Proof.
  intros d.
  destruct (emd_masses_balance_when_first_is_heavier
              [Sample.concept_a] [Sample.concept_b]
              [Sample.concept_a] [Sample.concept_b] Sample.concept_null)
    as (_ & Hlast & Hsum).
  - reflexivity.
  - vm_compute. reflexivity.
  - split; [|exact Hsum]. fold d in Hlast. rewrite Hlast.
    vm_compute. reflexivity.
Defined.

Lemma concept_phi_is_phi_max_witness :
  exists c cache',
    concept Sample.unwired_subsystem [0] ∅ = (Ok (Some c), cache')
    /\ phi_max Sample.unwired_subsystem [0] ∅ = (Ok (Concept.phi c), cache').
Proof.
  destruct (returns_some_pair (concept Sample.unwired_subsystem [0] ∅))
    as (c & cache' & Hc); [vm_compute; reflexivity|].
  exists c, cache'. split; [exact Hc|].
  exact (proj1 (concept_phi_is_phi_max Sample.unwired_subsystem [0] ∅ cache' c Hc)).
Defined.

End Witnesses.

(** ** Repertoires as probability distributions *)

Section ShapeFacts.

Lemma or_shape_absorb (a b : list bool) :
  length b = length a ->
  (forall k, nth k b false = true -> nth k a false = true) ->
  or_shape a b = a.
Proof.
  intros Hlen Hle. apply (nth_ext _ _ false false).
  - rewrite length_or_shape, Hlen. lia.
  - intros k _. rewrite nth_or_shape.
    destruct (nth k b false) eqn:Hb; [|apply orb_false_r].
    rewrite (Hle k Hb). reflexivity.
Qed.

Lemma nth_beyond (shape : list bool) (k : nat) :
  (length shape <= k)%nat -> nth k shape false = false.
Proof. intros Hk. apply nth_overflow. exact Hk. Qed.

Lemma py_index_valid_state (n : nat) (state : list Z) (i : Z) :
  valid_state n state -> 0 <= i < Z.of_nat n ->
  exists v, py_index state i = Ok v /\ (v = 0 \/ v = 1).
Proof.
  intros [Hlen Hall] Hi. unfold py_index. rewrite Hlen.
  replace (i <? 0) with false by (symmetry; apply Z.ltb_ge; lia).
  replace ((0 <=? i) && (i <? Z.of_nat n)) with true
    by (symmetry; apply andb_true_iff; split;
        [apply Z.leb_le|apply Z.ltb_lt]; lia).
  destruct (lookup_lt_is_Some_2 state (Z.to_nat i)) as [v Hv]; [lia|].
  rewrite Hv. exists v. split; [reflexivity|].
  apply (proj1 (List.Forall_forall _ _) Hall).
  apply list_elem_of_In. eapply list_elem_of_lookup_2. exact Hv.
Qed.

Lemma tselect_py_total (t : Tensor) (i : nat) (v : Z) :
  v = 0 \/ (v = 1 /\ nth i (tshape t) false = true) ->
  tselect_py t i v = Ok (tselect t i (bool_decide (v = 1))).
Proof.
  unfold tselect_py, norm_index. intros [->|[-> ->]]; [|reflexivity].
  destruct (nth i (tshape t) false); reflexivity.
Qed.

Lemma NoDup_map_filter {A B} (f : A -> B) (g : A -> bool) (l : list A) :
  List.NoDup (map f l) -> List.NoDup (map f (List.filter g l)).
Proof.
  induction l as [|x l IH]; intros Hnd; [constructor|].
  inversion Hnd as [|? ? Hx Hnd']; subst. simpl.
  destruct (g x); [|apply IH, Hnd']. simpl. constructor; [|apply IH, Hnd'].
  intros Hin. apply Hx. apply in_map_iff in Hin as (y & Hy & Hin).
  apply filter_In in Hin as [Hin _]. apply in_map_iff. eauto.
Qed.

End ShapeFacts.

Section RepertoireFacts.
Context `{Collaborators}.
Variable n : nat.
Variable S : Subsystem.t.
Hypothesis Hn : n = Network.size (Subsystem.network S).
Variable all : list Node.t.
Hypothesis Hall : Network_nodes (Subsystem.network S) = Ok all.

Lemma all_lookup (k : nat) (x : Node.t) :
  all !! k = Some x ->
  node_of S x /\ axis_of x = k /\ Node.index x = Z.of_nat k /\ (k < n)%nat.
Proof.
  intros Hk.
  destruct (Network_nodes_node_of n S Hn all k x Hall Hk) as [Hnode Hax].
  destruct (Network_nodes_fields _ _ _ _ Hall Hk) as [_ Hidx].
  pose proof (lookup_lt_Some _ _ _ Hk) as Hlt.
  rewrite (Network_nodes_length n S Hn all Hall) in Hlt. auto.
Qed.

Lemma all_In (x : Node.t) :
  In x all ->
  node_of S x /\ all !! axis_of x = Some x
  /\ Node.index x = Z.of_nat (axis_of x) /\ (axis_of x < n)%nat.
Proof.
  intros Hx. apply list_elem_of_In, list_elem_of_lookup in Hx as [k Hk].
  destruct (all_lookup k x Hk) as (Hnode & Hax & Hidx & Hlt).
  rewrite Hax. auto.
Qed.

Lemma all_axes_NoDup : List.NoDup (map axis_of all).
Proof.
  apply NoDup_ListNoDup, NoDup_alt. intros i j k Hi Hj.
  rewrite list_lookup_fmap in Hi, Hj.
  destruct (all !! i) as [x|] eqn:Hxi; [|discriminate].
  destruct (all !! j) as [y|] eqn:Hyj; [|discriminate].
  injection Hi as Hi. injection Hj as Hj.
  destruct (all_lookup i x Hxi) as (_ & Hax & _).
  destruct (all_lookup j y Hyj) as (_ & Hay & _). lia.
Qed.

(** Nodes of the network list that are equal are the same node. *)
Lemma all_Node_eq (x y : Node.t) :
  In x all -> In y all -> Node_eq x y = true -> x = y.
Proof.
  intros Hx Hy Heq.
  destruct (all_In x Hx) as (_ & Hlx & Hix & _).
  destruct (all_In y Hy) as (_ & Hly & Hiy & _).
  unfold Node_eq in Heq. apply andb_true_iff in Heq as [Heq _].
  apply Z.eqb_eq in Heq.
  assert (Hax : axis_of x = axis_of y) by lia.
  rewrite Hax in Hlx. rewrite Hlx in Hly. injection Hly as ->. reflexivity.
Qed.

Lemma Node_in_all (x : Node.t) (l : list Node.t) :
  In x all -> (forall y, In y l -> In y all) ->
  Node_in x l = true <-> In x l.
Proof.
  intros Hx Hl. unfold Node_in. rewrite existsb_exists. split.
  - intros (y & Hy & Heq). rewrite (all_Node_eq x y Hx (Hl y Hy) Heq). exact Hy.
  - intros Hin. exists x. split; [exact Hin|].
    apply Node_eq_of_fields; reflexivity.
Qed.

(** The inputs of a node of the network. *)
Lemma Node_inputs_all (p : Node.t) :
  node_of S p ->
  Node_inputs p
  = Ok (List.filter (fun x => Zmem (Node.index x) (Node._input_indices p)) all).
Proof.
  intros Hp. unfold Node_inputs.
  rewrite (proj1 (node_of_facts n S Hn p Hp)), Hall. reflexivity.
Qed.


(** Conditioning on the states of distinct nodes whose axes have size 2
    returns, and leaves those axes of size 1. *)
Lemma select_fold_total (state : list Z) (B : list Node.t) (T : Tensor) :
  valid_state n state ->
  List.NoDup (map axis_of B) ->
  (forall b, In b B -> In b all) ->
  (forall b, In b B -> nth (axis_of b) (tshape T) false = true) ->
  exists T',
    foldM (fun t node => v ← py_index state (Node.index node);
                         tselect_py t (axis_of node) v) B T = Ok T'
    /\ length (tshape T') = length (tshape T)
    /\ (forall k, nth k (tshape T') false = true
                  <-> nth k (tshape T) false = true
                      /\ ~ In k (map axis_of B)).
Proof.
  intros Hstate. revert T.
  induction B as [|b B IH]; intros T Hnd Hin Htrue.
  - exists T. split; [reflexivity|]. split; [reflexivity|].
    intros k. simpl. tauto.
  - cbn [map] in Hnd. apply List.NoDup_cons_iff in Hnd as [Hb Hnd'].
    destruct (all_In b (Hin b (or_introl eq_refl))) as (_ & _ & Hidx & Hlt).
    destruct (py_index_valid_state n state (Node.index b) Hstate) as (v & Hv & Hv01);
      [lia|].
    cbn [foldM]. rewrite Hv. cbn [mbind result_bind].
    rewrite tselect_py_total
      by (destruct Hv01 as [->| ->];
          [left; reflexivity
          |right; split; [reflexivity|apply Htrue; left; reflexivity]]).
    cbn [mbind result_bind].
    destruct (IH (tselect T (axis_of b) (bool_decide (v = 1))) Hnd')
      as (T' & Hfold & Hlen & Hshape).
    + intros b' Hb'. apply Hin. right. exact Hb'.
    + intros b' Hb'. cbn [tshape tselect]. rewrite nth_insert_false.
      destruct (decide (axis_of b = axis_of b')) as [Heq|Hne].
      * exfalso. apply Hb. rewrite Heq. apply in_map. exact Hb'.
      * apply Htrue. right. exact Hb'.
    + exists T'. split; [exact Hfold|]. split.
      * rewrite Hlen. cbn [tshape tselect]. apply length_insert.
      * intros k. rewrite Hshape. cbn [tshape tselect map].
        rewrite nth_insert_false.
        destruct (decide (axis_of b = k)) as [Heq|Hne].
        -- split; [intros [? _]; discriminate|]. intros [_ Hk].
           exfalso. apply Hk. left. exact Heq.
        -- split; intros [Hk Hnot]; (split; [exact Hk|]).
           ++ intros [Heq|Hk']; [contradiction|apply Hnot, Hk'].
           ++ intros Hk'. apply Hnot. right. exact Hk'.
Qed.

Lemma mean_fold_shape (M : list Node.t) (T : Tensor) :
  let T' := fold_left (fun t node => tmean_axis t (axis_of node)) M T in
  length (tshape T') = length (tshape T)
  /\ (forall k, nth k (tshape T') false = true
                <-> nth k (tshape T) false = true /\ ~ In k (map axis_of M)).
Proof.
  revert T. induction M as [|m M IH]; intros T; cbn [fold_left].
  - split; [reflexivity|]. intros k. simpl. tauto.
  - destruct (IH (tmean_axis T (axis_of m))) as [Hlen Hshape]. split.
    + rewrite Hlen. cbn [tshape tmean_axis tdiv tsum_axis]. apply length_insert.
    + intros k. rewrite Hshape. cbn [tshape tmean_axis tdiv tsum_axis map].
      rewrite nth_insert_false.
      destruct (decide (axis_of m = k)) as [Heq|Hne].
      * split; [intros [? _]; discriminate|]. intros [_ Hk].
        exfalso. apply Hk. left. exact Heq.
      * split; intros [Hk Hnot]; (split; [exact Hk|]).
        -- intros [Heq|Hk']; [contradiction|apply Hnot, Hk'].
        -- intros Hk'. apply Hnot. right. exact Hk'.
Qed.

(** The axes of size 2 of the tensors of a node of the network. *)
Lemma node_of_shape (p : Node.t) :
  node_of S p ->
  tshape (fst (Node.tpm p)) = tshape (snd (Node.tpm p))
  /\ length (tshape (snd (Node.tpm p))) = n
  /\ (forall k, nth k (tshape (snd (Node.tpm p))) false = true
                <-> (k < n)%nat
                    /\ Zmem (Z.of_nat k) (Node._input_indices p) = true).
Proof.
  intros Hp. pose proof Hp as (_ & cm & label & Hinit).
  destruct (node_of_facts n S Hn p Hp) as (_ & _ & _ & Hs & Hl & _).
  destruct (Node_init_shape _ _ _ _ _ Hinit) as (Hshape & _).
  rewrite <- Hn in Hshape. split; [exact Hs|]. split; [exact Hl|].
  intros k. destruct (Nat.lt_ge_cases k n) as [Hlt|Hge].
  - rewrite (Hshape k Hlt). tauto.
  - rewrite nth_beyond by lia. split; [discriminate|]. intros [? _]. lia.
Qed.


Lemma node_of_index (p : Node.t) :
  node_of S p -> Node.index p = Z.of_nat (axis_of p) /\ (axis_of p < n)%nat.
Proof.
  intros Hp. destruct (node_of_facts n S Hn p Hp) as (_ & Hlt & _).
  destruct Hp as [Hpos _]. unfold axis_of in *. split; [lia|exact Hlt].
Qed.

(** One round of the loop of [cause_repertoire] returns and keeps the
    shape of the accumulated product. *)
Lemma cause_step_total (purview : list Node.t) (cjd : Tensor) (p : Node.t) :
  valid_state n (Subsystem.current_state S) ->
  valid_state n (Subsystem.past_state S) ->
  node_of S p ->
  tshape cjd = map (fun node => Node_in node purview) all ->
  exists cjd',
    cause_step S purview cjd p = Ok cjd' /\ tshape cjd' = tshape cjd.
Proof.
  intros Hcs Hps Hp Hshape.
  destruct (node_of_index p Hp) as [Hidx Hlt].
  destruct (node_of_shape p Hp) as (Hoff & Hlen & Haxes).
  unfold cause_step. rewrite (Node_inputs_all p Hp). cbn [mbind result_bind].
  destruct (py_index_valid_state n _ (Node.index p) Hcs) as (v & Hv & Hv01);
    [lia|].
  rewrite Hv. cbn [mbind result_bind].
  set (T0 := if bool_decide (v = 1) then snd (Node.tpm p) else fst (Node.tpm p)).
  assert (HT0 : py_index [fst (Node.tpm p); snd (Node.tpm p)] v = Ok T0)
    by (destruct Hv01 as [->| ->]; reflexivity).
  assert (HT0s : tshape T0 = tshape (snd (Node.tpm p)))
    by (unfold T0; destruct (bool_decide (v = 1)); [reflexivity|exact Hoff]).
  rewrite HT0, Hall. cbn [mbind result_bind].
  set (inputs := List.filter
                   (fun x => Zmem (Node.index x) (Node._input_indices p)) all).
  set (non_purview := List.filter
                        (fun x => Node_in x all && negb (Node_in x purview))
                        inputs).
  set (B := List.filter (fun x => negb (Node_in x (Subsystem.nodes S)))
                        non_purview).
  set (M := List.filter (fun x => negb (Node_in x B)) non_purview).
  assert (Hsub : forall x, In x non_purview -> In x all).
  { intros x Hx. apply filter_In in Hx as [Hx _].
    apply filter_In in Hx as [Hx _]. exact Hx. }
  assert (HB : forall b, In b B -> In b all).
  { intros b Hb. apply filter_In in Hb as [Hb _]. apply Hsub, Hb. }
  destruct (select_fold_total (Subsystem.past_state S) B T0 Hps)
    as (T1 & Hsel & Hlen1 & Hshape1).
  - do 3 apply NoDup_map_filter. exact all_axes_NoDup.
  - exact HB.
  - intros b Hb. rewrite HT0s. apply Haxes.
    destruct (all_In b (HB b Hb)) as (_ & _ & Hbi & Hblt).
    split; [exact Hblt|]. rewrite <- Hbi.
    apply filter_In in Hb as [Hb _]. apply filter_In in Hb as [Hb _].
    apply filter_In in Hb as [_ Hb]. exact Hb.
  - rewrite Hsel. cbn [mbind result_bind].
    destruct (mean_fold_shape M T1) as [Hlen2 Hshape2].
    set (T2 := fold_left (fun t node => tmean_axis t (axis_of node)) M T1) in *.
    assert (Hfit : or_shape (tshape cjd) (tshape T2) = tshape cjd).
    { apply or_shape_absorb.
      - rewrite Hlen2, Hlen1, HT0s, Hlen, Hshape, length_map.
        symmetry. apply (Network_nodes_length n S Hn all Hall).
      - intros k Hk. apply Hshape2 in Hk as [Hk HnotM].
        apply Hshape1 in Hk as [Hk HnotB]. rewrite HT0s in Hk.
        apply Haxes in Hk as [Hklt Hmem].
        rewrite <- (Network_nodes_length n S Hn all Hall) in Hklt.
        apply lookup_lt_is_Some_2 in Hklt as [x Hx].
        destruct (all_lookup k x Hx) as (_ & Hax & Hxi & _).
        assert (Hxall : In x all)
          by (apply list_elem_of_In; eapply list_elem_of_lookup_2; exact Hx).
        rewrite Hshape, nth_lookup, list_lookup_fmap, Hx. cbn.
        destruct (Node_in x purview) eqn:Hpurview; [reflexivity|exfalso].
        assert (Hxin : In x non_purview).
        { apply filter_In. split.
          - apply filter_In. split; [exact Hxall|]. rewrite Hxi. exact Hmem.
          - rewrite Hpurview, andb_true_r.
            apply (Node_in_all x all Hxall); auto. }
        destruct (Node_in x B) eqn:HxB.
        + apply (Node_in_all x B Hxall HB) in HxB.
          apply HnotB. rewrite <- Hax. apply in_map. exact HxB.
        + apply HnotM. rewrite <- Hax. apply in_map.
          apply filter_In. split; [exact Hxin|]. rewrite HxB. reflexivity. }
    unfold tmul_inplace. rewrite bool_decide_eq_true_2 by exact Hfit.
    eexists. split; [reflexivity|exact Hfit].
Qed.

Lemma cause_fold_total (purview mechanism : list Node.t) (cjd : Tensor) :
  valid_state n (Subsystem.current_state S) ->
  valid_state n (Subsystem.past_state S) ->
  (forall p, In p mechanism -> node_of S p) ->
  tshape cjd = map (fun node => Node_in node purview) all ->
  exists cjd',
    foldM (cause_step S purview) mechanism cjd = Ok cjd'
    /\ tshape cjd' = tshape cjd.
Proof.
  intros Hcs Hps. revert cjd.
  induction mechanism as [|p mechanism IH]; intros cjd Hnodes Hshape.
  - exists cjd. split; reflexivity.
  - destruct (cause_step_total purview cjd p Hcs Hps
                (Hnodes p (or_introl eq_refl)) Hshape) as (cjd1 & Hstep & Hs1).
    destruct (IH cjd1 (fun q Hq => Hnodes q (or_intror Hq)))
      as (cjd' & Hfold & Hs'); [rewrite Hs1; exact Hshape|].
    exists cjd'. cbn [foldM]. rewrite Hstep. cbn [mbind result_bind].
    split; [exact Hfold|]. rewrite Hs'. exact Hs1.
Qed.

(** [cause_repertoire] returns for nodes of the network and valid states,
    with the shape of the purview unless it is the scalar 1. *)
Lemma cause_repertoire_total (mechanism purview : list Node.t) :
  valid_state n (Subsystem.current_state S) ->
  valid_state n (Subsystem.past_state S) ->
  (forall p, In p mechanism -> node_of S p) ->
  exists r,
    cause_repertoire S mechanism purview = Ok r
    /\ (validate_nodelist mechanism = [] \/ validate_nodelist purview <> [] ->
        tshape r
        = map (fun node => Node_in node (validate_nodelist purview)) all).
Proof.
  intros Hcs Hps Hnodes. unfold cause_repertoire, max_entropy_distribution,
    cause_cjd, purview_shape.
  rewrite Hall. cbn [mbind result_bind].
  destruct (validate_nodelist mechanism) as [|m0 ms] eqn:Hm.
  - eexists. split; [reflexivity|]. intros _. reflexivity.
  - destruct (validate_nodelist purview) as [|p0 ps] eqn:Hp.
    + eexists. split; [reflexivity|]. intros [?|?]; [discriminate|contradiction].
    + rewrite <- Hp, <- Hm.
      destruct (cause_fold_total (validate_nodelist purview)
                  (validate_nodelist mechanism)
                  (tones (map (fun node => Node_in node
                                             (validate_nodelist purview)) all))
                  Hcs Hps) as (cjd & Hfold & Hshape).
      * intros p Hin. apply Hnodes. apply validate_nodelist_In. exact Hin.
      * reflexivity.
      * rewrite Hfold. cbn [mbind result_bind].
        destruct (negb _); eexists; (split; [reflexivity|]);
          intros _; exact Hshape.
Qed.



Lemma axis_in_all_sublist (L : list Node.t) (k : nat) (x : Node.t) :
  (forall y, In y L -> In y all) -> all !! k = Some x ->
  In k (map axis_of L) <-> In x L.
Proof.
  intros HL Hx. destruct (all_lookup k x Hx) as (_ & Hax & _). split.
  - intros Hk. apply in_map_iff in Hk as (y & Hy & Hin).
    destruct (all_In y (HL y Hin)) as (_ & Hly & _).
    rewrite Hy, Hx in Hly. injection Hly as ->. exact Hin.
  - intros Hin. rewrite <- Hax. apply in_map. exact Hin.
Qed.

Lemma effect_step_total (mechanism : list Node.t) (acc : Tensor) (p : Node.t) :
  node_of S p ->
  exists acc',
    effect_step S mechanism acc p = Ok acc'
    /\ (forall k, (k < n)%nat ->
          nth k (tshape acc') false = true
          <-> nth k (tshape acc) false = true \/ kept_input S all mechanism p k).
Proof.
  intros Hp.
  destruct (node_of_facts n S Hn p Hp) as (_ & Hlt & Hnorm & _).
  destruct (node_of_shape p Hp) as (_ & Hlen & Haxes).
  unfold effect_step, effect_factor. rewrite (Node_inputs_all p Hp).
  rewrite <- Hn, Hnorm. cbn [mbind result_bind].
  set (inputs := List.filter
                   (fun x => Zmem (Node.index x) (Node._input_indices p)) all).
  set (M := List.filter (fun x => Node_in x (Subsystem.nodes S)
                                  && negb (Node_in x mechanism)) inputs).
  match goal with
  | |- context [fold_left ?f M ?E] =>
      destruct (mean_fold_shape M E) as [_ Hshape]; set (T := fold_left f M E) in *
  end.
  eexists. split; [reflexivity|]. intros k Hk.
  cbn [tshape tmul]. rewrite nth_or_shape, orb_true_iff, Hshape.
  cbn [tshape]. rewrite app_nth1 by lia.
  assert (HM : forall y, In y M -> In y all).
  { intros y Hy. apply filter_In in Hy as [Hy _].
    apply filter_In in Hy as [Hy _]. exact Hy. }
  pose proof Hk as Hk'. rewrite <- (Network_nodes_length n S Hn all Hall) in Hk'.
  apply lookup_lt_is_Some_2 in Hk' as [x Hx].
  destruct (all_lookup k x Hx) as (_ & _ & Hxi & _).
  assert (Hxall : In x all)
    by (apply list_elem_of_In; eapply list_elem_of_lookup_2; exact Hx).
  rewrite (axis_in_all_sublist M k x HM Hx), Haxes.
  unfold kept_input. split.
  - intros [Hacc|[[_ Hmem] HnotM]]; [left; exact Hacc|right].
    split; [exact Hmem|]. exists x. split; [exact Hx|].
    destruct (_ && _) eqn:Hcond; [|reflexivity]. exfalso. apply HnotM.
    apply filter_In. split; [|exact Hcond].
    apply filter_In. split; [exact Hxall|]. rewrite Hxi. exact Hmem.
  - intros [Hacc|[Hmem (x' & Hx' & Hcond)]]; [left; exact Hacc|right].
    rewrite Hx in Hx'. injection Hx' as <-.
    split; [split; [exact Hk|exact Hmem]|].
    intros HinM. apply filter_In in HinM as [_ HinM]. congruence.
Qed.

Lemma effect_fold_total (mechanism L : list Node.t) (acc : Tensor) :
  (forall p, In p L -> node_of S p) ->
  exists acc',
    foldM (effect_step S mechanism) L acc = Ok acc'
    /\ (forall k, (k < n)%nat ->
          nth k (tshape acc') false = true
          <-> nth k (tshape acc) false = true
              \/ exists p, In p L /\ kept_input S all mechanism p k).
Proof.
  revert acc. induction L as [|p L IH]; intros acc Hnodes.
  - exists acc. split; [reflexivity|]. intros k Hk. split; [auto|].
    intros [Hacc|(p & [] & _)]. exact Hacc.
  - destruct (effect_step_total mechanism acc p (Hnodes p (or_introl eq_refl)))
      as (acc1 & Hstep & Hshape1).
    destruct (IH acc1 (fun q Hq => Hnodes q (or_intror Hq)))
      as (acc' & Hfold & Hshape').
    exists acc'. cbn [foldM]. rewrite Hstep. cbn [mbind result_bind].
    split; [exact Hfold|]. intros k Hk. rewrite (Hshape' k Hk), (Hshape1 k Hk).
    split.
    + intros [[Hacc|Hkept]|(q & Hq & Hkept)]; [left; exact Hacc|right|right].
      * exists p. split; [left; reflexivity|exact Hkept].
      * exists q. split; [right; exact Hq|exact Hkept].
    + intros [Hacc|(q & [<-|Hq] & Hkept)]; [left; left; exact Hacc| |].
      * left. right. exact Hkept.
      * right. exists q. split; [exact Hq|exact Hkept].
Qed.

Lemma inputs_union_total (L : list Node.t) :
  (forall p, In p L -> node_of S p) ->
  exists U,
    inputs_union L = Ok U
    /\ (forall x, In x U -> In x all)
    /\ List.NoDup (map axis_of U)
    /\ (forall x, In x all ->
          In x U <-> exists p, In p L
                               /\ Zmem (Node.index x) (Node._input_indices p)
                                  = true).
Proof.
  induction L as [|p L IH]; intros Hnodes.
  - exists []. split; [reflexivity|]. split; [intros ? []|].
    split; [constructor|]. intros x _. split; [intros []|intros (? & [] & _)].
  - destruct (IH (fun q Hq => Hnodes q (or_intror Hq)))
      as (others & Hothers & Hsub & Hnd & Hiff).
    cbn [inputs_union].
    rewrite (Node_inputs_all p (Hnodes p (or_introl eq_refl))), Hothers.
    cbn [mbind result_bind].
    set (inputs := List.filter
                     (fun x => Zmem (Node.index x) (Node._input_indices p)) all).
    assert (Hin_sub : forall x, In x inputs -> In x all)
      by (intros x Hx; apply filter_In in Hx as [Hx _]; exact Hx).
    eexists. split; [reflexivity|]. split; [|split].
    + intros x Hx. apply in_app_or in Hx as [Hx|Hx]; [apply Hin_sub, Hx|].
      apply filter_In in Hx as [Hx _]. apply Hsub, Hx.
    + rewrite map_app. apply NoDup_ListNoDup, NoDup_app. split; [|split].
      * apply NoDup_ListNoDup, NoDup_map_filter, all_axes_NoDup.
      * intros k Hk Hk'. apply list_elem_of_In in Hk, Hk'.
        apply in_map_iff in Hk as (x & Hxk & Hx).
        apply in_map_iff in Hk' as (y & Hyk & Hy).
        apply filter_In in Hy as [Hy Hnot].
        destruct (all_In x (Hin_sub x Hx)) as (_ & Hlx & _).
        destruct (all_In y (Hsub y Hy)) as (_ & Hly & _).
        rewrite Hxk in Hlx. rewrite Hyk, Hlx in Hly. injection Hly as ->.
        apply negb_true_iff in Hnot.
        rewrite (proj2 (Node_in_all y inputs (Hsub y Hy) Hin_sub) Hx) in Hnot.
        discriminate.
      * apply NoDup_ListNoDup, NoDup_map_filter, Hnd.
    + intros x Hx. rewrite in_app_iff, filter_In. split.
      * intros [Hxi|[Hxo _]].
        -- exists p. split; [left; reflexivity|].
           apply filter_In in Hxi as [_ Hxi]. exact Hxi.
        -- apply (Hiff x Hx) in Hxo as (q & Hq & Hmem).
           exists q. split; [right; exact Hq|exact Hmem].
      * intros (q & [<-|Hq] & Hmem).
        -- left. apply filter_In. split; [exact Hx|exact Hmem].
        -- destruct (Node_in x inputs) eqn:Hxin.
           ++ left. apply (Node_in_all x inputs Hx Hin_sub), Hxin.
           ++ right. split; [|reflexivity]. apply (Hiff x Hx). eauto.
Qed.

Lemma existsb_take_false (shape : list bool) :
  (forall k, (k < n)%nat -> nth k shape false = false) ->
  existsb (fun b : bool => b) (take n shape) = false.
Proof.
  intros Hfalse. apply not_true_is_false. intros Hex.
  apply existsb_exists in Hex as (b & Hb & ->).
  apply list_elem_of_In, list_elem_of_lookup in Hb as [k Hk].
  apply lookup_take_Some in Hk as [Hk Hlt].
  specialize (Hfalse k Hlt). rewrite nth_lookup, Hk in Hfalse. discriminate.
Qed.

(** [effect_repertoire] returns for purview nodes of the network and a
    valid current state. *)
Lemma effect_repertoire_total (mechanism purview : list Node.t) :
  valid_state n (Subsystem.current_state S) ->
  (forall p, In p purview -> node_of S p) ->
  exists r, effect_repertoire S mechanism purview = Ok r.
Proof.
  intros Hcs Hnodes. unfold effect_repertoire. cbv zeta.
  destruct (validate_nodelist purview) as [|p0 ps] eqn:Hp; [eauto|].
  rewrite <- Hp, <- Hn.
  assert (Hv : forall p, In p (validate_nodelist purview) -> node_of S p)
    by (intros p Hin; apply Hnodes, validate_nodelist_In, Hin).
  set (mech := validate_nodelist mechanism).
  set (purv := validate_nodelist purview) in *.
  unfold effect_accumulate, purview_shape. rewrite Hall, <- Hn.
  cbn [mbind result_bind].
  destruct (effect_fold_total mech purv
              (tones (replicate n false
                      ++ map (fun node => Node_in node purv) all)) Hv)
    as (acc & Hacc & Hshape).
  rewrite Hacc. cbn [mbind result_bind].
  destruct (inputs_union_total purv Hv) as (U & HU & HUsub & HUnd & HUiff).
  rewrite HU. cbn [mbind result_bind].
  set (external := List.filter
                     (fun x => negb (Node_in x (Subsystem.nodes S))) all).
  set (B := List.filter (fun x => Node_in x mech || Node_in x external) U).
  assert (Hext : forall x, In x external -> In x all)
    by (intros x Hx; apply filter_In in Hx as [Hx _]; exact Hx).
  assert (HB : forall b, In b B -> In b all)
    by (intros b Hb; apply filter_In in Hb as [Hb _]; apply HUsub, Hb).
  assert (Hboundary : forall x, In x all ->
             Node_in x mech || Node_in x external = true
             <-> Node_in x (Subsystem.nodes S) && negb (Node_in x mech) = false).
  { intros x Hx. rewrite orb_true_iff, andb_false_iff, negb_false_iff.
    rewrite (Node_in_all x external Hx Hext). unfold external.
    rewrite filter_In, negb_true_iff. tauto. }
  assert (Hacc0 : forall k, (k < n)%nat ->
             nth k (tshape (tones (replicate n false
                                   ++ map (fun node => Node_in node purv) all)))
                 false = false).
  { intros k Hk. cbn [tshape tones].
    rewrite app_nth1 by (rewrite length_replicate; exact Hk).
    rewrite nth_lookup, lookup_replicate_2 by exact Hk. reflexivity. }
  destruct (select_fold_total (Subsystem.current_state S) B acc Hcs)
    as (acc' & Hsel & _ & Hshape').
  - apply NoDup_map_filter. exact HUnd.
  - exact HB.
  - intros b Hb. assert (Hball : In b all) by (apply HB, Hb).
    destruct (all_In b Hball) as (_ & Hlb & Hbi & Hblt).
    apply filter_In in Hb as [HbU Hcond].
    apply (Hshape _ Hblt). right.
    destruct (proj1 (HUiff b Hball) HbU) as (p & Hp' & Hmem).
    exists p. split; [exact Hp'|]. split; [rewrite <- Hbi; exact Hmem|].
    exists b. split; [exact Hlb|]. apply (Hboundary b Hball), Hcond.
  - rewrite Hsel. cbn [mbind result_bind].
    rewrite existsb_take_false; [eauto|].
    intros k Hk. apply not_true_is_false. intros Htrue.
    apply Hshape' in Htrue as [Htrue HnotB].
    apply (Hshape k Hk) in Htrue as [Htrue|(p & Hp' & Hmem & x & Hx & Hcond)].
    + rewrite (Hacc0 k Hk) in Htrue. discriminate.
    + destruct (all_lookup k x Hx) as (_ & Hax & Hxi & _).
      assert (Hxall : In x all)
        by (apply list_elem_of_In; eapply list_elem_of_lookup_2; exact Hx).
      apply HnotB. rewrite <- Hax. apply in_map. apply filter_In. split.
      * apply (HUiff x Hxall). exists p. split; [exact Hp'|].
        rewrite Hxi. exact Hmem.
      * apply (Hboundary x Hxall), Hcond.
Qed.


(** The shape of an effect repertoire over a nonempty purview. *)
Lemma effect_repertoire_shape (mechanism purview : list Node.t) (r : Tensor) :
  (forall p, In p purview -> node_of S p) ->
  validate_nodelist purview <> [] ->
  effect_repertoire S mechanism purview = Ok r ->
  tshape r = map (fun node => Node_in node (validate_nodelist purview)) all.
Proof.
  intros Hnodes Hne Hr. unfold effect_repertoire in Hr. cbv zeta in Hr.
  rewrite <- Hn in Hr.
  destruct (validate_nodelist_axes n S Hn purview Hnodes) as [Hv Hnd].
  destruct (validate_nodelist purview) as [|p0 purview'] eqn:Hpurview;
    [contradiction|].
  rewrite <- Hpurview in *. clear Hpurview p0 purview'.
  set (purview' := validate_nodelist purview) in *.
  apply bind_Ok in Hr as (acc & Hacc & Hr).
  apply bind_Ok in Hr as (U & HU & Hr).
  apply bind_Ok in Hr as (all' & Hall' & Hr).
  apply bind_Ok in Hr as (acc' & Hcond & Hr).
  destruct (existsb _ _); [discriminate|]. injection Hr as <-.
  unfold effect_accumulate in Hacc. rewrite <- Hn in Hacc.
  apply bind_Ok in Hacc as (pshape & Hshape & Hacc).
  destruct (purview_shape_spec n S Hn purview' pshape Hv Hshape) as [Hlen Hiff].
  assert (Hpshape : pshape = map (fun node => Node_in node purview') all).
  { unfold purview_shape in Hshape. rewrite Hall in Hshape.
    injection Hshape as <-. reflexivity. }
  assert (Hok : acc_ok n pshape (rev (map axis_of purview') ++ []) acc).
  { apply (effect_fold n S Hn (validate_nodelist mechanism) pshape purview' Hlen
             (tones (replicate n false ++ pshape)) [] acc); try assumption.
    - split; [|split; [|split]].
      + simpl. rewrite length_app, length_replicate, Hlen. lia.
      + simpl. apply drop_app_length'. rewrite length_replicate. reflexivity.
      + intros j b s _. reflexivity.
      + intros s _. reflexivity.
    - intros p _ [].
    - intros p Hp. apply Hiff. apply in_map. exact Hp. }
  rewrite app_nil_r in Hok.
  assert (Hcok : cond_ok n pshape acc).
  { apply (cond_ok_of_acc n S Hn pshape (rev (map axis_of purview'))); try assumption.
    - apply NoDup_rev. exact Hnd.
    - intros k. rewrite Hiff. apply in_rev. }
  assert (Hcok' : cond_ok n pshape acc').
  { refine (cond_fold n S Hn _ pshape _ acc acc' _ Hcok Hcond).
    intros node Hin. apply filter_In in Hin as [Hin _].
    pose proof (inputs_union_node_of n S Hn purview' U Hv HU node Hin) as Hnode.
    exact (proj1 (proj2 (node_of_facts n S Hn node Hnode))). }
  destruct Hcok' as (_ & Hd & _). cbn [tshape]. rewrite Hd. exact Hpshape.
Qed.

(** The shape of a cause repertoire, unless it is the scalar 1. *)
Lemma cause_repertoire_shape (mechanism purview : list Node.t) (r : Tensor) :
  validate_nodelist mechanism = [] \/ validate_nodelist purview <> [] ->
  cause_repertoire S mechanism purview = Ok r ->
  tshape r = map (fun node => Node_in node (validate_nodelist purview)) all.
Proof.
  intros Hcase Hr.
  assert (Hfold : forall mech purv cjd cjd',
             foldM (cause_step S purv) mech cjd = Ok cjd' ->
             tshape cjd' = tshape cjd).
  { intros mech purv. induction mech as [|p mech IH]; intros cjd cjd' Hf.
    - injection Hf as <-. reflexivity.
    - cbn [foldM] in Hf. apply bind_Ok in Hf as (cjd1 & Hstep & Hf).
      rewrite (IH _ _ Hf). unfold cause_step in Hstep.
      apply bind_Ok in Hstep as (? & _ & Hstep).
      apply bind_Ok in Hstep as (? & _ & Hstep).
      apply bind_Ok in Hstep as (? & _ & Hstep).
      apply bind_Ok in Hstep as (? & _ & Hstep).
      apply bind_Ok in Hstep as (? & _ & Hstep).
      unfold tmul_inplace in Hstep.
      destruct (bool_decide _) eqn:Hfit; [|discriminate].
      injection Hstep as <-. apply bool_decide_eq_true in Hfit. exact Hfit. }
  destruct (cause_repertoire_cases S mechanism purview r Hr)
    as [[_ Hmax]|[(Hm & Hp & _)|(_ & _ & cjd & Hcjd & Hres)]].
  - unfold max_entropy_distribution, purview_shape in Hmax.
    rewrite Hall in Hmax. injection Hmax as <-. reflexivity.
  - destruct Hcase; contradiction.
  - unfold cause_cjd, purview_shape in Hcjd. rewrite Hall in Hcjd.
    cbn [mbind result_bind] in Hcjd. apply Hfold in Hcjd.
    destruct Hres as [[_ ->]|[_ ->]]; exact Hcjd.
Qed.

(** An entry of a tensor without negative entries is at most the sum. *)
Lemma Qsum_bound (l : list Q) (q : Q) :
  Forall (fun x => 0 <= x)%Q l -> In q l -> (q <= Qsum l)%Q.
Proof.
  induction 1 as [|x l Hx Hl IH]; intros Hq; [destruct Hq|].
  pose proof (Qsum_nonneg l Hl). simpl. destruct Hq as [<-|Hq]; [lra|].
  specialize (IH Hq). lra.
Qed.

Lemma tsum_bound (t : Tensor) (s : State) :
  tnonneg t -> In s (states (tshape t)) -> (tget t s <= tsum t)%Q.
Proof.
  intros Ht Hs. unfold tsum. apply Qsum_bound.
  - apply List.Forall_forall. intros q Hq.
    apply in_map_iff in Hq as (s' & <- & _). apply Ht.
  - apply in_map. exact Hs.
Qed.

Lemma tnonneg_tmul (a b : Tensor) : tnonneg a -> tnonneg b -> tnonneg (tmul a b).
Proof.
  intros Ha Hb s. rewrite tget_tmul. apply Qmult_le_0_compat; [apply Ha|apply Hb].
Qed.

Lemma effect_factor_nonneg (p : Node.t) (E : Tensor) :
  valid_tpm (Subsystem.network S) -> node_of S p ->
  effect_factor S p = Ok E -> tnonneg E.
Proof.
  intros Hvalid Hp HE. destruct (node_of_nonneg S p Hvalid Hp) as [Hoff Hon].
  unfold effect_factor in HE. apply bind_Ok in HE as (j & _ & HE).
  injection HE as <-. intros s. unfold tget at 1. cbn [tat].
  destruct (nth _ _ false); [apply Hon|apply Hoff].
Qed.

Lemma effect_fold_nonneg (mechanism L : list Node.t) (acc acc' : Tensor) :
  valid_tpm (Subsystem.network S) ->
  (forall p, In p L -> node_of S p) ->
  tnonneg acc -> foldM (effect_step S mechanism) L acc = Ok acc' ->
  tnonneg acc'.
Proof.
  intros Hvalid. revert acc. induction L as [|p L IH]; intros acc Hnodes Hacc Hf.
  - injection Hf as <-. exact Hacc.
  - cbn [foldM] in Hf. apply bind_Ok in Hf as (acc1 & Hstep & Hf).
    refine (IH acc1 (fun q Hq => Hnodes q (or_intror Hq)) _ Hf).
    unfold effect_step in Hstep.
    apply bind_Ok in Hstep as (inputs & _ & Hstep).
    apply bind_Ok in Hstep as (E & HE & Hstep). injection Hstep as <-.
    apply tnonneg_tmul; [exact Hacc|]. apply tnonneg_mean_fold.
    exact (effect_factor_nonneg p E Hvalid (Hnodes p (or_introl eq_refl)) HE).
Qed.

Lemma effect_repertoire_nonneg (mechanism purview : list Node.t) (r : Tensor) :
  valid_tpm (Subsystem.network S) ->
  (forall p, In p purview -> node_of S p) ->
  effect_repertoire S mechanism purview = Ok r -> tnonneg r.
Proof.
  intros Hvalid Hnodes Hr. unfold effect_repertoire in Hr. cbv zeta in Hr.
  destruct (validate_nodelist purview) as [|p0 ps] eqn:Hp.
  { injection Hr as <-. intros s. change (tget tscalar_one s) with 1%Q. lra. }
  rewrite <- Hp in Hr.
  assert (Hv : forall p, In p (validate_nodelist purview) -> node_of S p)
    by (intros p Hin; apply Hnodes, validate_nodelist_In, Hin).
  apply bind_Ok in Hr as (acc & Hacc & Hr).
  apply bind_Ok in Hr as (U & _ & Hr).
  apply bind_Ok in Hr as (all' & _ & Hr).
  apply bind_Ok in Hr as (acc' & Hcond & Hr).
  destruct (existsb _ _); [discriminate|]. injection Hr as <-.
  unfold effect_accumulate in Hacc.
  apply bind_Ok in Hacc as (pshape & _ & Hacc).
  assert (Hnn : tnonneg acc).
  { refine (effect_fold_nonneg _ _ _ acc Hvalid Hv _ Hacc).
    intros s. rewrite tget_tones. lra. }
  pose proof (tnonneg_select_fold _ _ _ _ Hnn Hcond) as Hnn'.
  intros s. unfold tget at 1. cbn [tat]. apply Hnn'.
Qed.

Lemma cause_repertoire_nonneg (mechanism purview : list Node.t) (r : Tensor) :
  valid_tpm (Subsystem.network S) ->
  (forall p, In p mechanism -> node_of S p) ->
  cause_repertoire S mechanism purview = Ok r -> tnonneg r.
Proof.
  intros Hvalid Hnodes Hr.
  destruct (cause_repertoire_cases S mechanism purview r Hr)
    as [[_ Hmax]|[(_ & _ & ->)|(_ & _ & cjd & Hcjd & Hres)]].
  - unfold max_entropy_distribution in Hmax.
    apply bind_Ok in Hmax as (shape & _ & Hmax). injection Hmax as <-.
    intros s. rewrite tget_tdiv, tget_tones.
    apply Qle_shift_div_l; [|lra].
    replace 0%Q with (inject_Z 0) by reflexivity. rewrite <- Zlt_Qlt.
    apply Z.pow_pos_nonneg; lia.
  - intros s. change (tget tscalar_one s) with 1%Q. lra.
  - assert (Hnn : tnonneg cjd).
    { refine (cause_cjd_nonneg S _ _ cjd _ Hcjd). intros p Hp.
      apply (node_of_nonneg S p Hvalid), Hnodes, validate_nodelist_In, Hp. }
    destruct Hres as [[Hnz ->]|[_ ->]]; [|exact Hnn].
    assert (Hpos : (0 <= tsum cjd)%Q).
    { unfold tsum. apply Qsum_nonneg, List.Forall_forall. intros q Hq.
      apply in_map_iff in Hq as (s' & <- & _). apply Hnn. }
    intros s. rewrite tget_tdiv. apply Qle_shift_div_l; [|specialize (Hnn s); lra].
    destruct (Qlt_le_dec 0 (tsum cjd)) as [Hlt|Hle]; [exact Hlt|].
    exfalso. apply Hnz. lra.
Qed.

End RepertoireFacts.

Section ProductFacts.

(** The sum of a product of two functions of disjoint sets of axes is the
    product of the sums. *)
Lemma Qsum_product (sa sb : list bool) (F G : State -> Q) :
  length sa = length sb ->
  (forall k, nth k sa false = true -> nth k sb false = true -> False) ->
  (Qsum (map (fun s => F (mask sa s) * G (mask sb s))
             (states (or_shape sa sb)))
   == Qsum (map F (states sa)) * Qsum (map G (states sb)))%Q.
Proof.
  revert sb F G. induction sa as [|a sa IH]; intros [|b sb] F G Hlen Hdis;
    try discriminate.
  - simpl. ring.
  - injection Hlen as Hlen.
    assert (Hdis' : forall k, nth k sa false = true -> nth k sb false = true
                              -> False)
      by (intros k; apply (Hdis (Datatypes.S k))).
    pose proof (IH sb (fun x => F (false :: x)) (fun y => G (false :: y))
                  Hlen Hdis') as H00.
    pose proof (IH sb (fun x => F (true :: x)) (fun y => G (false :: y))
                  Hlen Hdis') as H10.
    pose proof (IH sb (fun x => F (false :: x)) (fun y => G (true :: y))
                  Hlen Hdis') as H01.
    cbv beta in H00, H10, H01.
    destruct a, b; cbn [or_shape orb states];
      rewrite ?map_app, ?Qsum_app, ?map_map; cbn [mask andb].
    + exfalso. apply (Hdis 0%nat); reflexivity.
    + rewrite H00, H10. ring.
    + rewrite H00, H01. ring.
    + rewrite H00. reflexivity.
Qed.

Lemma tsum_tmul_disjoint (a b : Tensor) :
  length (tshape a) = length (tshape b) ->
  (forall k, nth k (tshape a) false = true -> nth k (tshape b) false = true
             -> False) ->
  (tsum (tmul a b) == tsum a * tsum b)%Q.
Proof.
  intros Hlen Hdis. unfold tsum at 1. cbn [tshape tmul].
  rewrite (Qsum_map_ext _ (fun s => tget a (mask (tshape a) s)
                                    * tget b (mask (tshape b) s))%Q).
  - apply Qsum_product; assumption.
  - intros s _. rewrite tget_tmul. unfold tget. rewrite !mask_idem. reflexivity.
Qed.

Lemma tsum_tmul_scalar_r (a : Tensor) :
  (tsum (tmul a tscalar_one) == tsum a)%Q.
Proof.
  unfold tsum. cbn [tshape tmul tscalar_one tones].
  replace (or_shape (tshape a) []) with (tshape a)
    by (destruct (tshape a); reflexivity).
  apply Qsum_map_ext. intros s _. rewrite tget_tmul.
  change (tget tscalar_one s) with 1%Q. ring.
Qed.

Lemma tsum_tmul_scalar_l (b : Tensor) :
  (tsum (tmul tscalar_one b) == tsum b)%Q.
Proof.
  unfold tsum. cbn [tshape tmul tscalar_one tones or_shape].
  apply Qsum_map_ext. intros s _. rewrite tget_tmul.
  change (tget tscalar_one s) with 1%Q. ring.
Qed.

End ProductFacts.

Section ExpandFacts.
Context `{Collaborators}.

(** Removing a purview given as nodes, and one given as indices. *)
Lemma nodes_minus_nodes (nodes purview : list Node.t) :
  nodes_minus nodes (map ENode purview)
  = List.filter (fun x => negb (Node_in x purview)) nodes.
Proof.
  unfold nodes_minus, Node_in. apply filter_ext. intros x. f_equal.
  induction purview as [|p purview IH]; [reflexivity|].
  cbn [map existsb]. rewrite IH. reflexivity.
Qed.

Lemma nodes_minus_ints (nodes : list Node.t) (indices : list Z) :
  nodes_minus nodes (map EInt indices) = nodes.
Proof.
  unfold nodes_minus. apply filter_all. intros x _.
  replace (existsb _ (map EInt indices)) with false; [reflexivity|].
  induction indices as [|i indices IH]; [reflexivity|]. exact IH.
Qed.

Variable n : nat.
Variable S : Subsystem.t.
Hypothesis Hn : n = Network.size (Subsystem.network S).
Variable all : list Node.t.
Hypothesis Hall : Network_nodes (Subsystem.network S) = Ok all.

Lemma purview_shapes_disjoint (purview : list Node.t) (k : nat) :
  let rest := List.filter (fun x => negb (Node_in x purview))
                          (Subsystem.nodes S) in
  nth k (map (fun node => Node_in node (validate_nodelist purview)) all) false
  = true ->
  nth k (map (fun node => Node_in node (validate_nodelist rest)) all) false
  = true ->
  False.
Proof.
  intros rest. rewrite !nth_lookup, !list_lookup_fmap.
  destruct (all !! k) as [x|]; [|discriminate]. cbn. intros Hp Hr.
  apply Node_in_true in Hp as (p & Hp & Hxp).
  apply Node_in_true in Hr as (y & Hy & Hxy).
  apply validate_nodelist_In in Hp. apply validate_nodelist_In in Hy.
  apply filter_In in Hy as [_ Hy]. apply negb_true_iff in Hy.
  assert (Hin : Node_in y purview = true).
  { apply Node_in_true. exists p. split; [exact Hp|].
    apply Node_eq_true in Hxp as [? ?]. apply Node_eq_true in Hxy as [? ?].
    apply Node_eq_true. split; congruence. }
  congruence.
Qed.

(** Expanding a repertoire of sum 1 over a purview given as nodes gives a
    tensor of sum 1. *)
Lemma expand_repertoire_sum (direction : Direction)
    (mechanism purview : list Node.t) (r : Tensor) :
  valid_state n (Subsystem.current_state S) ->
  (forall p, In p purview -> node_of S p) ->
  (forall p, In p (Subsystem.nodes S) -> node_of S p) ->
  _get_repertoire S direction mechanism purview = Ok r ->
  (tsum r == 1)%Q ->
  exists e,
    _expand_repertoire S direction (map ENode purview) (Some r) = Ok e
    /\ (tsum e == 1)%Q.
Proof.
  intros Hcs Hpurview Hnodes Hr Hsum.
  unfold _expand_repertoire, _unconstrained_repertoire.
  rewrite nodes_minus_nodes.
  set (rest := List.filter (fun x => negb (Node_in x purview))
                           (Subsystem.nodes S)).
  assert (Hrest : forall p, In p rest -> node_of S p)
    by (intros p Hp; apply filter_In in Hp as [Hp _]; apply Hnodes, Hp).
  assert (Hlen : forall l : list Node.t,
             length (map (fun node => Node_in node l) all) = length all)
    by (intros l; apply length_map).
  destruct direction; cbn [_get_repertoire] in *.
  - (* cause *)
    set (ushape := map (fun node => Node_in node (validate_nodelist rest)) all).
    assert (Hu : cause_repertoire S [] rest
                 = Ok (tdiv (tones ushape)
                            (inject_Z (2 ^ Z.of_nat (count_true ushape))))).
    { unfold cause_repertoire, max_entropy_distribution, purview_shape.
      cbn [validate_nodelist fold_right]. rewrite Hall. reflexivity. }
    rewrite Hu. cbn [mbind result_bind]. eexists. split; [reflexivity|].
    pose proof (tsum_uniform ushape) as Hone.
    destruct (cause_repertoire_cases S mechanism purview r Hr)
      as [[Hm _]|[(_ & _ & ->)|(_ & Hp & _)]].
    + rewrite tsum_tmul_disjoint.
      * rewrite Hsum, Hone. reflexivity.
      * rewrite (cause_repertoire_shape S all Hall mechanism purview r
                   (or_introl Hm) Hr).
        cbn [tshape tdiv tones]. unfold ushape. rewrite !Hlen. reflexivity.
      * rewrite (cause_repertoire_shape S all Hall mechanism purview r
                   (or_introl Hm) Hr).
        cbn [tshape tdiv tones]. intros k. apply purview_shapes_disjoint.
    + rewrite tsum_tmul_scalar_l. exact Hone.
    + rewrite tsum_tmul_disjoint.
      * rewrite Hsum, Hone. reflexivity.
      * rewrite (cause_repertoire_shape S all Hall mechanism purview r
                   (or_intror Hp) Hr).
        cbn [tshape tdiv tones]. unfold ushape. rewrite !Hlen. reflexivity.
      * rewrite (cause_repertoire_shape S all Hall mechanism purview r
                   (or_intror Hp) Hr).
        cbn [tshape tdiv tones]. intros k. apply purview_shapes_disjoint.
  - (* effect *)
    destruct (effect_repertoire_total n S Hn all Hall [] rest Hcs Hrest)
      as [u Hu].
    rewrite Hu. cbn [mbind result_bind]. eexists. split; [reflexivity|].
    pose proof (effect_repertoire_sums_to_one n S Hn [] rest u Hrest Hu) as Hone.
    destruct (validate_nodelist purview) as [|p0 ps] eqn:Hp.
    { unfold effect_repertoire in Hr. rewrite Hp in Hr. injection Hr as <-.
      rewrite tsum_tmul_scalar_l. exact Hone. }
    destruct (validate_nodelist rest) as [|q0 qs] eqn:Hq.
    { unfold effect_repertoire in Hu. rewrite Hq in Hu. injection Hu as <-.
      rewrite tsum_tmul_scalar_r. exact Hsum. }
    assert (Hpne : validate_nodelist purview <> []) by (rewrite Hp; discriminate).
    assert (Hqne : validate_nodelist rest <> []) by (rewrite Hq; discriminate).
    pose proof (effect_repertoire_shape n S Hn all Hall mechanism purview r
                  Hpurview Hpne Hr) as Hrs.
    pose proof (effect_repertoire_shape n S Hn all Hall [] rest u
                  Hrest Hqne Hu) as Hus.
    rewrite tsum_tmul_disjoint.
    + rewrite Hsum, Hone. reflexivity.
    + rewrite Hrs, Hus, !Hlen. reflexivity.
    + rewrite Hrs, Hus. intros k. apply purview_shapes_disjoint.
Qed.

End ExpandFacts.

Section NodelistFacts.
Context `{Collaborators}.

Lemma insert_node_keeps (x y : Node.t) (l : list Node.t) :
  In y (x :: l) -> exists z, In z (insert_node x l) /\ Node_eq y z = true.
Proof.
  induction l as [|a l IH]; cbn [insert_node].
  - intros [<-|[]]. exists x. split; [left; reflexivity|apply Node_eq_refl].
  - intros Hy. destruct (Node_lt x a).
    + exists y. split; [exact Hy|apply Node_eq_refl].
    + destruct (Node_eq x a) eqn:Hxa.
      * destruct Hy as [<-|Hy].
        -- exists a. split; [left; reflexivity|exact Hxa].
        -- exists y. split; [exact Hy|apply Node_eq_refl].
      * destruct Hy as [<-|[<-|Hy]].
        -- destruct IH as (z & Hz & Hxz); [left; reflexivity|].
           exists z. split; [right; exact Hz|exact Hxz].
        -- exists a. split; [left; reflexivity|apply Node_eq_refl].
        -- destruct IH as (z & Hz & Hxz); [right; exact Hy|].
           exists z. split; [right; exact Hz|exact Hxz].
Qed.

Lemma Node_eq_trans (a b c : Node.t) :
  Node_eq a b = true -> Node_eq b c = true -> Node_eq a c = true.
Proof.
  rewrite !Node_eq_true. intros [? ?] [? ?]. split; congruence.
Qed.

Lemma validate_nodelist_keeps (L : list Node.t) (y : Node.t) :
  In y L -> exists z, In z (validate_nodelist L) /\ Node_eq y z = true.
Proof.
  induction L as [|x L IH]; [intros []|].
  intros Hy. change (validate_nodelist (x :: L))
    with (insert_node x (validate_nodelist L)).
  destruct Hy as [<-|Hy].
  - apply insert_node_keeps. left. reflexivity.
  - destruct (IH Hy) as (z & Hz & Hyz).
    destruct (insert_node_keeps x z (validate_nodelist L)) as (w & Hw & Hzw);
      [right; exact Hz|].
    exists w. split; [exact Hw|exact (Node_eq_trans _ _ _ Hyz Hzw)].
Qed.

(** Sorting and removing duplicates keeps the members. *)
Lemma Node_in_validate_nodelist (x : Node.t) (L : list Node.t) :
  Node_in x (validate_nodelist L) = Node_in x L.
Proof.
  apply eq_true_iff_eq. rewrite !Node_in_true. split.
  - intros (z & Hz & Hxz). exists z. split; [|exact Hxz].
    apply validate_nodelist_In. exact Hz.
  - intros (z & Hz & Hxz).
    destruct (validate_nodelist_keeps L z Hz) as (w & Hw & Hzw).
    exists w. split; [exact Hw|exact (Node_eq_trans _ _ _ Hxz Hzw)].
Qed.

Lemma validate_nodelist_nonempty (L : list Node.t) :
  L <> [] -> validate_nodelist L <> [].
Proof.
  destruct L as [|x L]; [contradiction|]. intros _ Hnil.
  destruct (validate_nodelist_keeps (x :: L) x) as (z & Hz & _);
    [left; reflexivity|].
  rewrite Hnil in Hz. destruct Hz.
Qed.

End NodelistFacts.

Section RepertoireProperties.
Context `{Collaborators}.

(** For a subsystem whose network builds its nodes and whose states hold one
    binary value per network node, [cause_repertoire] returns a repertoire
    for every mechanism made of nodes of the network, and
    [effect_repertoire] for every purview made of such nodes: no index runs
    out of range and no product meets a wrong shape. *)
Theorem repertoires_return_for_network_nodes (S : Subsystem.t)
    (mechanism purview : list Node.t) :
  returns (Network_nodes (Subsystem.network S)) = true ->
  valid_state (Network.size (Subsystem.network S)) (Subsystem.current_state S) ->
  ((forall p, In p mechanism -> node_of S p) ->
   valid_state (Network.size (Subsystem.network S)) (Subsystem.past_state S) ->
   exists r, cause_repertoire S mechanism purview = Ok r)
  /\ ((forall p, In p purview -> node_of S p) ->
      exists r, effect_repertoire S mechanism purview = Ok r).
Proof.
  intros Hall Hcs. apply returns_Ok in Hall as [all Hall]. split.
  - intros Hm Hps.
    destruct (cause_repertoire_total _ S eq_refl all Hall mechanism purview
                Hcs Hps Hm) as (r & Hr & _).
    exists r. exact Hr.
  - intros Hp.
    exact (effect_repertoire_total _ S eq_refl all Hall mechanism purview
             Hcs Hp).
Qed.

(** A repertoire over a nonempty purview has one axis per node of the
    network, of size 2 for the nodes of the purview and of size 1 for the
    others. *)
Theorem repertoire_axes_are_the_purview (S : Subsystem.t)
    (mechanism purview all : list Node.t) (r : Tensor) :
  Network_nodes (Subsystem.network S) = Ok all ->
  purview <> [] ->
  cause_repertoire S mechanism purview = Ok r
  \/ ((forall p, In p purview -> node_of S p)
      /\ effect_repertoire S mechanism purview = Ok r) ->
  tshape r = map (fun node => Node_in node purview) all
  /\ length (tshape r) = Network.size (Subsystem.network S).
Proof.
  intros Hall Hne Hr.
  assert (Hshape : tshape r
                   = map (fun node => Node_in node (validate_nodelist purview))
                         all).
  { pose proof (validate_nodelist_nonempty purview Hne) as Hv.
    destruct Hr as [Hr|[Hnodes Hr]].
    - exact (cause_repertoire_shape S all Hall mechanism purview r
               (or_intror Hv) Hr).
    - exact (effect_repertoire_shape _ S eq_refl all Hall mechanism purview r
               Hnodes Hv Hr). }
  assert (Hsame : tshape r = map (fun node => Node_in node purview) all).
  { rewrite Hshape. apply map_ext. intros x.
    apply Node_in_validate_nodelist. }
  split; [exact Hsame|].
  rewrite Hsame, length_map.
  exact (Network_nodes_length _ S eq_refl all Hall).
Qed.

(** When the transition probabilities of the network lie in [0, 1], every
    entry of a cause or effect repertoire lies in [0, 1]. *)
Theorem repertoire_entries_are_probabilities (S : Subsystem.t)
    (mechanism purview : list Node.t) (r : Tensor) (s : State) :
  valid_tpm (Subsystem.network S) ->
  ((forall p, In p mechanism -> node_of S p)
   /\ cause_repertoire S mechanism purview = Ok r)
  \/ ((forall p, In p purview -> node_of S p)
      /\ effect_repertoire S mechanism purview = Ok r) ->
  In s (states (tshape r)) ->
  (0 <= tget r s <= 1)%Q.
Proof.
  intros Hvalid Hr Hs.
  assert (Hfacts : tnonneg r /\ (tsum r <= 1)%Q).
  { destruct Hr as [[Hnodes Hr]|[Hnodes Hr]].
    - split.
      + exact (cause_repertoire_nonneg _ S eq_refl mechanism purview r Hvalid
                 Hnodes Hr).
      + destruct (cause_repertoire_sum S mechanism purview r Hr)
          as [Hone|[Hzero _]]; lra.
    - split.
      + exact (effect_repertoire_nonneg S mechanism purview r Hvalid Hnodes Hr).
      + pose proof (effect_repertoire_sums_to_one _ S eq_refl mechanism purview
                      r Hnodes Hr). lra. }
  destruct Hfacts as [Hnn Hsum]. split; [apply Hnn|].
  pose proof (tsum_bound r s Hnn Hs). lra.
Qed.

(** Expanding a repertoire that sums to 1 over the rest of the subsystem
    (the purview given as nodes) returns a tensor that sums to 1: the
    unconstrained repertoire of the other nodes has sum 1 and shares no axis
    with the purview. *)
Theorem expanded_repertoire_sums_to_one (S : Subsystem.t)
    (direction : Direction) (mechanism purview : list Node.t) (r : Tensor) :
  returns (Network_nodes (Subsystem.network S)) = true ->
  valid_state (Network.size (Subsystem.network S)) (Subsystem.current_state S) ->
  (forall p, In p purview -> node_of S p) ->
  (forall p, In p (Subsystem.nodes S) -> node_of S p) ->
  _get_repertoire S direction mechanism purview = Ok r ->
  (tsum r == 1)%Q ->
  exists e,
    _expand_repertoire S direction (map ENode purview) (Some r) = Ok e
    /\ (tsum e == 1)%Q.
Proof.
  intros Hall Hcs Hp Hnodes Hr Hsum. apply returns_Ok in Hall as [all Hall].
  exact (expand_repertoire_sum _ S eq_refl all Hall direction mechanism purview
           r Hcs Hp Hnodes Hr Hsum).
Qed.

End RepertoireProperties.

Section RepertoireWitnesses.
#[local] Existing Instance Sample.collaborators.

Lemma graded_subsystem_facts :
  let S := Sample.graded_subsystem in
  Subsystem.network S = Sample.graded_network
  /\ valid_state (Network.size (Subsystem.network S)) (Subsystem.current_state S)
  /\ valid_state (Network.size (Subsystem.network S)) (Subsystem.past_state S)
  /\ (forall p, In p (Subsystem.nodes S) -> node_of S p).
Proof.
  intros S.
  assert (HS : Subsystem_init [0; 1; 2] [1; 1; 0] [0; 0; 0]
                 Sample.graded_network None = Ok S).
  { apply built_Ok. vm_compute. reflexivity. }
  assert (Hpos : Forall (fun i => 0 <= i) [0; 1; 2])
    by (repeat constructor; lia).
  pose proof (Subsystem_init_node_of _ _ _ _ _ _ Hpos HS) as Hnodes.
  destruct (Subsystem_init_nodes _ _ _ _ _ _ Hpos HS)
    as (Hcs & Hps & Hnet & _ & _).
  rewrite Hcs, Hps, Hnet.
  split; [reflexivity|].
  split; [split; [reflexivity|repeat constructor; lia]|].
  split; [split; [reflexivity|repeat constructor; lia]|exact Hnodes].
Qed.

Lemma take_In {A} (k : nat) (l : list A) (x : A) : In x (take k l) -> In x l.
Proof.
  intros Hx. rewrite <- (firstn_skipn k l). apply in_or_app. left. exact Hx.
Qed.

Lemma drop_In {A} (k : nat) (l : list A) (x : A) : In x (drop k l) -> In x l.
Proof.
  intros Hx. rewrite <- (firstn_skipn k l). apply in_or_app. right. exact Hx.
Qed.

Lemma repertoires_return_for_network_nodes_witness :
  let S := Sample.graded_subsystem in
  (exists r, cause_repertoire S (take 1 (Subsystem.nodes S))
                              (Subsystem.nodes S) = Ok r)
  /\ (exists r, effect_repertoire S (take 1 (Subsystem.nodes S))
                                  (Subsystem.nodes S) = Ok r).
Proof.
  intros S. destruct graded_subsystem_facts as (_ & Hcs & Hps & Hnodes).
  destruct (repertoires_return_for_network_nodes S
              (take 1 (Subsystem.nodes S)) (Subsystem.nodes S))
    as [Hcause Heffect].
  - vm_compute. reflexivity.
  - exact Hcs.
  - split.
    + apply Hcause; [|exact Hps]. intros p Hp. apply Hnodes.
      exact (take_In _ _ _ Hp).
    + apply Heffect. exact Hnodes.
Defined.

Lemma repertoire_axes_are_the_purview_witness :
  let S := Sample.graded_subsystem in
  exists r,
    effect_repertoire S (take 1 (Subsystem.nodes S))
                      (drop 2 (Subsystem.nodes S)) = Ok r
    /\ tshape r = [false; false; true].
Proof.
  intros S. destruct graded_subsystem_facts as (_ & _ & _ & Hnodes).
  set (purview := drop 2 (Subsystem.nodes S)).
  destruct (returns_Ok (Network_nodes (Subsystem.network S))) as [all Hall].
  { vm_compute. reflexivity. }
  destruct (returns_Ok (effect_repertoire S (take 1 (Subsystem.nodes S))
                                          purview)) as [r Hr].
  { vm_compute. reflexivity. }
  exists r. split; [exact Hr|].
  destruct (repertoire_axes_are_the_purview S (take 1 (Subsystem.nodes S))
              purview all r Hall) as [Hshape _].
  - intros Hnil. apply (f_equal (@length Node.t)) in Hnil.
    vm_compute in Hnil. discriminate.
  - right. split; [|exact Hr]. intros p Hp. apply Hnodes.
    exact (drop_In _ _ _ Hp).
  - rewrite Hshape.
    assert (Hbits : returns (all' ← Network_nodes (Subsystem.network S);
                             if bool_decide
                                  (map (fun node => Node_in node purview) all'
                                   = [false; false; true])
                             then Ok tt else Raise TypeError) = true).
    { vm_compute. reflexivity. }
    rewrite Hall in Hbits. cbn [mbind result_bind] in Hbits.
    destruct (bool_decide _) eqn:Hd; [|discriminate].
    apply bool_decide_eq_true in Hd. exact Hd.
Defined.

Lemma repertoire_entries_are_probabilities_witness :
  let S := Sample.graded_subsystem in
  exists r,
    cause_repertoire S (take 1 (Subsystem.nodes S)) (Subsystem.nodes S) = Ok r
    /\ forall s, In s (states (tshape r)) -> (0 <= tget r s <= 1)%Q.
Proof.
  intros S. destruct graded_subsystem_facts as (Hnet & _ & _ & Hnodes).
  destruct (returns_Ok (cause_repertoire S (take 1 (Subsystem.nodes S))
                                         (Subsystem.nodes S))) as [r Hr].
  { vm_compute. reflexivity. }
  exists r. split; [exact Hr|]. intros s Hs.
  apply (repertoire_entries_are_probabilities S (take 1 (Subsystem.nodes S))
           (Subsystem.nodes S) r s).
  - subst S. rewrite Hnet. exact valid_tpm_graded.
  - left. split; [|exact Hr]. intros p Hp. apply Hnodes.
    exact (take_In _ _ _ Hp).
  - exact Hs.
Defined.

Lemma expanded_repertoire_sums_to_one_witness :
  let S := Sample.graded_subsystem in
  exists r e,
    effect_repertoire S (take 1 (Subsystem.nodes S))
                      (drop 2 (Subsystem.nodes S)) = Ok r
    /\ _expand_repertoire S Future (map ENode (drop 2 (Subsystem.nodes S)))
                          (Some r) = Ok e
    /\ (tsum e == 1)%Q.
Proof.
  intros S. destruct graded_subsystem_facts as (_ & Hcs & _ & Hnodes).
  set (purview := drop 2 (Subsystem.nodes S)).
  assert (Hpurview : forall p, In p purview -> node_of S p).
  { intros p Hp. apply Hnodes. exact (drop_In _ _ _ Hp). }
  destruct (returns_Ok (effect_repertoire S (take 1 (Subsystem.nodes S))
                                          purview)) as [r Hr].
  { vm_compute. reflexivity. }
  destruct (expanded_repertoire_sums_to_one S Future
              (take 1 (Subsystem.nodes S)) purview r) as (e & He & Hsum).
  - vm_compute. reflexivity.
  - exact Hcs.
  - exact Hpurview.
  - exact Hnodes.
  - exact Hr.
  - exact (effect_repertoire_sums_to_one _ S eq_refl _ purview r Hpurview Hr).
  - exists r, e. split; [exact Hr|]. split; [exact He|exact Hsum].
Defined.

End RepertoireWitnesses.
